(** * Connect-4 (10x10, three players) robot brain and dice roller

    A shallow embedding of [Robot/robot_brain.py] and [Robot/DiceTurn.py],
    and the properties of the specification proved about it.

    Conventions of the embedding.
    - Python integers are [Z]; list indices are converted with [Z.to_nat]
      only after the code's own bounds checks.
    - A board is a list of rows, each a list of cells; a cell is [None]
      (empty) or [Some id] for a player identifier (a Python string).
    - Scores are Python floats or integers.  Every score the program
      computes is an integer or an integer multiple of 0.5 of small
      magnitude, so float arithmetic is exact on them and Python compares
      integers with floats exactly: finite scores are rationals [Q], and
      [math.inf] / [-math.inf] are added by the type [score].
    - Exceptions are the [Raise] results of the type [result]; recursion
      that is not structural in Python is driven by a fuel argument, with
      [OutOfFuel] as its own result, and shown never to occur. *)

From Stdlib Require Import ZArith QArith Qminmax Lia Lqa Sorted OrdersTac.
From stdpp Require Import base option list sorting gmap strings.

Local Open Scope Z_scope.

(** ** Constants of [robot_brain.py] *)

Definition ROWS : Z := 10.
Definition COLS : Z := 10.
Definition CONNECT_N : Z := 4.
Definition MAX_DEPTH : Z := 4.
Definition WIN_SCORE : Z := 10000.

(** ** Data model *)

Abbreviation player := string (only parsing).
Abbreviation cell := (option string) (only parsing).
Abbreviation board := (list (list (option string))) (only parsing).

(** Python list indexing: negative indices count from the end, anything
    else out of range raises [IndexError] (here: [None]). *)
Definition py_index {A} (l : list A) (i : Z) : option A :=
  if 0 <=? i then l !! Z.to_nat i
  else if - Z.of_nat (length l) <=? i then l !! Z.to_nat (Z.of_nat (length l) + i)
  else None.

(** [board[r][c]] with Python's semantics; [None] is an [IndexError]. *)
Definition cell_at (b : board) (r c : Z) : option cell :=
  row ← py_index b r; py_index row c.

(** [board[r][c]] as the program reads it at indices that are in range.
    All reads of the program on a 10x10 board are in range (see
    [cell_at_in_bounds]). *)
Definition get (b : board) (r c : Z) : cell :=
  default None (b !! Z.to_nat r ≫= λ row, row !! Z.to_nat c).

(** [range(n)] and [range(start, -1, -1)]. *)
Definition py_range (n : Z) : list Z :=
  (λ i : nat, Z.of_nat i) <$> seq 0 (Z.to_nat n).

Definition py_range_down (start : Z) : list Z :=
  reverse (py_range (start + 1)).

(** A board of the data model: [ROWS] rows of [COLS] cells. *)
Definition wf_board (b : board) : Prop :=
  length b = Z.to_nat ROWS ∧ Forall (λ row, length row = Z.to_nat COLS) b.

Global Instance wf_board_dec b : Decision (wf_board b).
Proof. unfold wf_board. apply _. Defined.

(** The gravity invariant of the data model: in every column, every cell
    below a disc holds a disc. *)
Definition gravity (b : board) : Prop :=
  ∀ r c, 0 ≤ r → r + 1 < ROWS → 0 ≤ c < COLS →
         get b r c ≠ None → get b (r + 1) c ≠ None.

(** ** Board primitives *)

Definition in_bounds (row col : Z) : bool :=
  (0 <=? row) && (row <? ROWS) && (0 <=? col) && (col <? COLS).

Definition is_none (c : cell) : bool :=
  match c with None => true | Some _ => false end.

(** [cell == player] for a player identifier (never [None]). *)
Definition cell_is (c : cell) (p : player) : bool :=
  match c with Some q => bool_decide (q = p) | None => false end.

(** The loop of [find_drop_row] over the rows still to visit. *)
Fixpoint find_drop_row_from (b : board) (col : Z) (rows : list Z) : option Z :=
  match rows with
  | [] => None
  | row :: rest =>
      if is_none (get b row col) then Some row
      else find_drop_row_from b col rest
  end.

Definition find_drop_row (b : board) (col : Z) : option Z :=
  find_drop_row_from b col (py_range_down (ROWS - 1)).

Definition board_is_full (b : board) : bool :=
  forallb (λ c, negb (is_none (get b 0 c))) (py_range COLS).

(** [place_disc] as a function on board values: every row is copied and
    the copy of row [row] is updated at [col].  The version on a store of
    list objects, which also shows what happens to the input, is
    [Heap.place_disc] below. *)
Definition place_disc (b : board) (row col : Z) (p : player) : board :=
  alter (λ r, <[Z.to_nat col := Some p]> r) (Z.to_nat row) b.

Definition directions : list (Z * Z) := [(0, 1); (1, 0); (1, 1); (-1, 1)].

(** One [while in_bounds(r, c) and board[r][c] == player] loop of
    [check_win]: [count], [r] and [c] are the loop's variables. *)
Fixpoint extend_run (fuel : nat) (b : board) (p : player) (dr dc : Z)
    (count r c : Z) : Z :=
  match fuel with
  | O => count
  | S fuel =>
      if in_bounds r c && cell_is (get b r c) p
      then extend_run fuel b p dr dc (count + 1) (r + dr) (c + dc)
      else count
  end.

(** Iterations granted to each loop of [check_win]; a loop walks a line
    of the grid and leaves it after at most [ROWS] steps
    ([extend_run_fuel]). *)
Definition run_fuel : nat := Z.to_nat (Z.max ROWS COLS).

Definition line_count (b : board) (p : player) (row col dr dc : Z) : Z :=
  let count := 1 in
  let count := extend_run run_fuel b p dr dc count (row + dr) (col + dc) in
  extend_run run_fuel b p (- dr) (- dc) count (row - dr) (col - dc).

Definition check_win (b : board) (row col : Z) (connect_n : Z) : bool :=
  match get b row col with
  | None => false
  | Some p =>
      existsb (λ '(dr, dc), connect_n <=? line_count b p row col dr dc)
              directions
  end.

(** ** Scores *)

(** A Python number as the search handles it: [-math.inf], a finite
    value, or [math.inf]. *)
Inductive score := NegInf | Fin (q : Q) | PosInf.

(** Python's [==] on scores. *)
Definition score_eq (a b : score) : Prop :=
  match a, b with
  | NegInf, NegInf | PosInf, PosInf => True
  | Fin p, Fin q => (p == q)%Q
  | _, _ => False
  end.

(** Python's [<] on scores. *)
Definition score_ltb (a b : score) : bool :=
  match a, b with
  | NegInf, NegInf => false
  | NegInf, _ => true
  | Fin p, Fin q => negb (Qle_bool q p)
  | Fin _, PosInf => true
  | _, _ => false
  end.

(** [a <= b] and [a >= b] on numbers are [not (b < a)] and [not (a < b)]. *)
Definition score_leb (a b : score) : bool := negb (score_ltb b a).

(** [max(a, b)] and [min(a, b)]: the first argument is kept unless the
    second is strictly beyond it. *)
Definition py_max (a b : score) : score := if score_ltb a b then b else a.
Definition py_min (a b : score) : score := if score_ltb b a then b else a.

(** ** Static evaluation *)

(** [sum(1 for x in l if f x)] *)
Definition count_if {A} (f : A → bool) (l : list A) : Z :=
  Z.of_nat (length (List.filter f l)).

(** [cell in opponents]: [None] is never a member of a list of strings. *)
Definition cell_in (opponents : list player) (c : cell) : bool :=
  match c with Some q => bool_decide (q ∈ opponents) | None => false end.

(** The three counts [score_window] starts with. *)
Definition count_bot (window : list cell) (bot_id : player) : Z :=
  count_if (λ c, cell_is c bot_id) window.
Definition count_opp (window : list cell) (opponents : list player) : Z :=
  count_if (cell_in opponents) window.
Definition count_empty (window : list cell) : Z :=
  count_if is_none window.

Definition score_window (window : list cell) (bot_id : player)
    (opponents : list player) : Q :=
  let bot_count := count_bot window bot_id in
  let opp_count := count_opp window opponents in
  let empty_count := count_empty window in
  if (0 <? bot_count) && (0 <? opp_count) then 0%Q  (* contested window *)
  else if bot_count =? CONNECT_N then inject_Z WIN_SCORE
  else if opp_count =? CONNECT_N then (- inject_Z WIN_SCORE)%Q
  else
    let score := 0%Q in
    let score :=
      if (bot_count =? 3) && (empty_count =? 1) then (score + 50)%Q
      else if (bot_count =? 2) && (empty_count =? 2) then (score + 10)%Q
      else if (bot_count =? 1) && (empty_count =? 3) then (score + 2)%Q
      else score in
    let score :=
      if (opp_count =? 3) && (empty_count =? 1) then (score - 60)%Q
      else if (opp_count =? 2) && (empty_count =? 2) then (score - 8)%Q
      else score in
    score.

(** [[board[row + k*dr][col + k*dc] for k in range(CONNECT_N)]] *)
Definition window_at (b : board) (row col dr dc : Z) : list cell :=
  (λ k, get b (row + k * dr) (col + k * dc)) <$> py_range CONNECT_N.

Definition center_weight : Q := 5 # 2.

Definition evaluate_board (b : board) (bot_id : player)
    (opponents : list player) : Q :=
  let score := 0%Q in
  let center_col := COLS `div` 2 in
  let center_count :=
    count_if (λ r, cell_is (get b r center_col) bot_id) (py_range ROWS) in
  let score := (score + inject_Z center_count * center_weight)%Q in
  foldl (λ score row,
    foldl (λ score col,
      foldl (λ score '(dr, dc),
        if negb (in_bounds (row + (CONNECT_N - 1) * dr)
                           (col + (CONNECT_N - 1) * dc))
        then score
        else (score + score_window (window_at b row col dr dc)
                                   bot_id opponents)%Q)
        score directions)
      score (py_range COLS))
    score (py_range ROWS).

(** The identifiers [infer_opponents] collects, in row-major order of
    first appearance. *)
Definition seen_ids (b : board) (bot_id : player) : list player :=
  remove_dups
    (omap (λ c : cell, c ≫= λ q, if bool_decide (q = bot_id) then None else Some q)
          (concat b)).

(** [infer_opponents] builds a Python [set] and returns [list(ids)], whose
    order the language leaves open: [set_order] stands for it. *)
Definition infer_opponents (set_order : list player → list player)
    (b : board) (bot_id : player) : list player :=
  let ids := seen_ids b bot_id in
  match ids with
  | [] => ["P1"; "P2"]%string
  | _ => set_order ids
  end.

(** ** Results of fallible code *)

Inductive exn :=
  | ValueError (msg : string)
  | RuntimeError (msg : string)
  | AssertionError
  | IndexError
  | TypeError.

Inductive result (A : Type) :=
  | Ok (a : A)
  | Raise (e : exn)
  | OutOfFuel.
Arguments Ok {A} a.
Arguments Raise {A} e.
Arguments OutOfFuel {A}.

Global Instance result_bind : MBind result := λ A B f m,
  match m with
  | Ok a => f a
  | Raise e => Raise e
  | OutOfFuel => OutOfFuel
  end.

(** [row = find_drop_row(board, col); assert row is not None] *)
Definition assert_some {A} (o : option A) : result A :=
  match o with Some a => Ok a | None => Raise AssertionError end.

(** ** The search *)

Definition valid_columns (b : board) : list Z :=
  List.filter (λ c, negb (bool_decide (find_drop_row b c = None))) (py_range COLS).

(** The terminal check of [minimax]: the score it returns when the disc
    at [last_move] completes a line, [None] when the search goes on. *)
Definition terminal_score (b : board) (bot_id : player) (depth : Z)
    (last_move : option (Z * Z)) : option score :=
  match last_move with
  | Some (r, c) =>
      if check_win b r c CONNECT_N then
        let winner := get b r c in
        if cell_is winner bot_id
        then Some (Fin (inject_Z (WIN_SCORE + depth)))
        else Some (Fin (inject_Z (- WIN_SCORE - depth)))
      else None
  | None => None
  end.

Section layers.
(** The recursive call [minimax(child_board, depth - 1, maximizing', bot_id,
    opponents, alpha, beta, (row, col), nodes)]; [nodes] is the counter
    [nodes[0]], threaded through. *)
Variable child : board → score → score → Z * Z → nat → result (score * nat).
Variable b : board.

(** The [for col in valid_columns] loop of the maximizing layer. *)
Fixpoint max_layer (bot_id : player) (beta : score) (cols : list Z)
    (value alpha : score) (nodes : nat) : result (score * nat) :=
  match cols with
  | [] => Ok (value, nodes)
  | col :: rest =>
      row ← assert_some (find_drop_row b col);
      '(score, nodes) ← child (place_disc b row col bot_id) alpha beta (row, col) nodes;
      let value := py_max value score in
      let alpha := py_max alpha value in
      if score_leb beta alpha then Ok (value, nodes)
      else max_layer bot_id beta rest value alpha nodes
  end.

(** The [for opp in opponents] loop of the minimizing layer, for one
    column; it hands [value], [beta] and the counter back to the column
    loop. *)
Fixpoint min_opponents (alpha : score) (row col : Z) (opps : list player)
    (value beta : score) (nodes : nat) : result (score * score * nat) :=
  match opps with
  | [] => Ok (value, beta, nodes)
  | opp :: rest =>
      '(score, nodes) ← child (place_disc b row col opp) alpha beta (row, col) nodes;
      let value := if score_ltb score value then score else value in
      let beta := py_min beta value in
      if score_leb beta alpha then Ok (value, beta, nodes)
      else min_opponents alpha row col rest value beta nodes
  end.

(** The [for col in valid_columns] loop of the minimizing layer; the
    second [if beta <= alpha: break] follows the opponent loop. *)
Fixpoint min_layer (opponents : list player) (alpha : score)
    (cols : list Z) (value beta : score) (nodes : nat)
    : result (score * nat) :=
  match cols with
  | [] => Ok (value, nodes)
  | col :: rest =>
      row ← assert_some (find_drop_row b col);
      '(value, beta, nodes) ← min_opponents alpha row col opponents value beta nodes;
      if score_leb beta alpha then Ok (value, nodes)
      else min_layer opponents alpha rest value beta nodes
  end.
End layers.

Fixpoint minimax (fuel : nat) (b : board) (depth : Z) (maximizing : bool)
    (bot_id : player) (opponents : list player) (alpha beta : score)
    (last_move : option (Z * Z)) (nodes : nat) : result (score * nat) :=
  match fuel with
  | O => OutOfFuel
  | S fuel =>
      let nodes := S nodes in
      match terminal_score b bot_id depth last_move with
      | Some s => Ok (s, nodes)
      | None =>
          if (depth =? 0) || board_is_full b
          then Ok (Fin (evaluate_board b bot_id opponents), nodes)
          else
            let cols := valid_columns b in
            match cols with
            | [] => Ok (Fin (evaluate_board b bot_id opponents), nodes)
            | _ =>
                if maximizing
                then max_layer
                       (λ b' alpha beta move nodes,
                          minimax fuel b' (depth - 1) false bot_id opponents
                                  alpha beta (Some move) nodes)
                       b bot_id beta cols NegInf alpha nodes
                else min_layer
                       (λ b' alpha beta move nodes,
                          minimax fuel b' (depth - 1) true bot_id opponents
                                  alpha beta (Some move) nodes)
                       b opponents alpha cols PosInf beta nodes
            end
      end
  end.

(** [SearchResult] without [decision_ms], which is wall-clock time. *)
Record SearchResult := {
  column : Z;
  row : Z;
  score_of : score;
  depth_of : Z;
  nodes_of : nat;
}.

(** [opponents = list(opponent_ids) if opponent_ids else infer_opponents(...)]:
    [None] and the empty list are both false. *)
Definition resolve_opponents (set_order : list player → list player)
    (b : board) (bot_id : player) (opponent_ids : option (list player))
    : list player :=
  match opponent_ids with
  | Some (p :: l) => p :: l
  | _ => infer_opponents set_order b bot_id
  end.

Section root.
Variable child : board → Z * Z → nat → result (score * nat).
Variable b : board.
Variable bot_id : player.

(** The [for col in valid_columns] loop of [choose_best_move]. *)
Fixpoint root_loop (cols : list Z) (best_score : score)
    (best_move : option (Z * Z)) (nodes : nat)
    : result (score * option (Z * Z) * nat) :=
  match cols with
  | [] => Ok (best_score, best_move, nodes)
  | col :: rest =>
      drop_row ← assert_some (find_drop_row b col);
      '(score, nodes) ← child (place_disc b drop_row col bot_id) (drop_row, col) nodes;
      if score_ltb best_score score
      then root_loop rest score (Some (drop_row, col)) nodes
      else root_loop rest best_score best_move nodes
  end.
End root.

Definition no_moves_msg : string := "Board is full; no moves available.".
Definition no_best_msg : string :=
  "Failed to select a move despite available columns.".

Definition choose_best_move_fuel (fuel : nat)
    (set_order : list player → list player) (b : board) (bot_id : player)
    (opponent_ids : option (list player)) (depth : Z) : result SearchResult :=
  let nodes := O in
  let opponents := resolve_opponents set_order b bot_id opponent_ids in
  let cols := valid_columns b in
  match cols with
  | [] => Raise (ValueError no_moves_msg)
  | _ =>
      '(best_score, best_move, nodes) ←
        root_loop (λ b' move nodes,
                     minimax fuel b' (depth - 1) false bot_id opponents
                             NegInf PosInf (Some move) nodes)
                  b bot_id cols NegInf None nodes;
      match best_move with
      | None => Raise (RuntimeError no_best_msg)
      | Some (r, c) =>
          Ok {| column := c; row := r; score_of := best_score;
                depth_of := depth; nodes_of := nodes |}
      end
  end.

(** Every call of [minimax] places one disc more on the board, so the
    calls nest at most [ROWS * COLS + 1] deep. *)
Definition search_fuel : nat := S (Z.to_nat (ROWS * COLS)).

Definition choose_best_move := choose_best_move_fuel search_fuel.

(** ** The search without pruning

    The unpruned full search the specification compares [minimax] with:
    the same tree, the same terminal and leaf values, the maximum over
    all columns at a maximizing layer and the minimum over all columns
    and all opponents at a minimizing layer; no [alpha], no [beta], no
    [break]. *)

Section full_layers.
Variable child : board → Z * Z → nat → result (score * nat).
Variable b : board.

Fixpoint full_max_layer (bot_id : player) (cols : list Z) (value : score)
    (nodes : nat) : result (score * nat) :=
  match cols with
  | [] => Ok (value, nodes)
  | col :: rest =>
      row ← assert_some (find_drop_row b col);
      '(score, nodes) ← child (place_disc b row col bot_id) (row, col) nodes;
      full_max_layer bot_id rest (py_max value score) nodes
  end.

Fixpoint full_min_opponents (row col : Z) (opps : list player)
    (value : score) (nodes : nat) : result (score * nat) :=
  match opps with
  | [] => Ok (value, nodes)
  | opp :: rest =>
      '(score, nodes) ← child (place_disc b row col opp) (row, col) nodes;
      full_min_opponents row col rest (py_min value score) nodes
  end.

Fixpoint full_min_layer (opponents : list player) (cols : list Z)
    (value : score) (nodes : nat) : result (score * nat) :=
  match cols with
  | [] => Ok (value, nodes)
  | col :: rest =>
      row ← assert_some (find_drop_row b col);
      '(value, nodes) ← full_min_opponents row col opponents value nodes;
      full_min_layer opponents rest value nodes
  end.
End full_layers.

Fixpoint full_minimax (fuel : nat) (b : board) (depth : Z) (maximizing : bool)
    (bot_id : player) (opponents : list player)
    (last_move : option (Z * Z)) (nodes : nat) : result (score * nat) :=
  match fuel with
  | O => OutOfFuel
  | S fuel =>
      let nodes := S nodes in
      match terminal_score b bot_id depth last_move with
      | Some s => Ok (s, nodes)
      | None =>
          if (depth =? 0) || board_is_full b
          then Ok (Fin (evaluate_board b bot_id opponents), nodes)
          else
            let cols := valid_columns b in
            match cols with
            | [] => Ok (Fin (evaluate_board b bot_id opponents), nodes)
            | _ =>
                if maximizing
                then full_max_layer
                       (λ b' move nodes,
                          full_minimax fuel b' (depth - 1) false bot_id
                                       opponents (Some move) nodes)
                       b bot_id cols NegInf nodes
                else full_min_layer
                       (λ b' move nodes,
                          full_minimax fuel b' (depth - 1) true bot_id
                                       opponents (Some move) nodes)
                       b opponents cols PosInf nodes
            end
      end
  end.

(** [choose_best_move] over the unpruned search. *)
Definition full_search_fuel (fuel : nat)
    (set_order : list player → list player) (b : board) (bot_id : player)
    (opponent_ids : option (list player)) (depth : Z) : result SearchResult :=
  let opponents := resolve_opponents set_order b bot_id opponent_ids in
  let cols := valid_columns b in
  match cols with
  | [] => Raise (ValueError no_moves_msg)
  | _ =>
      '(best_score, best_move, nodes) ←
        root_loop (λ b' move nodes,
                     full_minimax fuel b' (depth - 1) false bot_id opponents
                                  (Some move) nodes)
                  b bot_id cols NegInf None O;
      match best_move with
      | None => Raise (RuntimeError no_best_msg)
      | Some (r, c) =>
          Ok {| column := c; row := r; score_of := best_score;
                depth_of := depth; nodes_of := nodes |}
      end
  end.

Definition full_search := full_search_fuel search_fuel.

(** ** [place_disc] on a store of list objects

    A Python board is a list object holding references to row objects,
    and [copy[row][col] = player] is an update in place.  The store maps
    locations to list objects, so that the input board, the copy and any
    sharing between them are explicit. *)

Module Heap.
Definition loc := positive.

Inductive obj :=
  | Cells (cells : list cell)   (* a row: a list of cells *)
  | Refs (rows : list loc).     (* a board: a list of references to rows *)

(** A new object at a location not in use. *)
Definition alloc (h : gmap loc obj) (o : obj) : gmap loc obj * loc :=
  let l := fresh (dom h) in (<[l := o]> h, l).

(** [[list(r) for r in board]]: every row object is copied into a new
    object; the result is the store and the new references. *)
Fixpoint copy_rows (h : gmap loc obj) (rows : list loc)
    : result (gmap loc obj * list loc) :=
  match rows with
  | [] => Ok (h, [])
  | r :: rest =>
      match h !! r with
      | Some (Cells cells) =>
          let '(h, l) := alloc h (Cells cells) in
          '(h, ls) ← copy_rows h rest;
          Ok (h, l :: ls)
      | _ => Raise TypeError
      end
  end.

(** [l[i] = x], with Python's index rules. *)
Definition py_store {A} (l : list A) (i : Z) (x : A) : result (list A) :=
  if (0 <=? i) && (i <? Z.of_nat (length l)) then Ok (<[Z.to_nat i := x]> l)
  else if (i <? 0) && (- Z.of_nat (length l) <=? i)
  then Ok (<[Z.to_nat (Z.of_nat (length l) + i) := x]> l)
  else Raise IndexError.

Definition place_disc (h : gmap loc obj) (bl : loc) (row col : Z)
    (p : player) : result (gmap loc obj * loc) :=
  match h !! bl with
  | Some (Refs rows) =>
      '(h, ls) ← copy_rows h rows;
      let '(h, copy) := alloc h (Refs ls) in
      match py_index ls row with
      | None => Raise IndexError
      | Some r =>
          match h !! r with
          | Some (Cells cells) =>
              cells ← py_store cells col (Some p);
              Ok (<[r := Cells cells]> h, copy)
          | _ => Raise TypeError
          end
      end
  | _ => Raise TypeError
  end.

(** The board value a reference denotes in a store. *)
Definition read_row (h : gmap loc obj) (r : loc) : option (list cell) :=
  match h !! r with Some (Cells cells) => Some cells | _ => None end.

Definition read_board (h : gmap loc obj) (bl : loc) : option board :=
  match h !! bl with
  | Some (Refs rows) => mapM (read_row h) rows
  | _ => None
  end.
End Heap.

(** ** [DiceTurn.py] *)

Module Dice.
Record TurnState := {
  last_player : option player;
  consecutive_count : Z;
  skip_next : option player;
}.

(** [TurnState()] *)
Definition initial : TurnState :=
  {| last_player := None; consecutive_count := 0; skip_next := None |}.

(** The dictionary [roll_next_turn] returns. *)
Record Roll := {
  chosen_player : player;
  roll_skip_next : option player;
  forced_skip : bool;
  next_roll_pool : list player;
}.

(** [[p for p in players if p != skip]] *)
Definition without (skip : option player) (players : list player)
    : list player :=
  List.filter (λ p, negb (bool_decide (Some p = skip))) players.

(** The pool of a roll: the players but the skipped one, or all of them
    when nobody is left. *)
Definition pool (players : list player) (state : TurnState) : list player :=
  match without (skip_next state) players with
  | [] => players
  | l => l
  end.

(** [rnd.choice(pool)]: the generator draws an index below [len(pool)];
    [draw] is the number it makes the index from.  On an empty pool
    [choice] raises [IndexError]. *)
Definition choice (draw : nat) (pool : list player) : result player :=
  match pool !! (draw `mod` length pool)%nat with
  | Some p => Ok p
  | None => Raise IndexError
  end.

(** Truth value of [state.skip_next]: [None] and the empty string are
    false. *)
Definition truthy (o : option player) : bool :=
  match o with
  | Some s => negb (bool_decide (s = ""%string))
  | None => false
  end.

Definition no_players_msg : string := "At least one player is required.".

(** [roll_next_turn]; the state is updated in place by the code and
    handed back here. *)
Definition roll_next_turn (players : list player) (state : TurnState)
    (draw : nat) : result (Roll * TurnState) :=
  match players with
  | [] => Raise (ValueError no_players_msg)
  | _ =>
      chosen ← choice draw (pool players state);
      let skip := None in
      let count :=
        if bool_decide (Some chosen = last_player state)
        then consecutive_count state + 1 else 1 in
      let last := Some chosen in
      let '(skip, count, forced) :=
        if 2 <=? count then (Some chosen, 0, true) else (skip, count, false) in
      let next_pool :=
        if truthy skip then without skip players else players in
      Ok ({| chosen_player := chosen; roll_skip_next := skip;
             forced_skip := forced; next_roll_pool := next_pool |},
          {| last_player := last; consecutive_count := count;
             skip_next := skip |})
  end.

(** The states a session goes through: [TurnState()] and then one
    [roll_next_turn] after the other, each with its own player list. *)
Inductive reachable : TurnState → Prop :=
  | reach_initial : reachable initial
  | reach_roll players state draw r state' :
      reachable state →
      roll_next_turn players state draw = Ok (r, state') →
      reachable state'.
End Dice.

(** ** Executable checks and sample positions *)

(** The gravity invariant as a check. *)
Definition gravity_check (b : board) : bool :=
  forallb (λ c,
    forallb (λ r, is_none (get b r c) || negb (is_none (get b (r + 1) c)))
            (py_range (ROWS - 1)))
    (py_range COLS).

Definition empty_board : board :=
  replicate (Z.to_nat ROWS) (replicate (Z.to_nat COLS) None).

(** A disc dropped into a column, as the session does it; a full column
    leaves the board as it is. *)
Definition drop (b : board) (move : Z * player) : board :=
  match find_drop_row b move.1 with
  | Some r => place_disc b r move.1 move.2
  | None => b
  end.

Definition play (moves : list (Z * player)) : board := foldl drop empty_board moves.

(** Three discs of P1 and two of the bot in column 3, one of P2 beside. *)
Definition sample_board : board :=
  play [(3, "P1"); (3, "BOT"); (4, "P2"); (3, "P1"); (3, "BOT"); (3, "P1")]%string.

(** ** Runs of discs, in the words of the specification *)

(** The cell is on the grid and holds a disc of [p]. *)
Definition owned (b : board) (p : player) (r c : Z) : Prop :=
  in_bounds r c = true ∧ get b r c = Some p.

(** The cells at offsets [lo .. hi] from [(row, col)] along [(dr, dc)]
    form a contiguous run of discs of [p] that passes through
    [(row, col)]. *)
Definition run_through (b : board) (p : player) (row col dr dc lo hi : Z) : Prop :=
  lo ≤ 0 ≤ hi ∧
  ∀ k, lo ≤ k ≤ hi → owned b p (row + k * dr) (col + k * dc).

(** A direction that moves by at most one row and one column, and does
    move; the directions of [check_win] are such. *)
Definition unit_step (dr dc : Z) : Prop :=
  -1 ≤ dr ≤ 1 ∧ -1 ≤ dc ≤ 1 ∧ (dr ≠ 0 ∨ dc ≠ 0).

(** ** The evaluation, in the words of the specification *)

(** The score of a window from its numbers of bot discs, opponent discs
    and empty cells: contested windows first, then full windows, then
    the table. *)
Definition spec_window_score (bots opps empties : Z) : Q :=
  if (0 <? bots) && (0 <? opps) then 0%Q
  else if bots =? 4 then 10000%Q
  else if opps =? 4 then (- 10000)%Q
  else if (bots =? 3) && (empties =? 1) then 50%Q
  else if (bots =? 2) && (empties =? 2) then 10%Q
  else if (bots =? 1) && (empties =? 3) then 2%Q
  else if (opps =? 3) && (empties =? 1) then (- 60)%Q
  else if (opps =? 2) && (empties =? 2) then (- 8)%Q
  else 0%Q.

(** A window: its first cell and its direction. *)
Definition window_cells (b : board) (w : Z * Z * (Z * Z)) : list cell :=
  window_at b w.1.1 w.1.2 w.2.1 w.2.2.

(** All first cells and directions, in the order of the loops of
    [evaluate_board]. *)
Definition window_starts : list (Z * Z * (Z * Z)) :=
  row ← py_range ROWS; col ← py_range COLS; d ← directions; [(row, col, d)].

(** Every run of [CONNECT_N] consecutive cells on the grid: the windows
    whose cells are all on the grid. *)
Definition on_grid (w : Z * Z * (Z * Z)) : bool :=
  forallb (λ k, in_bounds (w.1.1 + k * w.2.1) (w.1.2 + k * w.2.2))
          (py_range CONNECT_N).

Definition grid_windows : list (Z * Z * (Z * Z)) :=
  List.filter on_grid window_starts.

Definition Qsum (l : list Q) : Q := foldr Qplus 0%Q l.

(** The number of discs of [p] in the middle column. *)
Definition center_discs (b : board) (p : player) : Z :=
  count_if (λ r, cell_is (get b r (COLS `div` 2)) p) (py_range ROWS).

(** The non-empty cells of the board use exactly the identifiers [pa]
    and [pb]. *)
Definition uses_exactly (b : board) (pa pb : player) : Prop :=
  pa ≠ pb ∧ Some pa ∈ concat b ∧ Some pb ∈ concat b ∧
  Forall (λ c, c = None ∨ c = Some pa ∨ c = Some pb) (concat b).

(** What a window adds to [evaluate_board(b, A, [B]) + evaluate_board(b, B, [A])]:
    the difference of the two sides' weights, for a window that only one
    of the two players has discs in ([discs] of them in all). *)
Definition weight_gap (discs_a discs_b empties : Z) : Q :=
  if (0 <? discs_a) && (0 <? discs_b) then 0%Q
  else
    let discs := discs_a + discs_b in
    if discs =? 4 then 0%Q
    else if (discs =? 3) && (empties =? 1) then (50 - 60)%Q
    else if (discs =? 2) && (empties =? 2) then (10 - 8)%Q
    else if (discs =? 1) && (empties =? 3) then 2%Q
    else 0%Q.

(** One disc of A in a corner and one of B in the other. *)
Definition corners_board : board := play [(0, "A"); (9, "B")]%string.


(** One step of the loops of [evaluate_board], on a window given by its
    first cell and direction. *)
Definition add_window (b : board) (bot_id : player) (opponents : list player)
    (score : Q) (w : Z * Z * (Z * Z)) : Q :=
  if negb (in_bounds (w.1.1 + (CONNECT_N - 1) * w.2.1)
                     (w.1.2 + (CONNECT_N - 1) * w.2.2))
  then score
  else (score + score_window (window_cells b w) bot_id opponents)%Q.

(** The test of [evaluate_board] on a window: its last cell is on the
    grid. *)
Definition last_on_grid (w : Z * Z * (Z * Z)) : bool :=
  in_bounds (w.1.1 + (CONNECT_N - 1) * w.2.1) (w.1.2 + (CONNECT_N - 1) * w.2.2).


(** A store with the empty board built as Python's [[[None] * 10] * 10]:
    ten references to one row object. *)
Definition shared_rows_store : gmap Heap.loc Heap.obj :=
  <[2%positive := Heap.Refs (replicate 10 1%positive)]>
    (<[1%positive := Heap.Cells (replicate 10 None)]> ∅).

(** The list names at least two players. *)
Definition two_players (players : list player) : Prop :=
  ∃ p q, p ∈ players ∧ q ∈ players ∧ p ≠ q.

(** The players of the backend. *)
Definition PLAYERS : list player := ["P1"; "P2"; "BOT"]%string.

(** ** Order on scores, as propositions *)

Definition score_lt (a b : score) : Prop :=
  match a, b with
  | NegInf, NegInf => False
  | NegInf, _ => True
  | Fin p, Fin q => (p < q)%Q
  | Fin _, PosInf => True
  | _, _ => False
  end.

Definition score_le (a b : score) : Prop := ¬ score_lt b a.

(** The result [r] of a search with the window [(alpha, beta)] stands
    for the value [v]: both are at most [alpha], or both are at least
    [beta], or they are equal. *)
Definition agree (alpha beta r v : score) : Prop :=
  (score_le r alpha ∧ score_le v alpha) ∨
  (score_le beta r ∧ score_le beta v) ∨
  score_eq r v.

(** The number of empty cells of a board. *)
Definition free_cells (b : board) : nat :=
  length (List.filter is_none (concat b)).

(** ** The value of a move, for the statement of [choose_best_move] *)

(** The score [choose_best_move] computes for the column [c]: the result
    of [minimax] on the board with the bot's disc dropped into [c]. *)
Definition child_value (set_order : list player → list player) (b : board)
    (bot_id : player) (opponent_ids : option (list player)) (depth : Z)
    (c : Z) : option score :=
  match find_drop_row b c with
  | Some drop_row =>
      match minimax search_fuel (place_disc b drop_row c bot_id) (depth - 1)
                    false bot_id
                    (resolve_opponents set_order b bot_id opponent_ids)
                    NegInf PosInf (Some (drop_row, c)) O with
      | Ok (s, _) => Some s
      | _ => None
      end
  | None => None
  end.

(** The state of the loop of [choose_best_move] after the columns [seen]:
    [best_move] is the first of them whose value is the maximum. *)
Definition first_max (b : board) (value : Z → score) (seen : list Z)
    (best_score : score) (best_move : option (Z * Z)) : Prop :=
  match best_move with
  | None => best_score = NegInf ∧ seen = []
  | Some (r, c) =>
      find_drop_row b c = Some r ∧ score_eq best_score (value c) ∧
      ∃ before after,
        seen = before ++ c :: after ∧
        Forall (λ c', score_lt (value c') best_score) before ∧
        Forall (λ c', score_le (value c') best_score) after
  end.

(** Three bot discs in column 3, the fourth ready to be dropped. *)
Definition win_board : board :=
  play [(3, "BOT"); (4, "P1"); (3, "BOT"); (4, "P2"); (3, "BOT"); (5, "P1")]%string.

(** Column, row and node count of a result, and its score in lowest
    terms. *)
Definition summary (r : result SearchResult) : option (Z * Z * Q * nat) :=
  match r with
  | Ok res =>
      match score_of res with
      | Fin q => Some (column res, row res, Qred q, nodes_of res)
      | _ => None
      end
  | _ => None
  end.

(** ** More sample positions *)

(** A board without an empty cell. *)
Definition full_board : board :=
  replicate (Z.to_nat ROWS) (replicate (Z.to_nat COLS) (Some "P1"%string)).

(** A grid that no game reaches: one disc in the top cell of column 3
    and nothing below it. *)
Definition floating_board : board := place_disc empty_board 0 3 "P1".

(** [win_board] with the fourth bot disc on column 3. *)
Definition won_board : board := place_disc win_board 6 3 "BOT".

(** Boards with discs of one side only. *)
Definition bot_only_board : board := play [(3, "BOT"); (4, "BOT"); (3, "BOT")]%string.
Definition opponents_only_board : board := play [(3, "P1"); (3, "P2"); (5, "P1")]%string.

(** A finite number, neither [math.inf] nor [-math.inf]. *)
Definition is_finite (s : score) : Prop :=
  match s with Fin _ => True | _ => False end.

(** The three shapes of a turn state. *)
Definition turn_shape (state : Dice.TurnState) : Prop :=
  state = Dice.initial ∨
  ∃ p, Dice.last_player state = Some p ∧
       ((Dice.skip_next state = Some p ∧ Dice.consecutive_count state = 0) ∨
        (Dice.skip_next state = None ∧ Dice.consecutive_count state = 1)).

(** ** [Backend/main.py]: the session and its routes

    The process-wide dictionary [state] is a record handed from call to
    call; a route returns its response and the state it leaves, or
    fails without a change of the state (every [raise] of the routes
    comes before their first assignment).  The request models of
    pydantic are records, and what those models accept is stated by the
    [valid_...] predicates; the validator that [DiceRequest] declares
    itself, [ensure_non_empty], is a function that its route runs
    first. *)

Module Backend.

(** The dictionary [{"player": ..., "row": ..., "col": ...}] of a move. *)
Record Move := {
  move_player : player;
  move_row : Z;
  move_col : Z;
}.

Record State := {
  state_board : board;
  winner : option player;
  last_move : option Move;
  history : list Move;
  turn_state : Dice.TurnState;
}.

Definition _new_board : board :=
  (λ _, (λ _, None) <$> py_range COLS) <$> py_range ROWS.

(** The dictionary [state] at start-up, and after [reset]. *)
Definition initial : State :=
  {| state_board := _new_board; winner := None; last_move := None;
     history := []; turn_state := Dice.initial |}.

(** What a route does: it returns, it raises [HTTPException], another
    exception leaves it, the search runs out of fuel, or the request
    model refuses the body before the route runs (the validation error
    that FastAPI answers with status 422). *)
Inductive reply (A : Type) :=
  | Success (a : A)
  | HTTPException (status_code : Z) (detail : string)
  | Uncaught (e : exn)
  | NoFuel
  | RequestValidationError (msg : string).
Arguments Success {A} a.
Arguments HTTPException {A} status_code detail.
Arguments Uncaught {A} e.
Arguments NoFuel {A}.
Arguments RequestValidationError {A} msg.

Global Instance reply_bind : MBind reply := λ A B f m,
  match m with
  | Success a => f a
  | HTTPException s d => HTTPException s d
  | Uncaught e => Uncaught e
  | NoFuel => NoFuel
  | RequestValidationError msg => RequestValidationError msg
  end.

(** [f"Game over. Winner: {state['winner']}"]; the test [if state["winner"]]
    is false for [None] and for the empty string. *)
Definition game_over (w : option player) : option string :=
  if Dice.truthy w then Some ("Game over. Winner: " +:+ default "" w) else None.

Definition column_full_msg : string := "Column is full.".
Definition invalid_player_msg : string := "Invalid human player id.".

Definition _apply_move (player_id : player) (column : Z) (state : State)
    : reply (Z * Z * State) :=
  match game_over (winner state) with
  | Some detail => HTTPException 400 detail
  | None =>
      match find_drop_row (state_board state) column with
      | None => HTTPException 400 column_full_msg
      | Some drop_row =>
          (* state["board"][drop_row][column] = player_id, in place *)
          let board := place_disc (state_board state) drop_row column player_id in
          let move := {| move_player := player_id; move_row := drop_row;
                         move_col := column |} in
          let history := history state ++ [move] in
          let winner :=
            if check_win board drop_row column CONNECT_N
            then Some player_id else winner state in
          Success (drop_row, column,
                   {| state_board := board; winner := winner;
                      last_move := Some move; history := history;
                      turn_state := turn_state state |})
      end
  end.

(** [l[-n:]] *)
Definition last_n {A} (n : nat) (l : list A) : list A :=
  skipn (length l - n) l.

Record BotStats := {
  stats_score : score;
  stats_depth : Z;
  stats_nodes : nat;
}.

Record MoveResponse := {
  resp_row : Z;
  resp_column : Z;
  resp_board : board;
  resp_winner : option player;
  resp_history : list Move;
  bot_stats : option BotStats;
}.

Record HumanMoveRequest := { player_id : player; req_column : Z }.

(** [player_id: Literal["P1", "P2"]] and [column: int = Field(..., ge=0, lt=COLS)] *)
Definition valid_human (body : HumanMoveRequest) : Prop :=
  player_id body ∈ ["P1"; "P2"]%string ∧ 0 ≤ req_column body < COLS.

Definition human_move (body : HumanMoveRequest) (state : State)
    : reply (MoveResponse * State) :=
  if negb (bool_decide (player_id body ∈ PLAYERS))
     || bool_decide (player_id body = "BOT"%string)
  then HTTPException 400 invalid_player_msg
  else
    '(row, col, state) ← _apply_move (player_id body) (req_column body) state;
    Success ({| resp_row := row; resp_column := col;
                resp_board := state_board state; resp_winner := winner state;
                resp_history := last_n 50 (history state); bot_stats := None |},
             state).

(** [depth: int = Field(default=None, ge=1, le=8)] *)
Definition valid_bot (depth : option Z) : Prop :=
  match depth with Some d => 1 ≤ d ≤ 8 | None => True end.

(** [body.depth or MAX_DEPTH] *)
Definition depth_or_default (depth : option Z) : Z :=
  match depth with
  | Some d => if d =? 0 then MAX_DEPTH else d
  | None => MAX_DEPTH
  end.

Definition bot_move (set_order : list player → list player)
    (body_depth : option Z) (state : State) : reply (MoveResponse * State) :=
  match game_over (winner state) with
  | Some detail => HTTPException 400 detail
  | None =>
      let depth := depth_or_default body_depth in
      match choose_best_move set_order (state_board state) "BOT" None depth with
      | Raise (ValueError msg) => HTTPException 400 msg
      | Raise e => Uncaught e
      | OutOfFuel => NoFuel
      | Ok result =>
          '(applied_row, applied_col, state) ← _apply_move "BOT" (column result) state;
          Success ({| resp_row := applied_row; resp_column := applied_col;
                      resp_board := state_board state;
                      resp_winner := winner state;
                      resp_history := last_n 50 (history state);
                      bot_stats := Some {| stats_score := score_of result;
                                           stats_depth := depth_of result;
                                           stats_nodes := nodes_of result |} |},
                   state)
      end
  end.

Definition players_empty_msg : string := "players cannot be empty".

(** [DiceRequest.ensure_non_empty], the validator of the field
    [players]: a list that is given must not be empty. *)
Definition ensure_non_empty (v : option (list player))
    : result (option (list player)) :=
  match v with
  | Some [] => Raise (ValueError players_empty_msg)
  | _ => Ok v
  end.

(** [players = body.players or PLAYERS] *)
Definition players_or_default (players : option (list player)) : list player :=
  match players with
  | Some (p :: l) => p :: l
  | _ => PLAYERS
  end.

(** The route [/dice/roll]: the body goes through the model
    [DiceRequest] first, and the handler runs on what the validator
    returns. *)
Definition roll_dice (body_players : option (list player)) (state : State)
    (draw : nat) : reply (Dice.Roll * State) :=
  match ensure_non_empty body_players with
  | Ok players =>
      match Dice.roll_next_turn (players_or_default players)
                                (turn_state state) draw with
      | Ok (result, ts) =>
          Success (result,
                   {| state_board := state_board state; winner := winner state;
                      last_move := last_move state; history := history state;
                      turn_state := ts |})
      | Raise e => Uncaught e
      | OutOfFuel => NoFuel
      end
  | Raise (ValueError msg) => RequestValidationError msg
  | Raise e => Uncaught e
  | OutOfFuel => NoFuel
  end.

Definition reset (state : State) : State := initial.

Record StateResponse := {
  shown_board : board;
  shown_winner : option player;
  shown_last_move : option Move;
  shown_history : list Move;
}.

Definition get_state (state : State) : StateResponse :=
  {| shown_board := state_board state; shown_winner := winner state;
     shown_last_move := last_move state;
     shown_history := last_n 50 (history state) |}.

(** The states of a session: the start, and what the routes leave when
    they return on requests the models accept. *)
Inductive reachable : State → Prop :=
  | reach_initial : reachable initial
  | reach_human body state r state' :
      reachable state → valid_human body →
      human_move body state = Success (r, state') → reachable state'
  | reach_bot set_order depth state r state' :
      reachable state → valid_bot depth →
      bot_move set_order depth state = Success (r, state') → reachable state'
  | reach_dice players state draw r state' :
      reachable state →
      roll_dice players state draw = Success (r, state') → reachable state'
  | reach_reset state : reachable state → reachable (reset state).

(** The cell of every move of the list holds the player of the move. *)
Definition moves_on_board (b : board) (moves : list Move) : Prop :=
  Forall (λ m, in_bounds (move_row m) (move_col m) = true ∧
               get b (move_row m) (move_col m) = Some (move_player m)) moves.

(** The winner, when there is one, made the last move and that move
    completes a line. *)
Definition winner_ok (state : State) : Prop :=
  match winner state with
  | None => True
  | Some w =>
      w ∈ PLAYERS ∧
      ∃ m, last_move state = Some m ∧ move_player m = w ∧
           check_win (state_board state) (move_row m) (move_col m) CONNECT_N = true
  end.

(** The invariant of the session. *)
Definition session_ok (state : State) : Prop :=
  wf_board (state_board state) ∧ gravity (state_board state) ∧
  moves_on_board (state_board state) (history state) ∧
  (free_cells (state_board state) + length (history state) = 100)%nat ∧
  last_move state = last (history state) ∧
  winner_ok state.

(** The state a call leaves: the new state when it returns, the old one
    when it fails. *)
Definition state_after {A} (state : State) (r : reply (A * State)) : State :=
  match r with Success (_, s) => s | _ => state end.

(** The session after the human moves of the list. *)
Definition play_humans (moves : list (player * Z)) : State :=
  foldl (λ state '(p, c),
           state_after state (human_move {| player_id := p; req_column := c |} state))
        initial moves.

(** P1 has dropped one disc. *)
Definition sample_state : State := play_humans [("P1", 3)]%string.

(** P1 has completed column 0. *)
Definition won_state : State :=
  play_humans [("P1", 0); ("P2", 1); ("P1", 0); ("P2", 1); ("P1", 0); ("P2", 1);
               ("P1", 0)]%string.
End Backend.

(** * Properties *)

(** ** Ranges and reads *)

Lemma elem_of_py_range n x : x ∈ py_range n ↔ 0 ≤ x < n.
Proof.
  unfold py_range. rewrite list_elem_of_fmap. split.
  - intros (i & -> & Hi). apply elem_of_seq in Hi. lia.
  - intros Hx. exists (Z.to_nat x). split; [lia|]. apply elem_of_seq. lia.
Qed.

Lemma py_range_succ (k : nat) :
  py_range (Z.of_nat (S k)) = py_range (Z.of_nat k) ++ [Z.of_nat k].
Proof.
  unfold py_range. rewrite !Nat2Z.id, seq_S, fmap_app. reflexivity.
Qed.

Lemma py_range_down_succ (k : nat) :
  reverse (py_range (Z.of_nat (S k))) = Z.of_nat k :: reverse (py_range (Z.of_nat k)).
Proof. rewrite py_range_succ, reverse_app. reflexivity. Qed.

Lemma is_none_true (c : cell) : is_none c = true ↔ c = None.
Proof. destruct c; simpl; split; congruence. Qed.

Lemma is_none_false (c : cell) : is_none c = false ↔ c ≠ None.
Proof. destruct c; simpl; split; congruence. Qed.

Lemma cell_is_true (c : cell) p : cell_is c p = true ↔ c = Some p.
Proof.
  destruct c as [q|]; simpl; [|split; congruence].
  rewrite bool_decide_eq_true. split; congruence.
Qed.

Lemma in_bounds_true r c : in_bounds r c = true ↔ 0 ≤ r < ROWS ∧ 0 ≤ c < COLS.
Proof. unfold in_bounds. rewrite !andb_true_iff. lia. Qed.

Lemma in_bounds_false r c :
  in_bounds r c = false ↔ ¬ (0 ≤ r < ROWS ∧ 0 ≤ c < COLS).
Proof. rewrite <- in_bounds_true. destruct (in_bounds r c); split; congruence. Qed.

(** On a board of the data model, a read inside the grid is a read of
    the Python lists that raises nothing. *)
Lemma cell_at_in_bounds b r c :
  wf_board b → in_bounds r c = true → cell_at b r c = Some (get b r c).
Proof.
  intros [Hlen Hrows] [Hr Hc]%in_bounds_true.
  unfold cell_at, get, py_index.
  destruct (Z.leb_spec 0 r); [|lia].
  destruct (lookup_lt_is_Some_2 b (Z.to_nat r)) as [row Hrow]; [unfold ROWS in *; lia|].
  rewrite Hrow. cbn.
  destruct (Z.leb_spec 0 c); [|lia].
  assert (length row = Z.to_nat COLS) as Hl.
  { eapply Forall_lookup_1 in Hrows; eauto. }
  destruct (lookup_lt_is_Some_2 row (Z.to_nat c)) as [x Hx]; [unfold COLS in *; lia|].
  rewrite Hx. reflexivity.
Qed.

(** ** [find_drop_row] *)

Lemma find_drop_row_from_down b c (k : nat) :
  match find_drop_row_from b c (reverse (py_range (Z.of_nat k))) with
  | Some r =>
      0 ≤ r < Z.of_nat k ∧ get b r c = None ∧
      ∀ r', r < r' < Z.of_nat k → get b r' c ≠ None
  | None => ∀ r', 0 ≤ r' < Z.of_nat k → get b r' c ≠ None
  end.
Proof.
  induction k as [|k IH].
  - simpl. intros r' ?. lia.
  - rewrite py_range_down_succ. simpl.
    destruct (is_none (get b (Z.of_nat k) c)) eqn:Hk.
    + apply is_none_true in Hk. split; [lia|]. split; [done|]. intros r' ?. lia.
    + apply is_none_false in Hk.
      destruct (find_drop_row_from b c (reverse (py_range (Z.of_nat k)))) as [r|].
      * destruct IH as (Hr & He & Hab). split; [lia|]. split; [done|].
        intros r' Hr'. destruct (decide (r' = Z.of_nat k)) as [->|]; [done|].
        apply Hab. lia.
      * intros r' Hr'. destruct (decide (r' = Z.of_nat k)) as [->|]; [done|].
        apply IH. lia.
Qed.

(** What [find_drop_row] returns, on any grid: the highest-numbered empty
    row of the column, and [None] when the column has no empty cell. *)
Lemma find_drop_row_cases b c :
  match find_drop_row b c with
  | Some r =>
      0 ≤ r < ROWS ∧ get b r c = None ∧ ∀ r', r < r' < ROWS → get b r' c ≠ None
  | None => ∀ r', 0 ≤ r' < ROWS → get b r' c ≠ None
  end.
Proof. exact (find_drop_row_from_down b c 10). Qed.

Lemma find_drop_row_Some b c r :
  find_drop_row b c = Some r ↔
  0 ≤ r < ROWS ∧ get b r c = None ∧ ∀ r', r < r' < ROWS → get b r' c ≠ None.
Proof.
  pose proof (find_drop_row_cases b c) as H.
  destruct (find_drop_row b c) as [r0|].
  - destruct H as (Hr & He & Hab). split.
    + intros [= <-]. done.
    + intros (Hr' & He' & Hab'). f_equal.
      destruct (Z.lt_trichotomy r0 r) as [Hlt|[->|Hlt]]; [|done|].
      * exfalso. apply (Hab r); [lia|done].
      * exfalso. apply (Hab' r0); [lia|done].
  - split; [done|]. intros (Hr & He & _). exfalso. by apply (H r).
Qed.

Lemma find_drop_row_None b c :
  find_drop_row b c = None ↔ ∀ r, 0 ≤ r < ROWS → get b r c ≠ None.
Proof.
  pose proof (find_drop_row_cases b c) as H.
  destruct (find_drop_row b c) as [r0|]; [|done].
  destruct H as (Hr & He & _). split; [done|]. intros Hall. exfalso. by apply (Hall r0).
Qed.

(** Under gravity a column whose top cell holds a disc has no empty cell. *)
Lemma gravity_column_full b c :
  gravity b → 0 ≤ c < COLS → get b 0 c ≠ None →
  ∀ r, 0 ≤ r < ROWS → get b r c ≠ None.
Proof.
  intros Hg Hc Htop r [Hr0 Hr].
  revert Hr. pattern r. apply natlike_ind; [done| |done].
  intros x Hx IH Hlt. replace (Z.succ x) with (x + 1) by lia.
  apply Hg; [lia..|]. apply IH. lia.
Qed.

(** C3, as amended. For every 10x10 board and every column in [0, 10):
    [find_drop_row] returns row [r] exactly when [r] is the
    highest-numbered empty row of the column, and it returns none exactly
    when no cell of the column is empty; a result of none implies that
    the topmost cell of the column is occupied, and on a board that
    satisfies the gravity invariant the converse holds too, so that
    there none is returned exactly when the topmost cell is occupied. *)
Theorem find_drop_row_spec b c :
  wf_board b → 0 ≤ c < COLS →
  (∀ r, find_drop_row b c = Some r ↔
        0 ≤ r < ROWS ∧ get b r c = None ∧
        ∀ r', r < r' < ROWS → get b r' c ≠ None) ∧
  (find_drop_row b c = None ↔ ∀ r, 0 ≤ r < ROWS → get b r c ≠ None) ∧
  (find_drop_row b c = None → get b 0 c ≠ None) ∧
  (gravity b → (find_drop_row b c = None ↔ get b 0 c ≠ None)).
Proof.
  intros _ Hc. split; [|split; [|split]].
  - intros r. apply find_drop_row_Some.
  - apply find_drop_row_None.
  - rewrite find_drop_row_None. intros Hall. apply Hall. unfold ROWS. lia.
  - intros Hg. rewrite find_drop_row_None. split.
    + intros Hall. apply Hall. unfold ROWS. lia.
    + intros Htop. by apply gravity_column_full.
Qed.

Lemma gravity_check_sound b : gravity_check b = true → gravity b.
Proof.
  unfold gravity_check. rewrite forallb_forall. intros H r c Hr0 Hr Hc Hne.
  specialize (H c). rewrite forallb_forall in H.
  assert (In c (py_range COLS)) as Hin.
  { apply list_elem_of_In, elem_of_py_range. lia. }
  assert (In r (py_range (ROWS - 1))) as Hin'.
  { apply list_elem_of_In, elem_of_py_range. lia. }
  specialize (H Hin r Hin'). apply orb_true_iff in H as [H|H].
  - apply is_none_true in H. done.
  - apply negb_true_iff, is_none_false in H. done.
Qed.

Lemma find_drop_row_spec_witness :
  (∀ r, find_drop_row floating_board 3 = Some r ↔
        0 ≤ r < ROWS ∧ get floating_board r 3 = None ∧
        ∀ r', r < r' < ROWS → get floating_board r' 3 ≠ None) ∧
  (find_drop_row floating_board 3 = None ↔
   ∀ r, 0 ≤ r < ROWS → get floating_board r 3 ≠ None) ∧
  (find_drop_row floating_board 3 = None → get floating_board 0 3 ≠ None) ∧
  (gravity floating_board →
   (find_drop_row floating_board 3 = None ↔ get floating_board 0 3 ≠ None)) ∧
  gravity sample_board ∧
  (find_drop_row sample_board 3 = None ↔ get sample_board 0 3 ≠ None).
Proof.
  assert (gravity sample_board) as Hg.
  { apply gravity_check_sound. vm_compute. reflexivity. }
  assert (∀ P Q R S T U : Prop, P ∧ Q ∧ R ∧ S → T → U → P ∧ Q ∧ R ∧ S ∧ T ∧ U)
    as Hand by tauto.
  apply Hand.
  - apply (find_drop_row_spec floating_board 3).
    + vm_compute. split; [reflexivity|]. repeat constructor.
    + unfold COLS. lia.
  - exact Hg.
  - apply (find_drop_row_spec sample_board 3); [|unfold COLS; lia|exact Hg].
    vm_compute. split; [reflexivity|]. repeat constructor.
Defined.

(** C3, as the specification states it, fails on a grid with a floating
    disc: the top cell of column 3 is occupied, and [find_drop_row]
    returns row 9, not none. *)
Lemma find_drop_row_floating_disc :
  wf_board floating_board ∧ 0 ≤ 3 < COLS ∧
  get floating_board 0 3 ≠ None ∧
  find_drop_row floating_board 3 = Some 9 ∧
  ¬ (find_drop_row floating_board 3 = None ↔ get floating_board 0 3 ≠ None).
Proof.
  assert (get floating_board 0 3 ≠ None) as Htop by (vm_compute; discriminate).
  assert (find_drop_row floating_board 3 = Some 9) as Hdrop by (vm_compute; reflexivity).
  split; [|split; [|split; [|split]]].
  - vm_compute. split; [reflexivity|]. repeat constructor.
  - unfold COLS. lia.
  - exact Htop.
  - exact Hdrop.
  - intros [_ Hnone]. specialize (Hnone Htop). rewrite Hdrop in Hnone. discriminate.
Qed.

(** ** [check_win] *)

Section runs.
Context (b : board) (p : player) (dr dc : Z).

(** A loop of [check_win] adds to [count] the number [n] of owned cells
    it walks over; it stops on a cell that is not owned, or on its
    fuel. *)
Lemma extend_run_spec fuel count r c :
  ∃ n, 0 ≤ n ≤ Z.of_nat fuel ∧
       extend_run fuel b p dr dc count r c = count + n ∧
       (∀ k, 0 ≤ k < n → owned b p (r + k * dr) (c + k * dc)) ∧
       (n < Z.of_nat fuel → ¬ owned b p (r + n * dr) (c + n * dc)).
Proof.
  revert count r c. induction fuel as [|fuel IH]; intros count r c.
  - exists 0. simpl. split; [lia|]. split; [lia|]. split; intros; lia.
  - simpl. destruct (in_bounds r c && cell_is (get b r c) p) eqn:Hc.
    + destruct (IH (count + 1) (r + dr) (c + dc)) as (n & Hn & -> & Hown & Hstop).
      exists (n + 1). split; [lia|]. split; [lia|]. split.
      * intros k Hk. destruct (decide (k = 0)) as [->|].
        -- replace (r + 0 * dr) with r by lia. replace (c + 0 * dc) with c by lia.
           apply andb_true_iff in Hc as [? ?%cell_is_true]. done.
        -- replace (r + k * dr) with (r + dr + (k - 1) * dr) by lia.
           replace (c + k * dc) with (c + dc + (k - 1) * dc) by lia.
           apply Hown. lia.
      * intros Hlt.
        replace (r + (n + 1) * dr) with (r + dr + n * dr) by lia.
        replace (c + (n + 1) * dc) with (c + dc + n * dc) by lia.
        apply Hstop. lia.
    + exists 0. split; [lia|]. split; [lia|]. split; [intros; lia|].
      intros _ [Hin Hget]. replace (r + 0 * dr) with r in * by lia.
      replace (c + 0 * dc) with c in * by lia.
      rewrite Hin in Hc. apply cell_is_true in Hget. rewrite Hget in Hc. done.
Qed.
End runs.

Lemma directions_unit_step dr dc : (dr, dc) ∈ directions → unit_step dr dc.
Proof.
  unfold directions. rewrite !elem_of_cons, elem_of_nil.
  intros [H|[H|[H|[H|[]]]]]; injection H as -> ->; unfold unit_step; lia.
Qed.

Lemma unit_step_opp dr dc : unit_step dr dc → unit_step (- dr) (- dc).
Proof. unfold unit_step. lia. Qed.

(** Walking from a neighbour of a cell of the grid, away from the cell,
    a loop of [check_win] stops on a cell that is not owned before its
    fuel is used up: the result is the length of the run. *)
Lemma extend_run_exact b p dr dc count row col :
  unit_step dr dc → in_bounds row col = true →
  ∃ n, 0 ≤ n < Z.of_nat run_fuel ∧
       extend_run run_fuel b p dr dc count (row + dr) (col + dc) = count + n ∧
       (∀ k, 1 ≤ k ≤ n → owned b p (row + k * dr) (col + k * dc)) ∧
       ¬ owned b p (row + (n + 1) * dr) (col + (n + 1) * dc).
Proof.
  intros Hstep [Hr Hc]%in_bounds_true.
  destruct (extend_run_spec b p dr dc run_fuel count (row + dr) (col + dc))
    as (n & Hn & Heq & Hown & Hstop).
  assert (∀ k, 1 ≤ k ≤ n → owned b p (row + k * dr) (col + k * dc)) as Hown'.
  { intros k Hk. specialize (Hown (k - 1)).
    replace (row + dr + (k - 1) * dr) with (row + k * dr) in Hown by lia.
    replace (col + dc + (k - 1) * dc) with (col + k * dc) in Hown by lia.
    apply Hown. lia. }
  assert (n < Z.of_nat run_fuel) as Hlt.
  { change (Z.of_nat run_fuel) with 10 in *.
    destruct (decide (n < 10)) as [|Hge]; [done|]. exfalso.
    destruct (Hown' 10) as [[Hr' Hc']%in_bounds_true _]; [lia|].
    unfold unit_step, ROWS, COLS in *. lia. }
  exists n. split; [lia|]. split; [done|]. split; [done|].
  specialize (Hstop Hlt).
  replace (row + dr + n * dr) with (row + (n + 1) * dr) in Hstop by lia.
  replace (col + dc + n * dc) with (col + (n + 1) * dc) in Hstop by lia.
  done.
Qed.

(** More fuel changes nothing. *)
Lemma extend_run_fuel b p dr dc count row col fuel :
  unit_step dr dc → in_bounds row col = true → (run_fuel ≤ fuel)%nat →
  extend_run fuel b p dr dc count (row + dr) (col + dc) =
  extend_run run_fuel b p dr dc count (row + dr) (col + dc).
Proof.
  intros Hstep Hin Hfuel.
  destruct (extend_run_exact b p dr dc count row col Hstep Hin)
    as (n & Hn & -> & Hown & Hstop).
  destruct (extend_run_spec b p dr dc fuel count (row + dr) (col + dc))
    as (m & Hm & -> & Hown' & Hstop').
  f_equal. destruct (Z.lt_trichotomy m n) as [Hlt|[->|Hlt]]; [|done|].
  - exfalso. apply Hstop'; [lia|].
    replace (row + dr + m * dr) with (row + (m + 1) * dr) by lia.
    replace (col + dc + m * dc) with (col + (m + 1) * dc) by lia.
    apply Hown. lia.
  - exfalso. apply Hstop. specialize (Hown' n).
    replace (row + dr + n * dr) with (row + (n + 1) * dr) in Hown' by lia.
    replace (col + dc + n * dc) with (col + (n + 1) * dc) in Hown' by lia.
    apply Hown'. lia.
Qed.

(** [line_count] is the length of the longest run through the cell. *)
Lemma line_count_spec b p row col dr dc :
  unit_step dr dc → owned b p row col →
  ∃ nf nb, 0 ≤ nf ∧ 0 ≤ nb ∧
    line_count b p row col dr dc = 1 + nf + nb ∧
    run_through b p row col dr dc (- nb) nf ∧
    ¬ owned b p (row + (nf + 1) * dr) (col + (nf + 1) * dc) ∧
    ¬ owned b p (row + (- nb - 1) * dr) (col + (- nb - 1) * dc).
Proof.
  intros Hstep [Hin Hget]. unfold line_count.
  destruct (extend_run_exact b p dr dc 1 row col Hstep Hin)
    as (nf & Hnf & -> & Hf & Hfstop).
  replace (row - dr) with (row + - dr) by lia.
  replace (col - dc) with (col + - dc) by lia.
  destruct (extend_run_exact b p (- dr) (- dc) (1 + nf) row col
              (unit_step_opp _ _ Hstep) Hin)
    as (nb & Hnb & -> & Hb & Hbstop).
  exists nf, nb. split; [lia|]. split; [lia|]. split; [done|]. split; [|split].
  - split; [lia|]. intros k Hk.
    destruct (Z.lt_trichotomy k 0) as [Hlt|[->|Hlt]].
    + specialize (Hb (- k)).
      replace (row + - k * - dr) with (row + k * dr) in Hb by lia.
      replace (col + - k * - dc) with (col + k * dc) in Hb by lia.
      apply Hb. lia.
    + replace (row + 0 * dr) with row by lia. replace (col + 0 * dc) with col by lia.
      done.
    + apply Hf. lia.
  - done.
  - replace (row + (- nb - 1) * dr) with (row + (nb + 1) * - dr) by lia.
    replace (col + (- nb - 1) * dc) with (col + (nb + 1) * - dc) by lia.
    done.
Qed.

Lemma line_count_ge b p row col dr dc n :
  unit_step dr dc → owned b p row col →
  (n ≤ line_count b p row col dr dc ↔
   ∃ lo hi, run_through b p row col dr dc lo hi ∧ n ≤ hi - lo + 1).
Proof.
  intros Hstep Hown.
  destruct (line_count_spec b p row col dr dc Hstep Hown)
    as (nf & nb & Hnf & Hnb & -> & Hrun & Hf & Hb).
  split.
  - intros Hn. exists (- nb), nf. split; [done|]. lia.
  - intros (lo & hi & [Hlohi Hall] & Hn).
    assert (hi ≤ nf).
    { destruct (decide (hi ≤ nf)) as [|Hgt]; [done|]. exfalso.
      apply Hf, Hall. lia. }
    assert (- nb ≤ lo).
    { destruct (decide (- nb ≤ lo)) as [|Hgt]; [done|]. exfalso.
      apply Hb, Hall. lia. }
    lia.
Qed.


(** ** [score_window] and [evaluate_board] *)

Ltac case_tests :=
  repeat (match goal with
          | |- context [Z.ltb ?a ?b] => destruct (Z.ltb_spec a b)
          | |- context [Z.eqb ?a ?b] => destruct (Z.eqb_spec a b)
          end; cbn [andb orb negb]).

Lemma count_if_nonneg {A} (f : A → bool) l : 0 ≤ count_if f l.
Proof. unfold count_if. lia. Qed.

Lemma count_if_le_length {A} (f : A → bool) l : count_if f l ≤ Z.of_nat (length l).
Proof. unfold count_if. pose proof (List.filter_length_le f l). lia. Qed.

(** [score_window] follows the table of the specification. *)
Lemma score_window_table w bot opps :
  (score_window w bot opps ==
   spec_window_score (count_bot w bot) (count_opp w opps) (count_empty w))%Q.
Proof.
  unfold score_window, spec_window_score, CONNECT_N, WIN_SCORE.
  generalize (count_bot w bot) (count_opp w opps) (count_empty w).
  intros nb no ne. case_tests; first [reflexivity | exfalso; lia].
Qed.

Lemma foldl_bind {A B C} (f : A → C → A) (g : B → list C) (l : list B) a :
  foldl f a (l ≫= g) = foldl (λ a x, foldl f a (g x)) a l.
Proof.
  revert a. induction l as [|x l IH]; intros a; [reflexivity|].
  cbn. rewrite foldl_app. apply IH.
Qed.

Lemma foldl_ext_in {A B} (f g : A → B → A) (l : list B) a :
  (∀ a x, f a x = g a x) → foldl f a l = foldl g a l.
Proof.
  intros Hfg. revert a. induction l as [|x l IH]; intros a; [reflexivity|].
  simpl. rewrite Hfg. apply IH.
Qed.

(** The three nested loops of [evaluate_board] are one loop over
    [window_starts]. *)
Lemma evaluate_board_loop b bot opps :
  evaluate_board b bot opps =
  foldl (add_window b bot opps)
        (0 + inject_Z (center_discs b bot) * center_weight)%Q window_starts.
Proof.
  unfold evaluate_board, window_starts, center_discs.
  rewrite foldl_bind. apply foldl_ext_in. intros s row.
  rewrite foldl_bind. apply foldl_ext_in. intros s' col.
  rewrite foldl_bind. apply foldl_ext_in. intros s'' [dr dc]. reflexivity.
Qed.

Lemma Qsum_cons x l : Qsum (x :: l) = (x + Qsum l)%Q.
Proof. reflexivity. Qed.

Lemma foldl_add_window b bot opps l s :
  (foldl (add_window b bot opps) s l ==
   s + Qsum ((λ w, score_window (window_cells b w) bot opps)
               <$> List.filter last_on_grid l))%Q.
Proof.
  revert s. induction l as [|w l IH]; intros s.
  - simpl. ring.
  - cbn [foldl List.filter]. rewrite IH. unfold add_window.
    change (in_bounds _ _) with (last_on_grid w).
    destruct (last_on_grid w); cbn [negb].
    + rewrite fmap_cons, Qsum_cons. ring.
    + ring.
Qed.

(** The windows [evaluate_board] scores are the runs of four cells on
    the grid. *)
Lemma scored_windows : List.filter last_on_grid window_starts = grid_windows.
Proof. vm_compute. reflexivity. Qed.

Lemma evaluate_board_sum b bot opps :
  (evaluate_board b bot opps ==
   Qsum ((λ w, score_window (window_cells b w) bot opps) <$> grid_windows)
   + inject_Z (center_discs b bot) * (5 # 2))%Q.
Proof.
  rewrite evaluate_board_loop, foldl_add_window, scored_windows.
  unfold center_weight. ring.
Qed.



(** *** Counting *)

Lemma count_if_cons {A} (f : A → bool) x l :
  count_if f (x :: l) = (if f x then 1 else 0) + count_if f l.
Proof. unfold count_if. simpl. destruct (f x); simpl; lia. Qed.


Lemma count_if_zero {A} (f : A → bool) l :
  forallb (λ x, negb (f x)) l = true → count_if f l = 0.
Proof.
  induction l as [|x l IH]; [reflexivity|]. simpl.
  intros [Hx Hl]%andb_true_iff. rewrite count_if_cons, IH by done.
  apply negb_true_iff in Hx. rewrite Hx. reflexivity.
Qed.






(** *** Swapping the two sides *)

Lemma count_opp_single w p : count_opp w [p] = count_bot w p.
Proof.
  unfold count_opp, count_bot, count_if. do 2 f_equal.
  induction w as [|c w IH]; [reflexivity|]. simpl. rewrite IH.
  replace (cell_in [p] c) with (cell_is c p); [reflexivity|].
  destruct c as [q|]; [|reflexivity]. simpl.
  apply bool_decide_ext. rewrite list_elem_of_singleton. reflexivity.
Qed.

(** The two scores of a window, one for each side as the bot. *)
Lemma score_window_swap w pa pb :
  (score_window w pa [pb] + score_window w pb [pa] ==
   weight_gap (count_bot w pa) (count_bot w pb) (count_empty w))%Q.
Proof.
  rewrite !score_window_table, !count_opp_single.
  unfold count_bot, count_empty.
  pose proof (count_if_nonneg (λ c, cell_is c pa) w).
  pose proof (count_if_nonneg (λ c, cell_is c pb) w).
  revert H H0.
  generalize (count_if (λ c, cell_is c pa) w) (count_if (λ c, cell_is c pb) w)
             (count_if is_none w).
  intros na nb ne Ha Hb. unfold spec_window_score, weight_gap.
  case_tests; first [reflexivity | exfalso; lia].
Qed.

Lemma Qsum_plus {A} (f g h : A → Q) (l : list A) :
  (∀ x, (f x + g x == h x)%Q) →
  (Qsum (f <$> l) + Qsum (g <$> l) == Qsum (h <$> l))%Q.
Proof.
  intros Hfgh. induction l as [|x l IH].
  - reflexivity.
  - rewrite !fmap_cons, !Qsum_cons, <- IH, <- (Hfgh x). ring.
Qed.

(** C5, as the code has it.  For every board whose non-empty cells use
    exactly two identifiers A and B, the evaluations of the two sides do
    not cancel: [evaluate_board(b, A, [B]) + evaluate_board(b, B, [A])] is
    2.5 per disc in the middle column plus, over all windows on the grid
    with discs of one player only, -10 for three discs and one empty
    cell, +2 for two discs and two empty cells and +2 for one disc and
    three empty cells. *)
Theorem evaluate_board_swap b pa pb :
  wf_board b → uses_exactly b pa pb →
  (evaluate_board b pa [pb] + evaluate_board b pb [pa] ==
   Qsum ((λ w, weight_gap (count_bot (window_cells b w) pa)
                          (count_bot (window_cells b w) pb)
                          (count_empty (window_cells b w)))
           <$> grid_windows)
   + (5 # 2) * inject_Z (center_discs b pa + center_discs b pb))%Q.
Proof.
  intros _ _. rewrite !evaluate_board_sum.
  pose proof (Qsum_plus (λ w, score_window (window_cells b w) pa [pb])
                        (λ w, score_window (window_cells b w) pb [pa])
                        (λ w, weight_gap (count_bot (window_cells b w) pa)
                                         (count_bot (window_cells b w) pb)
                                         (count_empty (window_cells b w)))
                        grid_windows
                        (λ w, score_window_swap (window_cells b w) pa pb)) as Hs.
  rewrite <- Hs, inject_Z_plus. ring.
Qed.

Lemma corners_board_uses_exactly : uses_exactly corners_board "A" "B".
Proof.
  split; [done|]. split; [|split].
  - vm_compute. apply list_elem_of_In. vm_compute. tauto.
  - apply list_elem_of_In. vm_compute. tauto.
  - vm_compute. repeat constructor; tauto.
Qed.

Lemma evaluate_board_swap_witness :
  (evaluate_board corners_board "A" ["B"] + evaluate_board corners_board "B" ["A"] ==
   Qsum ((λ w, weight_gap (count_bot (window_cells corners_board w) "A")
                          (count_bot (window_cells corners_board w) "B")
                          (count_empty (window_cells corners_board w)))
           <$> grid_windows)
   + (5 # 2) * inject_Z (center_discs corners_board "A" + center_discs corners_board "B"))%Q.
Proof.
  apply (evaluate_board_swap corners_board "A" "B").
  - vm_compute. split; [reflexivity|]. repeat constructor.
  - exact corners_board_uses_exactly.
Defined.

(** The claim of the specification fails on [corners_board]: both
    evaluations are +6. *)
Lemma evaluate_board_not_antisymmetric :
  wf_board corners_board ∧ uses_exactly corners_board "A" "B" ∧
  ¬ (evaluate_board corners_board "A" ["B"] ==
     - evaluate_board corners_board "B" ["A"])%Q.
Proof.
  split; [|split].
  - vm_compute. split; [reflexivity|]. repeat constructor.
  - exact corners_board_uses_exactly.
  - intros H. vm_compute in H. discriminate H.
Qed.

Example corners_board_scores :
  (evaluate_board corners_board "A" ["B"] == 6)%Q ∧
  (evaluate_board corners_board "B" ["A"] == 6)%Q.
Proof. split; vm_compute; reflexivity. Qed.

(** ** [place_disc] *)

Lemma wf_board_lookup b r :
  wf_board b → 0 ≤ r < ROWS →
  ∃ cells, b !! Z.to_nat r = Some cells ∧ length cells = Z.to_nat COLS.
Proof.
  intros [Hlen Hrows] Hr.
  destruct (lookup_lt_is_Some_2 b (Z.to_nat r)) as [cells Hcells];
    [unfold ROWS in *; lia|].
  exists cells. split; [done|]. eapply Forall_lookup_1 in Hrows; eauto.
Qed.

Lemma get_place_disc_eq b row col p :
  wf_board b → in_bounds row col = true →
  get (place_disc b row col p) row col = Some p.
Proof.
  intros Hwf [Hr Hc]%in_bounds_true.
  destruct (wf_board_lookup b row Hwf Hr) as (cells & Hcells & Hlen).
  unfold get, place_disc. rewrite list_lookup_alter_eq, Hcells. cbn.
  rewrite list_lookup_insert_eq; [done|]. unfold COLS in *. lia.
Qed.

Lemma get_place_disc_ne b row col p r c :
  0 ≤ row → 0 ≤ col → 0 ≤ r → 0 ≤ c → (r, c) ≠ (row, col) →
  get (place_disc b row col p) r c = get b r c.
Proof.
  intros Hrow Hcol Hr Hc Hne. unfold get, place_disc.
  destruct (decide (Z.to_nat row = Z.to_nat r)) as [Heq|Hneq].
  - assert (row = r) as -> by lia. rewrite list_lookup_alter_eq.
    destruct (b !! Z.to_nat r) as [cells|]; [|done]. cbn.
    rewrite list_lookup_insert_ne; [done|].
    intros Hcc. apply Hne. f_equal. lia.
  - rewrite list_lookup_alter_ne by done. done.
Qed.

Lemma wf_place_disc b row col p : wf_board b → wf_board (place_disc b row col p).
Proof.
  intros [Hlen Hrows]. unfold place_disc. split.
  - by rewrite length_alter.
  - apply Forall_lookup. intros i cells Hi.
    rewrite list_lookup_alter in Hi. case_decide.
    + subst i. destruct (b !! Z.to_nat row) as [cells0|] eqn:Hb; [|done].
      injection Hi as <-.
      rewrite length_insert. eapply Forall_lookup_1 in Hrows; eauto.
    + eapply Forall_lookup_1 in Hrows; eauto.
Qed.

(** Gravity is an invariant of the moves: it holds on the empty board
    and a disc placed on the row [find_drop_row] returns keeps it. *)
Lemma gravity_empty_board : gravity empty_board.
Proof. apply gravity_check_sound. vm_compute. reflexivity. Qed.

Lemma gravity_place_disc b row col p :
  wf_board b → 0 ≤ col < COLS → find_drop_row b col = Some row →
  gravity b → gravity (place_disc b row col p).
Proof.
  intros Hwf Hcol (Hrow & Hget & Habove)%find_drop_row_Some Hg r c Hr0 Hr Hc Hne.
  destruct (decide ((r + 1, c) = (row, col))) as [[= <- <-]|Hne1].
  { rewrite get_place_disc_eq; [done|done|]. apply in_bounds_true. lia. }
  rewrite get_place_disc_ne by (lia || done).
  destruct (decide ((r, c) = (row, col))) as [[= -> ->]|Hne2].
  - apply Habove. lia.
  - rewrite get_place_disc_ne in Hne by (lia || done). by apply Hg.
Qed.

Section store.
Import Heap.

Lemma read_row_weaken (h h' : gmap loc obj) r cells :
  h ⊆ h' → read_row h r = Some cells → read_row h' r = Some cells.
Proof.
  unfold read_row. intros Hsub Hr.
  destruct (h !! r) as [o|] eqn:Ho; [|done].
  by rewrite (lookup_weaken _ _ _ _ Ho Hsub).
Qed.

Lemma alloc_fresh (h : gmap loc obj) o : h !! (alloc h o).2 = None.
Proof. unfold alloc. simpl. apply not_elem_of_dom, is_fresh. Qed.

Lemma alloc_subseteq (h : gmap loc obj) o : h ⊆ (alloc h o).1.
Proof. unfold alloc. simpl. apply insert_subseteq, not_elem_of_dom, is_fresh. Qed.

(** The copies are new objects, all different, with the contents of
    the rows; nothing that was in the store is changed. *)
Lemma copy_rows_spec (rows : list loc) : ∀ (h : gmap loc obj) (b : board),
  Forall2 (λ r cells, read_row h r = Some cells) rows b →
  ∃ h' ls, copy_rows h rows = Ok (h', ls) ∧ h ⊆ h' ∧
           Forall2 (λ r cells, read_row h' r = Some cells) ls b ∧
           NoDup ls ∧ Forall (λ l, h !! l = None) ls.
Proof.
  induction rows as [|r rows IH]; intros h b Hb.
  - apply Forall2_nil_inv_l in Hb as ->. exists h, []. simpl.
    split; [done|]. split; [done|]. split; [constructor|].
    split; constructor.
  - apply Forall2_cons_inv_l in Hb as (cells & b' & Hr & Hb' & ->).
    simpl. unfold read_row in Hr.
    destruct (h !! r) as [[cells0|]|] eqn:Hhr; try done. injection Hr as ->.
    pose proof (alloc_fresh h (Cells cells)) as Hfresh.
    pose proof (alloc_subseteq h (Cells cells)) as Hsub.
    unfold alloc in *. simpl in *. set (l := fresh (dom h)) in *.
    set (h1 := <[l := Cells cells]> h) in *.
    destruct (IH h1 b') as (h2 & ls & Hcopy & Hsub2 & Hread & Hnd & Hnew).
    { eapply Forall2_impl; [exact Hb'|]. intros r' c' Hr'. simpl in Hr'.
      by apply (read_row_weaken h h1). }
    rewrite Hcopy. cbn. exists h2, (l :: ls).
    split; [done|]. split; [by etrans|]. split; [|split].
    + constructor; [|done]. apply (read_row_weaken h1 h2); [done|].
      unfold read_row, h1. by rewrite lookup_insert_eq.
    + constructor; [|done]. intros Hin.
      rewrite Forall_forall in Hnew. specialize (Hnew l Hin).
      unfold h1 in Hnew. by rewrite lookup_insert_eq in Hnew.
    + constructor; [done|]. eapply Forall_impl; [exact Hnew|].
      intros l' Hl'. simpl in Hl'.
      destruct (h !! l') as [o|] eqn:Ho; [|done].
      by rewrite (lookup_weaken _ _ _ _ Ho Hsub) in Hl'.
Qed.
End store.

(** C7. For every board, in-bounds cell and player: [place_disc] returns
    a board (a new object) that holds the player at [(row, col)] and
    equals the input board at every other cell; the input board reads
    the same after the call as before, and so does every object that was
    in the store. *)
Theorem place_disc_spec (h : gmap Heap.loc Heap.obj) bl b row col p :
  Heap.read_board h bl = Some b → wf_board b → in_bounds row col = true →
  ∃ h' copy b',
    Heap.place_disc h bl row col p = Ok (h', copy) ∧
    Heap.read_board h' copy = Some b' ∧
    b' = place_disc b row col p ∧
    get b' row col = Some p ∧
    (∀ r c, in_bounds r c = true → (r, c) ≠ (row, col) → get b' r c = get b r c) ∧
    Heap.read_board h' bl = Some b ∧
    (∀ l, is_Some (h !! l) → h' !! l = h !! l).
Proof.
  intros Hread Hwf Hin. pose proof Hin as [Hr Hc]%in_bounds_true.
  unfold Heap.read_board in Hread.
  destruct (h !! bl) as [[|rows]|] eqn:Hbl; try done.
  apply mapM_Some in Hread.
  destruct (copy_rows_spec rows h b Hread) as (h1 & ls & Hcopy & Hsub & Hls & Hnd & Hnew).
  unfold Heap.place_disc. rewrite Hbl, Hcopy. cbn.
  pose proof (alloc_fresh h1 (Heap.Refs ls)) as Hfresh.
  unfold Heap.alloc in *. simpl in Hfresh. set (cl := fresh (dom h1)) in *.
  destruct (wf_board_lookup b row Hwf Hr) as (cells & Hcells & Hlen).
  destruct (Forall2_lookup_r _ _ _ _ _ Hls Hcells) as (rl & Hrl & Hrow).
  unfold py_index. destruct (Z.leb_spec 0 row); [|lia]. rewrite Hrl.
  assert (rl ≠ cl) as Hne.
  { intros ->. unfold Heap.read_row in Hrow. by rewrite Hfresh in Hrow. }
  rewrite lookup_insert_ne by done.
  unfold Heap.read_row in Hrow.
  destruct (h1 !! rl) as [[cells0|]|] eqn:Hh1; try done. injection Hrow as ->.
  unfold Heap.py_store.
  destruct (Z.leb_spec 0 col); [|lia].
  destruct (Z.ltb_spec col (Z.of_nat (length cells))); [|unfold COLS in *; lia].
  cbn.
  set (h' := <[rl := Heap.Cells (<[Z.to_nat col := Some p]> cells)]>
               (<[cl := Heap.Refs ls]> h1)).
  assert (∀ l, is_Some (h !! l) → h' !! l = h !! l) as Hold.
  { intros l [o Ho]. pose proof (lookup_weaken _ _ _ _ Ho Hsub) as Ho1.
    unfold h'. rewrite !lookup_insert_ne, Ho, Ho1; [done| |].
    - intros ->. by rewrite Hfresh in Ho1.
    - intros ->. rewrite Forall_forall in Hnew.
      rewrite (Hnew l) in Ho; [done|]. eapply list_elem_of_lookup_2, Hrl. }
  exists h', cl, (place_disc b row col p).
  split; [done|]. split; [|split; [done|split; [|split; [|split]]]].
  - unfold Heap.read_board, h'.
    rewrite lookup_insert_ne, lookup_insert_eq by done.
    apply mapM_Some. apply Forall2_same_length_lookup. split.
    + unfold place_disc. rewrite length_alter. by eapply Forall2_length.
    + intros i l cells' Hl Hi. unfold place_disc in Hi. unfold Heap.read_row.
      rewrite list_lookup_alter in Hi. case_decide as Hi'.
      * subst i. rewrite Hcells in Hi. injection Hi as <-.
        assert (l = rl) as -> by congruence. by rewrite lookup_insert_eq.
      * pose proof (Forall2_lookup_lr _ _ _ _ _ _ Hls Hl Hi) as Hrd.
        assert (rl ≠ l) as Hne'.
        { intros ->. apply Hi'. eapply NoDup_lookup; eauto. }
        assert (cl ≠ l) as Hne''.
        { intros ->. unfold Heap.read_row in Hrd. by rewrite Hfresh in Hrd. }
        rewrite !lookup_insert_ne by done. exact Hrd.
  - by apply get_place_disc_eq.
  - intros r c [Hr' Hc']%in_bounds_true Hrc. apply get_place_disc_ne; lia || done.
  - unfold Heap.read_board. rewrite Hold by (rewrite Hbl; eauto). rewrite Hbl.
    apply mapM_Some. eapply Forall2_impl; [exact Hread|].
    intros r cells' Hrd. simpl in Hrd. unfold Heap.read_row in *.
    destruct (h !! r) as [o|] eqn:Ho; [|done]. rewrite Hold by eauto.
    by rewrite Ho.
  - exact Hold.
Qed.

Ltac wf_board_compute :=
  vm_compute; split; [reflexivity | repeat constructor].

Lemma place_disc_spec_witness :
  ∃ h' copy b',
    Heap.place_disc shared_rows_store 2%positive 9 4 "BOT" = Ok (h', copy) ∧
    Heap.read_board h' copy = Some b' ∧
    b' = place_disc empty_board 9 4 "BOT" ∧
    get b' 9 4 = Some "BOT"%string ∧
    (∀ r c, in_bounds r c = true → (r, c) ≠ (9, 4) → get b' r c = get empty_board r c) ∧
    Heap.read_board h' 2%positive = Some empty_board ∧
    (∀ l, is_Some (shared_rows_store !! l) → h' !! l = shared_rows_store !! l).
Proof.
  apply (place_disc_spec shared_rows_store 2%positive empty_board 9 4 "BOT"%string).
  - vm_compute. reflexivity.
  - wf_board_compute.
  - reflexivity.
Defined.

(** ** [roll_next_turn] *)

Section dice.
Import Dice.

Lemma elem_of_without p skip players :
  p ∈ without skip players ↔ p ∈ players ∧ Some p ≠ skip.
Proof.
  unfold without. rewrite !list_elem_of_In, filter_In, negb_true_iff.
  rewrite bool_decide_eq_false. reflexivity.
Qed.

Lemma without_None players : without None players = players.
Proof.
  unfold without. induction players as [|p l IH]; [done|].
  cbn [List.filter]. rewrite bool_decide_eq_false_2 by done. cbn [negb].
  by rewrite IH.
Qed.

Lemma pool_no_skip players state :
  skip_next state = None → pool players state = players.
Proof.
  intros Hs. unfold pool. rewrite Hs, without_None. by destruct players.
Qed.

Lemma pool_skip players state q :
  q ∈ players → Some q ≠ skip_next state →
  pool players state = without (skip_next state) players.
Proof.
  intros Hq Hne. unfold pool.
  destruct (without (skip_next state) players) as [|x l] eqn:Hw; [|done].
  exfalso. assert (q ∈ without (skip_next state) players) as Hin.
  { by apply elem_of_without. }
  rewrite Hw in Hin. by apply elem_of_nil in Hin.
Qed.

Lemma pool_subseteq players state p : p ∈ pool players state → p ∈ players.
Proof.
  unfold pool. destruct (without (skip_next state) players) as [|x l] eqn:Hw; [done|].
  rewrite <- Hw. intros Hp%elem_of_without. tauto.
Qed.

Lemma pool_nonempty players state : players ≠ [] → pool players state ≠ [].
Proof.
  unfold pool. by destruct (without (skip_next state) players).
Qed.

Lemma choice_Ok draw l : l ≠ [] → ∃ p, choice draw l = Ok p ∧ p ∈ l.
Proof.
  intros Hl. unfold choice.
  destruct (lookup_lt_is_Some_2 l (draw `mod` length l)%nat) as [p Hp].
  { apply Nat.mod_upper_bound. by destruct l. }
  rewrite Hp. exists p. split; [done|]. by eapply list_elem_of_lookup_2.
Qed.

Lemma choice_elem draw l p : choice draw l = Ok p → p ∈ l.
Proof.
  unfold choice. destruct (l !! _) as [q|] eqn:Hq; [|done].
  intros [= <-]. by eapply list_elem_of_lookup_2.
Qed.

(** What a roll that returns has done. *)
Lemma roll_next_turn_Ok players state draw r state' :
  roll_next_turn players state draw = Ok (r, state') →
  let count := if bool_decide (Some (chosen_player r) = last_player state)
               then consecutive_count state + 1 else 1 in
  chosen_player r ∈ pool players state ∧
  last_player state' = Some (chosen_player r) ∧
  (2 ≤ count → skip_next state' = Some (chosen_player r) ∧
               consecutive_count state' = 0 ∧ forced_skip r = true) ∧
  (count < 2 → skip_next state' = None ∧
               consecutive_count state' = count ∧ forced_skip r = false).
Proof.
  unfold roll_next_turn. destruct players as [|p0 players]; [done|].
  destruct (choice draw (pool (p0 :: players) state)) as [chosen| |] eqn:Hch;
    cbn; [|done..].
  apply choice_elem in Hch.
  destruct (Z.leb_spec 2 (if bool_decide (Some chosen = last_player state)
                          then consecutive_count state + 1 else 1));
    intros [= <- <-]; cbn; (split; [done|]); (split; [done|]); split; intros; try lia; done.
Qed.

(** In the states a session reaches the count is 0 or 1. *)
Lemma reachable_count state : reachable state → 0 ≤ consecutive_count state ≤ 1.
Proof.
  induction 1 as [|players state draw r state' _ IH Hroll]; [simpl; lia|].
  apply roll_next_turn_Ok in Hroll as (_ & _ & Hskip & Hnone).
  destruct (Z.le_gt_cases 2 (if bool_decide (Some (chosen_player r) = last_player state)
                             then consecutive_count state + 1 else 1)) as [Hc|Hc].
  - destruct (Hskip Hc) as (_ & -> & _). lia.
  - destruct (Hnone ltac:(lia)) as (_ & -> & _). case_bool_decide; lia.
Qed.

(** On a non-empty list the roll returns a player of the list. *)
Lemma roll_next_turn_returns players state draw :
  players ≠ [] →
  ∃ r state', roll_next_turn players state draw = Ok (r, state') ∧
              chosen_player r ∈ players.
Proof.
  intros Hne. unfold roll_next_turn.
  destruct (choice_Ok draw (pool players state)) as (p & Hp & Hin);
    [by apply pool_nonempty|].
  destruct players as [|p0 players]; [done|]. rewrite Hp. cbn.
  destruct (2 <=? _); eexists _, _; (split; [reflexivity|]); cbn;
    by eapply pool_subseteq.
Qed.

(** C9. [roll_next_turn] raises (the input error) if and only if the
    player list is empty; on a non-empty list it returns, whatever the
    turn state and the draw, and the player it returns is in the
    list. *)
Theorem roll_next_turn_total players state draw :
  (roll_next_turn players state draw = Raise (ValueError no_players_msg) ↔
   players = []) ∧
  ((∃ e, roll_next_turn players state draw = Raise e) ↔ players = []) ∧
  (players ≠ [] →
   ∃ r state', roll_next_turn players state draw = Ok (r, state') ∧
               chosen_player r ∈ players).
Proof.
  assert (players ≠ [] →
          ∃ r state', roll_next_turn players state draw = Ok (r, state') ∧
                      chosen_player r ∈ players) as Hok.
  { intros Hne. unfold roll_next_turn.
    destruct (choice_Ok draw (pool players state)) as (p & Hp & Hin);
      [by apply pool_nonempty|].
    destruct players as [|p0 players]; [done|]. rewrite Hp. cbn.
    destruct (2 <=? _); eexists _, _; (split; [reflexivity|]); cbn;
      by eapply pool_subseteq. }
  split; [|split]; [| |done].
  - split; [|by intros ->].
    intros Hr. destruct players as [|p0 l]; [done|].
    destruct Hok as (r & s' & Heq & _); [done|]. congruence.
  - split; [|intros ->; by eexists].
    intros [e Hr]. destruct players as [|p0 l]; [done|].
    destruct Hok as (r & s' & Heq & _); [done|]. congruence.
Qed.

Lemma roll_next_turn_total_witness :
  ∃ r state', roll_next_turn PLAYERS initial 7 = Ok (r, state') ∧
              chosen_player r ∈ PLAYERS.
Proof.
  apply (roll_next_turn_total PLAYERS initial 7). unfold PLAYERS. discriminate.
Defined.

(** C8. For every list that names at least two players and every
    reachable turn state: when two consecutive rolls return the same
    player, the pool of the roll that follows does not hold that
    player, and the pool of the roll after that one holds the player
    again (and both of these rolls return). *)
Theorem roll_next_turn_fatigue players s0 d1 r1 s1 d2 r2 s2 :
  two_players players → reachable s0 →
  roll_next_turn players s0 d1 = Ok (r1, s1) →
  roll_next_turn players s1 d2 = Ok (r2, s2) →
  chosen_player r1 = chosen_player r2 →
  (chosen_player r2 ∉ pool players s2) ∧
  (∀ d3, ∃ r3 s3, roll_next_turn players s2 d3 = Ok (r3, s3) ∧
                  chosen_player r3 ≠ chosen_player r2 ∧
                  chosen_player r2 ∈ pool players s3).
Proof.
  intros (p & q & Hp & Hq & Hpq) Hreach Hroll1 Hroll2 Hsame.
  pose proof (reachable_count _ Hreach) as Hcount.
  apply roll_next_turn_Ok in Hroll1 as (Hin1 & Hlast1 & Hskip1 & Hnone1).
  apply roll_next_turn_Ok in Hroll2 as (Hin2 & Hlast2 & Hskip2 & Hnone2).
  set (x := chosen_player r2) in *. rewrite Hsame in *.
  assert (x ∈ players) as Hx by (by eapply pool_subseteq).
  (* another player than x *)
  assert (∃ y, y ∈ players ∧ y ≠ x) as (y & Hy & Hyx).
  { destruct (decide (p = x)) as [->|]; [exists q|exists p]; done. }
  (* the first roll has not scheduled a skip, or the second could not
     return x *)
  assert (skip_next s1 = None ∧ consecutive_count s1 = 1) as [Hs1 Hc1].
  { destruct (Z.le_gt_cases 2 (if bool_decide (Some x = last_player s0)
                               then consecutive_count s0 + 1 else 1)) as [Hc|Hc].
    - exfalso. destruct (Hskip1 Hc) as (Hs & _).
      rewrite (pool_skip players s1 y) in Hin2; [|done|rewrite Hs; congruence].
      apply elem_of_without in Hin2 as [_ Hne]. by rewrite Hs in Hne.
    - destruct (Hnone1 Hc) as (Hs & Hc' & _). split; [done|].
      rewrite Hc'. case_bool_decide; lia. }
  (* the second roll schedules the skip of x *)
  rewrite Hlast1, Hc1, bool_decide_eq_true_2 in Hskip2 by done.
  destruct Hskip2 as (Hs2 & Hc2 & _); [lia|].
  split.
  { rewrite (pool_skip players s2 y); [|done|rewrite Hs2; congruence].
    rewrite elem_of_without, Hs2. tauto. }
  intros d3.
  destruct (roll_next_turn_returns players s2 d3) as (r3 & s3 & Hroll3 & _).
  { intros ->. by apply elem_of_nil in Hx. }
  exists r3, s3. split; [done|].
  apply roll_next_turn_Ok in Hroll3 as (Hin3 & Hlast3 & _ & Hnone3).
  rewrite (pool_skip players s2 y) in Hin3; [|done|rewrite Hs2; congruence].
  apply elem_of_without in Hin3 as [_ Hne3]. rewrite Hs2 in Hne3.
  assert (chosen_player r3 ≠ x) as Hne by congruence.
  split; [done|].
  rewrite Hlast2, bool_decide_eq_false_2 in Hnone3 by congruence.
  destruct Hnone3 as (Hs3 & _); [lia|].
  by rewrite (pool_no_skip players s3 Hs3).
Qed.

Lemma roll_next_turn_fatigue_witness :
  let s2 := {| last_player := Some "P1"%string; consecutive_count := 0;
               skip_next := Some "P1"%string |} in
  ("P1"%string ∉ pool PLAYERS s2) ∧
  (∀ d3, ∃ r3 s3, roll_next_turn PLAYERS s2 d3 = Ok (r3, s3) ∧
                  chosen_player r3 ≠ "P1"%string ∧
                  "P1"%string ∈ pool PLAYERS s3).
Proof.
  apply (roll_next_turn_fatigue PLAYERS initial 0
           {| chosen_player := "P1"; roll_skip_next := None;
              forced_skip := false; next_roll_pool := PLAYERS |}
           {| last_player := Some "P1"%string; consecutive_count := 1;
              skip_next := None |}
           0
           {| chosen_player := "P1"; roll_skip_next := Some "P1"%string;
              forced_skip := true; next_roll_pool := ["P2"; "BOT"]%string |}).
  - exists "P1"%string, "P2"%string. unfold PLAYERS.
    split; [|split]; [apply list_elem_of_In; simpl; tauto..|discriminate].
  - constructor.
  - reflexivity.
  - reflexivity.
  - reflexivity.
Defined.
End dice.


(** ** Order on scores *)

Lemma score_ltb_lt a b : score_ltb a b = true ↔ score_lt a b.
Proof.
  destruct a as [|p|], b as [|q|]; simpl; try (split; (done || congruence)).
  rewrite negb_true_iff. split.
  - intros H. apply Qnot_le_lt. intros Hle. apply Qle_bool_iff in Hle. congruence.
  - intros H. destruct (Qle_bool q p) eqn:E; [|done].
    apply Qle_bool_iff in E. lra.
Qed.

Lemma score_ltb_nlt a b : score_ltb a b = false ↔ score_le b a.
Proof.
  unfold score_le. rewrite <- score_ltb_lt. destruct (score_ltb a b); split; congruence.
Qed.

Lemma score_leb_le a b : score_leb a b = true ↔ score_le a b.
Proof. unfold score_leb. rewrite negb_true_iff. apply score_ltb_nlt. Qed.

Lemma score_leb_nle a b : score_leb a b = false ↔ score_lt b a.
Proof. unfold score_leb. rewrite negb_false_iff. apply score_ltb_lt. Qed.

(** Case analysis on every score at hand, then linear arithmetic. *)
Ltac score_order :=
  unfold agree, score_le, py_max, py_min in *;
  repeat match goal with
         | |- context [score_ltb ?a ?b] =>
             let E := fresh "E" in
             destruct (score_ltb a b) eqn:E;
             [apply score_ltb_lt in E | apply score_ltb_nlt in E; unfold score_le in E]
         | H : context [score_ltb ?a ?b] |- _ =>
             let E := fresh "E" in
             destruct (score_ltb a b) eqn:E;
             [apply score_ltb_lt in E | apply score_ltb_nlt in E; unfold score_le in E]
         end;
  repeat match goal with x : score |- _ => destruct x end;
  cbn [score_lt score_eq] in *;
  try tauto; try lra.

Global Instance score_eq_equiv : Equivalence score_eq.
Proof.
  split.
  - intros a. score_order.
  - intros a b ?. score_order.
  - intros a b c ? ?. score_order.
Qed.

Lemma score_ltb_proper a a' b b' :
  score_eq a a' → score_eq b b' → score_ltb a b = score_ltb a' b'.
Proof.
  intros Ha Hb. destruct (score_ltb a' b') eqn:E.
  - apply score_ltb_lt in E. apply score_ltb_lt. score_order.
  - apply score_ltb_nlt in E. apply score_ltb_nlt. score_order.
Qed.

Lemma agree_unbounded r v : agree NegInf PosInf r v → score_eq r v.
Proof. intros H. score_order. Qed.

Lemma agree_refl alpha beta v : agree alpha beta v v.
Proof. right. right. reflexivity. Qed.

Lemma score_le_trans a b c : score_le a b → score_le b c → score_le a c.
Proof. intros ? ?. score_order. Qed.

Lemma score_le_max_l a b : score_le a (py_max a b).
Proof. score_order. Qed.

Lemma score_le_max_r a b : score_le b (py_max a b).
Proof. score_order. Qed.

Lemma score_le_min_l a b : score_le (py_min a b) a.
Proof. score_order. Qed.

Lemma score_le_min_r a b : score_le (py_min a b) b.
Proof. score_order. Qed.

(** The order on scores is a total order: the [order] tactic of the
    Standard Library decides what follows from its laws. *)
Module ScoreOrder.
Definition t := score.
Definition eq := score_eq.
Definition lt := score_lt.
Definition le := score_le.

Global Instance eq_equiv : Equivalence eq.
Proof. exact score_eq_equiv. Qed.

Global Instance lt_strorder : StrictOrder lt.
Proof.
  split.
  - intros a H. unfold lt in H. score_order.
  - intros a b c ? ?. unfold lt in *. score_order.
Qed.

Global Instance lt_compat : Proper (eq ==> eq ==> iff) lt.
Proof.
  intros a a' Ha b b' Hb. unfold eq, lt in *. split; intros ?; score_order.
Qed.

Lemma le_lteq x y : le x y ↔ lt x y ∨ eq x y.
Proof. unfold le, lt, eq. split; intros ?; score_order. Qed.

Lemma lt_total x y : lt x y ∨ eq x y ∨ lt y x.
Proof. unfold lt, eq. score_order. Qed.
End ScoreOrder.

Module ScoreOrderTac := MakeOrderTac ScoreOrder ScoreOrder.

Ltac order :=
  change score_lt with ScoreOrder.lt in *;
  change score_le with ScoreOrder.le in *;
  change score_eq with ScoreOrder.eq in *;
  ScoreOrderTac.order.

(** [max] and [min] return one of their arguments. *)
Lemma py_max_case a b :
  (py_max a b = a ∧ score_le b a) ∨ (py_max a b = b ∧ score_lt a b).
Proof.
  unfold py_max. destruct (score_ltb a b) eqn:E.
  - right. split; [done|]. by apply score_ltb_lt.
  - left. split; [done|]. by apply score_ltb_nlt.
Qed.

Lemma py_min_case a b :
  (py_min a b = a ∧ score_le a b) ∨ (py_min a b = b ∧ score_lt b a).
Proof.
  unfold py_min. destruct (score_ltb b a) eqn:E.
  - right. split; [done|]. by apply score_ltb_lt.
  - left. split; [done|]. by apply score_ltb_nlt.
Qed.

(** Replace every [max] and [min] by the argument it returns. *)
Ltac max_min_cases :=
  repeat match goal with
         | |- context [py_max ?a ?b] =>
             let E := fresh "E" in
             destruct (py_max_case a b) as [[E ?]|[E ?]]; rewrite !E in *; clear E
         | H : context [py_max ?a ?b] |- _ =>
             let E := fresh "E" in
             destruct (py_max_case a b) as [[E ?]|[E ?]]; rewrite !E in *; clear E
         | |- context [py_min ?a ?b] =>
             let E := fresh "E" in
             destruct (py_min_case a b) as [[E ?]|[E ?]]; rewrite !E in *; clear E
         | H : context [py_min ?a ?b] |- _ =>
             let E := fresh "E" in
             destruct (py_min_case a b) as [[E ?]|[E ?]]; rewrite !E in *; clear E
         end.

Ltac agree_cases :=
  repeat match goal with
         | H : agree _ _ _ _ |- _ => destruct H as [[? ?]|[[? ?]|?]]
         end.

Ltac solve_agree :=
  first [ order
        | left; split; order
        | right; left; split; order
        | right; right; order ].

(** One iteration of the maximizing layer: [value] and [alpha] of the
    code against the running maximum [valf] of the unpruned search. *)
Lemma max_step_break alpha0 beta val a r v :
  score_lt a beta → score_eq a (py_max alpha0 val) → agree a beta r v →
  score_le beta (py_max a (py_max val r)) →
  score_le beta (py_max val r) ∧ score_le beta v.
Proof. intros ? ? ? ?. max_min_cases; agree_cases; split; order. Qed.

Lemma max_step_alpha alpha0 val a r :
  score_eq a (py_max alpha0 val) →
  score_eq (py_max a (py_max val r)) (py_max alpha0 (py_max val r)).
Proof. intros ?. max_min_cases; order. Qed.

Lemma max_step_agree alpha0 beta val a valf r v :
  score_lt a beta → score_eq a (py_max alpha0 val) →
  agree alpha0 beta val valf → agree a beta r v →
  score_lt (py_max a (py_max val r)) beta →
  agree alpha0 beta (py_max val r) (py_max valf v).
Proof.
  intros ? ? ? ? ?. max_min_cases; agree_cases; unfold agree; solve_agree.
Qed.

(** One iteration of the minimizing layer, likewise. *)
Lemma min_step_break alpha beta0 value bc r v :
  score_lt alpha bc → score_eq bc (py_min beta0 value) → agree alpha bc r v →
  score_le (py_min bc (py_min value r)) alpha →
  score_le (py_min value r) alpha ∧ score_le v alpha.
Proof. intros ? ? ? ?. max_min_cases; agree_cases; split; order. Qed.

Lemma min_step_beta beta0 value bc r :
  score_eq bc (py_min beta0 value) →
  score_eq (py_min bc (py_min value r)) (py_min beta0 (py_min value r)).
Proof. intros ?. max_min_cases; order. Qed.

Lemma min_step_agree alpha beta0 value bc valf r v :
  score_lt alpha bc → score_eq bc (py_min beta0 value) →
  agree alpha beta0 value valf → agree alpha bc r v →
  score_lt alpha (py_min bc (py_min value r)) →
  agree alpha beta0 (py_min value r) (py_min valf v).
Proof.
  intros ? ? ? ? ?. max_min_cases; agree_cases; unfold agree; solve_agree.
Qed.

(** ** The layers of the search against the unpruned layers *)

Lemma bind_Ok {A B} (m : result A) (f : A → result B) y :
  m ≫= f = Ok y ↔ ∃ x, m = Ok x ∧ f x = Ok y.
Proof.
  destruct m as [x| |]; cbn; split; try done.
  - intros H. by exists x.
  - by intros (x' & [= <-] & H).
  - by intros (x' & [=] & _).
  - by intros (x' & [=] & _).
Qed.

(** The unpruned layers only raise their running value (maximizing) or
    lower it (minimizing). *)
Lemma full_max_layer_ge child b bot cols valf n V m :
  full_max_layer child b bot cols valf n = Ok (V, m) → score_le valf V.
Proof.
  revert valf n. induction cols as [|col rest IH]; intros valf n; simpl.
  - intros [= <- <-]. order.
  - intros (row & _ & ([v n1] & _ & Hrest)%bind_Ok)%bind_Ok.
    apply IH in Hrest. pose proof (score_le_max_l valf v). order.
Qed.

Lemma full_min_opponents_le child b row col opps valf n V m :
  full_min_opponents child b row col opps valf n = Ok (V, m) → score_le V valf.
Proof.
  revert valf n. induction opps as [|opp rest IH]; intros valf n; simpl.
  - intros [= <- <-]. order.
  - intros ([v n1] & _ & Hrest)%bind_Ok.
    apply IH in Hrest. pose proof (score_le_min_l valf v). order.
Qed.

Lemma full_min_layer_le child b opps cols valf n V m :
  full_min_layer child b opps cols valf n = Ok (V, m) → score_le V valf.
Proof.
  revert valf n. induction cols as [|col rest IH]; intros valf n; simpl.
  - intros [= <- <-]. order.
  - intros (row & _ & ([v n1] & Hin & Hrest)%bind_Ok)%bind_Ok.
    apply IH in Hrest. apply full_min_opponents_le in Hin. order.
Qed.

Section pruning.
Context (child : board → score → score → Z * Z → nat → result (score * nat)).
Context (child_full : board → Z * Z → nat → result (score * nat)).

(** The recursive calls: where the unpruned search returns [v], the
    search with a window returns a result that stands for [v]. *)
Hypothesis child_agree : ∀ b alpha beta move n n' v m',
  score_lt alpha beta → child_full b move n' = Ok (v, m') →
  ∃ r m, child b alpha beta move n = Ok (r, m) ∧ agree alpha beta r v.

Context (b : board) (bot : player) (opponents : list player).

Lemma max_layer_agree alpha0 beta cols : ∀ val a valf n n' V m',
  score_lt a beta → score_eq a (py_max alpha0 val) →
  agree alpha0 beta val valf →
  full_max_layer child_full b bot cols valf n' = Ok (V, m') →
  ∃ R m, max_layer child b bot beta cols val a n = Ok (R, m) ∧
         agree alpha0 beta R V.
Proof using child_agree.
  induction cols as [|col rest IH]; intros val a valf n n' V m' Hlt Ha Hval; simpl.
  - intros [= <- <-]. eauto.
  - intros (row & Hrow & ([v n1] & Hchild & Hrest)%bind_Ok)%bind_Ok.
    rewrite Hrow. cbn.
    destruct (child_agree _ a beta (row, col) n _ _ _ Hlt Hchild) as (r & m1 & -> & Hr).
    cbn. destruct (score_leb beta (py_max a (py_max val r))) eqn:Hbreak.
    + apply score_leb_le in Hbreak. eexists _, _. split; [done|].
      destruct (max_step_break _ _ _ _ _ _ Hlt Ha Hr Hbreak) as [? ?].
      apply full_max_layer_ge in Hrest. pose proof (score_le_max_r valf v).
      right. left. split; order.
    + apply score_leb_nle in Hbreak.
      eapply IH; [exact Hbreak| | |exact Hrest].
      * by apply max_step_alpha.
      * exact (max_step_agree _ _ _ _ _ _ _ Hlt Ha Hval Hr Hbreak).
Qed.

Lemma min_opponents_agree alpha beta0 row col opps : ∀ value bc valf n n' V m',
  score_lt alpha bc → score_eq bc (py_min beta0 value) →
  agree alpha beta0 value valf →
  full_min_opponents child_full b row col opps valf n' = Ok (V, m') →
  ∃ value' bc' m,
    min_opponents child b alpha row col opps value bc n = Ok (value', bc', m) ∧
    ((score_le bc' alpha ∧ score_le value' alpha ∧ score_le V alpha) ∨
     (score_lt alpha bc' ∧ score_eq bc' (py_min beta0 value') ∧
      agree alpha beta0 value' V)).
Proof using child_agree.
  induction opps as [|opp rest IH]; intros value bc valf n n' V m' Hlt Hb Hval; simpl.
  - intros [= <- <-]. eexists _, _, _. split; [done|]. right. done.
  - intros ([v n1] & Hchild & Hrest)%bind_Ok.
    destruct (child_agree _ alpha bc (row, col) n _ _ _ Hlt Hchild) as (r & m1 & -> & Hr).
    cbn. change (if score_ltb r value then r else value) with (py_min value r).
    destruct (score_leb (py_min bc (py_min value r)) alpha) eqn:Hbreak.
    + apply score_leb_le in Hbreak. eexists _, _, _. split; [done|]. left.
      destruct (min_step_break _ _ _ _ _ _ Hlt Hb Hr Hbreak) as [? ?].
      apply full_min_opponents_le in Hrest. pose proof (score_le_min_r valf v).
      split; [done|]. split; [done|]. order.
    + apply score_leb_nle in Hbreak.
      eapply IH; [exact Hbreak| | |exact Hrest].
      * by apply min_step_beta.
      * exact (min_step_agree _ _ _ _ _ _ _ Hlt Hb Hval Hr Hbreak).
Qed.

Lemma min_layer_agree alpha beta0 cols : ∀ value bc valf n n' V m',
  score_lt alpha bc → score_eq bc (py_min beta0 value) →
  agree alpha beta0 value valf →
  full_min_layer child_full b opponents cols valf n' = Ok (V, m') →
  ∃ R m, min_layer child b opponents alpha cols value bc n = Ok (R, m) ∧
         agree alpha beta0 R V.
Proof using child_agree.
  induction cols as [|col rest IH]; intros value bc valf n n' V m' Hlt Hb Hval; simpl.
  - intros [= <- <-]. eauto.
  - intros (row & Hrow & ([Vin n1] & Hin & Hrest)%bind_Ok)%bind_Ok.
    rewrite Hrow. cbn.
    destruct (min_opponents_agree alpha beta0 row col opponents value bc valf
                n _ _ _ Hlt Hb Hval Hin) as (value' & bc' & m & -> & Hpost).
    cbn. destruct Hpost as [(Hbreak & Hv & HV)|(Hgo & Hb' & Hval')].
    + apply score_leb_le in Hbreak as Hbreak'. rewrite Hbreak'.
      eexists _, _. split; [done|].
      apply full_min_layer_le in Hrest. left. split; order.
    + apply score_leb_nle in Hgo as Hgo'. rewrite Hgo'.
      eapply IH; eauto.
Qed.
End pruning.

Lemma py_max_NegInf a : py_max a NegInf = a.
Proof. by destruct a. Qed.

Lemma py_min_PosInf a : py_min a PosInf = a.
Proof. by destruct a. Qed.

(** ** Alpha-beta pruning against the unpruned search *)

(** Where the unpruned search returns the value [v], [minimax] with the
    window [(alpha, beta)] returns a result that stands for [v]. *)
Lemma minimax_agree fuel : ∀ b depth maximizing bot opps alpha beta last n n' v m',
  score_lt alpha beta →
  full_minimax fuel b depth maximizing bot opps last n' = Ok (v, m') →
  ∃ r m, minimax fuel b depth maximizing bot opps alpha beta last n = Ok (r, m) ∧
         agree alpha beta r v.
Proof.
  induction fuel as [|fuel IH];
    intros b depth maximizing bot opps alpha beta last n n' v m' Hlt; [done|].
  cbn [minimax full_minimax].
  destruct (terminal_score b bot depth last) as [s|].
  { intros [= <- <-]. eexists _, _. split; [done|]. apply agree_refl. }
  destruct ((depth =? 0) || board_is_full b).
  { intros [= <- <-]. eexists _, _. split; [done|]. apply agree_refl. }
  destruct (valid_columns b) as [|c cols] eqn:Hcols.
  { intros [= <- <-]. eexists _, _. split; [done|]. apply agree_refl. }
  destruct maximizing.
  - apply max_layer_agree with (alpha0 := alpha).
    + intros b' a' b'' move k k' v' j' Hlt'. apply IH. exact Hlt'.
    + exact Hlt.
    + rewrite py_max_NegInf. reflexivity.
    + apply agree_refl.
  - apply min_layer_agree with (beta0 := beta).
    + intros b' a' b'' move k k' v' j' Hlt'. apply IH. exact Hlt'.
    + exact Hlt.
    + rewrite py_min_PosInf. reflexivity.
    + apply agree_refl.
Qed.

(** With the window [(-inf, +inf)] the result is the value. *)
Lemma minimax_exact fuel b depth maximizing bot opps last n n' v m' :
  full_minimax fuel b depth maximizing bot opps last n' = Ok (v, m') →
  ∃ r m, minimax fuel b depth maximizing bot opps NegInf PosInf last n = Ok (r, m) ∧
         score_eq r v.
Proof.
  intros Hfull.
  destruct (minimax_agree fuel b depth maximizing bot opps NegInf PosInf last
              n n' v m' I Hfull) as (r & m & Hr & Hagree).
  exists r, m. split; [done|]. by apply agree_unbounded.
Qed.

(** ** The search returns *)

Lemma elem_of_valid_columns b c :
  c ∈ valid_columns b ↔ 0 ≤ c < COLS ∧ ∃ row, find_drop_row b c = Some row.
Proof.
  unfold valid_columns. rewrite list_elem_of_In, filter_In, <- list_elem_of_In.
  rewrite elem_of_py_range, negb_true_iff, bool_decide_eq_false.
  destruct (find_drop_row b c) as [row|]; split; intros [? H]; split; eauto.
  - by destruct H.
  - by destruct H.
Qed.

Lemma get_None_lookup b r c :
  wf_board b → in_bounds r c = true → get b r c = None →
  ∃ cells, b !! Z.to_nat r = Some cells ∧ cells !! Z.to_nat c = Some None.
Proof.
  intros Hwf [Hr Hc]%in_bounds_true Hget.
  destruct (wf_board_lookup b r Hwf Hr) as (cells & Hcells & Hlen).
  exists cells. split; [done|]. unfold get in Hget. rewrite Hcells in Hget.
  cbn in Hget.
  destruct (lookup_lt_is_Some_2 cells (Z.to_nat c)) as [x Hx]; [unfold COLS in *; lia|].
  rewrite Hx in Hget. cbn in Hget. by subst.
Qed.

Lemma free_row_insert (cells : list (option string)) j p :
  cells !! j = Some None →
  S (length (List.filter is_none (<[j := Some p]> cells))) =
  length (List.filter is_none cells).
Proof.
  revert j. induction cells as [|x cells IH]; intros j; [done|].
  destruct j as [|j]; cbn.
  - intros [= ->]. reflexivity.
  - intros Hj. destruct (is_none x); cbn; by rewrite IH.
Qed.

Lemma free_cells_cons cells (b : list (list (option string))) :
  free_cells (cells :: b) = (length (List.filter is_none cells) + free_cells b)%nat.
Proof. unfold free_cells. cbn. by rewrite List.filter_app, length_app. Qed.

Lemma free_cells_alter (b : list (list (option string))) i j cells p :
  b !! i = Some cells → cells !! j = Some None →
  S (free_cells (alter (λ r, <[j := Some p]> r) i b)) = free_cells b.
Proof.
  revert i. induction b as [|x b IH]; intros i; [done|].
  destruct i as [|i]; cbn [lookup list_lookup alter list_alter].
  - intros [= ->] Hj. rewrite !free_cells_cons, <- (free_row_insert cells j p Hj). lia.
  - intros Hi Hj. rewrite !free_cells_cons, <- (IH i Hi Hj). lia.
Qed.

(** A disc dropped into a valid column takes one empty cell. *)
Lemma free_cells_place_disc b row col p :
  wf_board b → 0 ≤ col < COLS → find_drop_row b col = Some row →
  S (free_cells (place_disc b row col p)) = free_cells b.
Proof.
  intros Hwf Hc (Hr & Hget & _)%find_drop_row_Some.
  destruct (get_None_lookup b row col Hwf) as (cells & Hcells & Hcell);
    [apply in_bounds_true; lia|done|].
  by eapply free_cells_alter.
Qed.

Section full_layers_return.
Context (child : board → Z * Z → nat → result (score * nat)).
Context (b : board).

(** The recursive calls return, on every board made by a disc dropped
    into a valid column, a value above [-inf]. *)
Hypothesis child_total : ∀ row col p move n,
  0 ≤ col < COLS → find_drop_row b col = Some row →
  ∃ v m, child (place_disc b row col p) move n = Ok (v, m) ∧ score_lt NegInf v.

Lemma full_max_layer_total bot cols : ∀ valf n,
  Forall (λ c, c ∈ valid_columns b) cols →
  ∃ V m, full_max_layer child b bot cols valf n = Ok (V, m) ∧
         (cols ≠ [] ∨ score_lt NegInf valf → score_lt NegInf V).
Proof using child_total.
  induction cols as [|col rest IH]; intros valf n Hcols; simpl.
  - eexists _, _. split; [done|]. intros [?|?]; done.
  - apply Forall_cons in Hcols as [[Hc [row Hrow]]%elem_of_valid_columns Hrest].
    rewrite Hrow. cbn.
    destruct (child_total row col bot (row, col) n Hc Hrow) as (v & m & -> & Hv).
    cbn. destruct (IH (py_max valf v) m Hrest) as (V & m' & -> & HV).
    eexists _, _. split; [done|]. intros _. apply HV. right.
    pose proof (score_le_max_r valf v). order.
Qed.

Lemma full_min_opponents_total row col opps : ∀ valf n,
  0 ≤ col < COLS → find_drop_row b col = Some row →
  ∃ V m, full_min_opponents child b row col opps valf n = Ok (V, m) ∧
         (score_lt NegInf valf → score_lt NegInf V).
Proof using child_total.
  intros valf n Hc Hrow. revert valf n.
  induction opps as [|opp rest IH]; intros valf n; simpl.
  - eexists _, _. done.
  - destruct (child_total row col opp (row, col) n Hc Hrow) as (v & m & -> & Hv).
    cbn. destruct (IH (py_min valf v) m) as (V & m' & -> & HV).
    eexists _, _. split; [done|]. intros Hvalf. apply HV.
    destruct (py_min_case valf v) as [[-> _]|[-> _]]; done.
Qed.

Lemma full_min_layer_total opps cols : ∀ valf n,
  Forall (λ c, c ∈ valid_columns b) cols →
  ∃ V m, full_min_layer child b opps cols valf n = Ok (V, m) ∧
         (score_lt NegInf valf → score_lt NegInf V).
Proof using child_total.
  induction cols as [|col rest IH]; intros valf n Hcols; simpl.
  - eexists _, _. done.
  - apply Forall_cons in Hcols as [[Hc [row Hrow]]%elem_of_valid_columns Hrest].
    rewrite Hrow. cbn.
    destruct (full_min_opponents_total row col opps valf n Hc Hrow)
      as (Vin & m & -> & HVin).
    cbn. destruct (IH Vin m Hrest) as (V & m' & -> & HV).
    eexists _, _. split; [done|]. intros Hvalf. apply HV, HVin, Hvalf.
Qed.
End full_layers_return.

Lemma valid_columns_Forall b : Forall (λ c, c ∈ valid_columns b) (valid_columns b).
Proof. by apply Forall_forall. Qed.

(** The unpruned search returns, with a value above [-inf], on every
    board of the data model once the fuel exceeds the number of empty
    cells. *)
Lemma terminal_score_finite b bot depth last s :
  terminal_score b bot depth last = Some s → score_lt NegInf s.
Proof.
  unfold terminal_score. destruct last as [[r c]|]; [|done].
  destruct (check_win b r c CONNECT_N); [|done].
  destruct (cell_is (get b r c) bot); by intros [= <-].
Qed.

Lemma full_minimax_total fuel : ∀ b depth maximizing bot opps last n,
  wf_board b → (free_cells b < fuel)%nat →
  ∃ v m, full_minimax fuel b depth maximizing bot opps last n = Ok (v, m) ∧
         score_lt NegInf v.
Proof.
  induction fuel as [|fuel IH]; intros b depth maximizing bot opps last n Hwf Hfuel;
    [lia|].
  cbn [full_minimax].
  destruct (terminal_score b bot depth last) as [s|] eqn:Hterm.
  { eexists _, _. split; [done|]. by eapply terminal_score_finite. }
  destruct ((depth =? 0) || board_is_full b); [by eexists _, _|].
  pose proof (valid_columns_Forall b) as Hall.
  destruct (valid_columns b) as [|c0 cols] eqn:Hcols; [by eexists _, _|].
  rewrite <- Hcols in *. clear Hterm.
  assert (∀ mx row col p move k,
            0 ≤ col < COLS → find_drop_row b col = Some row →
            ∃ v m, full_minimax fuel (place_disc b row col p) (depth - 1) mx
                                bot opps (Some move) k = Ok (v, m) ∧
                   score_lt NegInf v) as Hchild.
  { intros mx row col p move k Hc Hrow. apply IH; [by apply wf_place_disc|].
    pose proof (free_cells_place_disc b row col p Hwf Hc Hrow). lia. }
  destruct maximizing.
  - destruct (full_max_layer_total
                (λ b' move k, full_minimax fuel b' (depth - 1) false bot opps (Some move) k)
                b (Hchild false) bot (valid_columns b) NegInf (S n) Hall)
      as (V & m & HV & Hgt).
    eexists _, _. split; [exact HV|]. apply Hgt. left. by rewrite Hcols.
  - destruct (full_min_layer_total
                (λ b' move k, full_minimax fuel b' (depth - 1) true bot opps (Some move) k)
                b (Hchild true) opps (valid_columns b) PosInf (S n) Hall)
      as (V & m & HV & Hgt).
    eexists _, _. split; [exact HV|]. by apply Hgt.
Qed.

Lemma length_concat_rows (b : list (list (option string))) k :
  Forall (λ row, length row = k) b → length (concat b) = (length b * k)%nat.
Proof.
  induction 1 as [|row b Hrow _ IH]; [done|]. cbn. rewrite length_app, IH, Hrow. lia.
Qed.

Lemma wf_free_cells b : wf_board b → (free_cells b < search_fuel)%nat.
Proof.
  intros [Hlen Hrows]. unfold free_cells.
  pose proof (List.filter_length_le is_none (concat b)) as Hle.
  rewrite (length_concat_rows b _ Hrows), Hlen in Hle.
  change search_fuel with 101%nat. change (Z.to_nat ROWS) with 10%nat in Hle.
  change (Z.to_nat COLS) with 10%nat in Hle. lia.
Qed.

(** [minimax] returns on every board of the data model, for every depth
    and every window: the fuel of [choose_best_move] is never used up. *)
Lemma minimax_returns b depth maximizing bot opps alpha beta last n :
  wf_board b → score_lt alpha beta →
  ∃ r m, minimax search_fuel b depth maximizing bot opps alpha beta last n = Ok (r, m).
Proof.
  intros Hwf Hlt.
  destruct (full_minimax_total search_fuel b depth maximizing bot opps last O Hwf
              (wf_free_cells b Hwf)) as (v & m' & Hfull & _).
  destruct (minimax_agree _ _ _ _ _ _ alpha beta _ n _ _ _ Hlt Hfull)
    as (r & m & Hr & _).
  eauto.
Qed.

(** ** The loop of [choose_best_move] *)

Section root_agree.
Context (child child_full : board → Z * Z → nat → result (score * nat)).
Context (b : board) (bot : player).

Hypothesis child_exact : ∀ b' move n n' v m',
  child_full b' move n' = Ok (v, m') →
  ∃ r m, child b' move n = Ok (r, m) ∧ score_eq r v.

(** Two runs of the loop whose recursive calls return equal scores keep
    the same move and equal scores. *)
Lemma root_loop_agree cols : ∀ best bestf mv n n' Bf mvf m',
  score_eq best bestf →
  root_loop child_full b bot cols bestf mv n' = Ok (Bf, mvf, m') →
  ∃ B m, root_loop child b bot cols best mv n = Ok (B, mvf, m) ∧ score_eq B Bf.
Proof using child_exact.
  induction cols as [|col rest IH]; intros best bestf mv n n' Bf mvf m' Hbest; simpl.
  - intros [= <- <- <-]. eauto.
  - intros (row & Hrow & ([v n1] & Hchild & Hrest)%bind_Ok)%bind_Ok.
    rewrite Hrow. cbn.
    destruct (child_exact _ (row, col) n _ _ _ Hchild) as (r & m1 & -> & Hr).
    cbn. rewrite (score_ltb_proper best bestf r v Hbest Hr).
    destruct (score_ltb bestf v); eapply IH; eauto.
Qed.
End root_agree.

Section root_first_max.
Context (child : board → Z * Z → nat → result (score * nat)).
Context (b : board) (bot : player) (value : Z → score).

(** The recursive call for a valid column returns the value of the
    column, which is above [-inf]. *)
Hypothesis child_value_ok : ∀ col row n,
  col ∈ valid_columns b → find_drop_row b col = Some row →
  ∃ s m, child (place_disc b row col bot) (row, col) n = Ok (s, m) ∧
         score_eq s (value col) ∧ score_lt NegInf s.

Lemma root_loop_first_max cols : ∀ seen best mv n,
  Forall (λ c, c ∈ valid_columns b) cols →
  first_max b value seen best mv →
  ∃ B mvB m, root_loop child b bot cols best mv n = Ok (B, mvB, m) ∧
             first_max b value (seen ++ cols) B mvB.
Proof using child_value_ok.
  induction cols as [|col rest IH]; intros seen best mv n Hcols Hstate; simpl.
  - rewrite app_nil_r. eauto.
  - apply Forall_cons in Hcols as [Hcol Hrest].
    pose proof Hcol as [_ [row Hrow]]%elem_of_valid_columns.
    rewrite Hrow. cbn.
    destruct (child_value_ok col row n Hcol Hrow) as (s & m & -> & Hs & Hfin).
    cbn. replace (seen ++ col :: rest) with ((seen ++ [col]) ++ rest)
      by (by rewrite <- app_assoc).
    destruct (score_ltb best s) eqn:Hlt.
    + apply score_ltb_lt in Hlt. apply IH; [done|]. unfold first_max.
      split; [done|]. split; [done|]. exists seen, []. split; [done|].
      split; [|constructor].
      destruct mv as [[r c]|]; cbn in Hstate.
      * destruct Hstate as (_ & Hbest & before & after & -> & Hbefore & Hafter).
        apply Forall_app. split; [|constructor].
        -- eapply Forall_impl; [exact Hbefore|]. intros c' Hc'. cbn in Hc'. order.
        -- order.
        -- eapply Forall_impl; [exact Hafter|]. intros c' Hc'. cbn in Hc'. order.
      * destruct Hstate as [_ ->]. constructor.
    + apply score_ltb_nlt in Hlt. apply IH; [done|].
      destruct mv as [[r c]|]; cbn in Hstate |- *.
      * destruct Hstate as (Hr & Hbest & before & after & -> & Hbefore & Hafter).
        split; [done|]. split; [done|]. exists before, (after ++ [col]).
        split; [by rewrite <- app_assoc|]. split; [done|].
        apply Forall_app. split; [done|]. constructor; [|constructor]. order.
      * destruct Hstate as [-> _]. exfalso. order.
Qed.
End root_first_max.

Lemma StronglySorted_filter {A} (R : A → A → Prop) (f : A → bool) l :
  StronglySorted R l → StronglySorted R (List.filter f l).
Proof.
  induction 1 as [|x l Hl IH Hx]; cbn; [constructor|].
  destruct (f x); [|done]. constructor; [done|].
  apply Forall_forall. intros y Hy%list_elem_of_In%filter_In.
  rewrite Forall_forall in Hx. apply Hx, list_elem_of_In. tauto.
Qed.

(** The columns are visited in the order 0..9. *)
Lemma valid_columns_sorted b : StronglySorted Z.lt (valid_columns b).
Proof.
  apply StronglySorted_filter. vm_compute py_range.
  repeat (constructor; [|repeat constructor; lia]). constructor.
Qed.

Lemma sorted_before (l before after : list Z) c c' :
  StronglySorted Z.lt l → l = before ++ c :: after → c' ∈ l → c' < c →
  c' ∈ before.
Proof.
  intros Hsorted -> Hin Hlt.
  apply elem_of_app in Hin as [Hin|Hin]; [done|]. exfalso.
  apply StronglySorted_app_1_r in Hsorted.
  apply StronglySorted_inv in Hsorted as [_ Hafter].
  apply elem_of_cons in Hin as [->|Hin]; [lia|].
  rewrite Forall_forall in Hafter. specialize (Hafter c' Hin). lia.
Qed.

Section choose.
Context (set_order : list player → list player).
Context (b : board) (bot : player) (opponent_ids : option (list player)).
Context (depth : Z).

Let opponents := resolve_opponents set_order b bot opponent_ids.

(** The recursive call of [choose_best_move] for a valid column returns
    the value of the column, whatever the node counter it starts
    from. *)
Lemma child_value_ok col row n :
  wf_board b → col ∈ valid_columns b → find_drop_row b col = Some row →
  ∃ s m, minimax search_fuel (place_disc b row col bot) (depth - 1) false bot
                 opponents NegInf PosInf (Some (row, col)) n = Ok (s, m) ∧
         score_eq s (default NegInf
                       (child_value set_order b bot opponent_ids depth col)) ∧
         score_lt NegInf s.
Proof.
  intros Hwf Hcol Hrow.
  destruct (full_minimax_total search_fuel (place_disc b row col bot) (depth - 1)
              false bot opponents (Some (row, col)) O) as (v & m' & Hfull & Hv).
  { by apply wf_place_disc. }
  { by apply wf_free_cells, wf_place_disc. }
  destruct (minimax_exact _ _ _ _ _ _ _ n _ _ _ Hfull) as (s & m & Hs & Hsv).
  destruct (minimax_exact _ _ _ _ _ _ _ O _ _ _ Hfull) as (s0 & m0 & Hs0 & Hsv0).
  exists s, m. split; [done|]. unfold child_value. rewrite Hrow.
  fold opponents. rewrite Hs0. cbn [from_option id]. split; order.
Qed.

Lemma child_value_Some col :
  wf_board b → col ∈ valid_columns b →
  ∃ s, child_value set_order b bot opponent_ids depth col = Some s.
Proof.
  intros Hwf Hcol. pose proof Hcol as [_ [row Hrow]]%elem_of_valid_columns.
  destruct (full_minimax_total search_fuel (place_disc b row col bot) (depth - 1)
              false bot opponents (Some (row, col)) O) as (v & m' & Hfull & Hv).
  { by apply wf_place_disc. }
  { by apply wf_free_cells, wf_place_disc. }
  destruct (minimax_exact _ _ _ _ _ _ _ O _ _ _ Hfull) as (s0 & m0 & Hs0 & Hsv0).
  exists s0. unfold child_value. rewrite Hrow. fold opponents. by rewrite Hs0.
Qed.

(** [choose_best_move] returns the first column of the maximum value. *)
Lemma choose_best_move_first_max :
  wf_board b → valid_columns b ≠ [] →
  ∃ res, choose_best_move set_order b bot opponent_ids depth = Ok res ∧
         depth_of res = depth ∧
         first_max b (λ c, default NegInf
                             (child_value set_order b bot opponent_ids depth c))
                   (valid_columns b) (score_of res) (Some (row res, column res)).
Proof.
  intros Hwf Hne. unfold choose_best_move, choose_best_move_fuel.
  fold opponents.
  destruct (root_loop_first_max
              (λ b' move nodes, minimax search_fuel b' (depth - 1) false bot
                                        opponents NegInf PosInf (Some move) nodes)
              b bot
              (λ c, default NegInf (child_value set_order b bot opponent_ids depth c))
              (λ col row n, child_value_ok col row n Hwf)
              (valid_columns b) [] NegInf None O (valid_columns_Forall b))
    as (B & mvB & m & Hloop & Hmax); [done|].
  destruct (valid_columns b) as [|c0 cols] eqn:Hcols; [done|].
  rewrite Hloop. cbn. destruct mvB as [[r c]|].
  - eexists. split; [done|]. split; [done|]. exact Hmax.
  - destruct Hmax as [_ Hnil]. done.
Qed.
End choose.

(** C2. For every board with at least one playable column and every
    depth of at least 1, [choose_best_move] returns: a valid column, with
    the drop row of that column, whose value is the score returned, is
    the maximum of the values of the valid columns, and is strictly
    above the value of every valid column of lower index (the first
    column of the maximum value, in the order 0..9). *)
Theorem choose_best_move_spec set_order b bot opponent_ids depth :
  wf_board b → valid_columns b ≠ [] → 1 ≤ depth →
  ∃ res,
    choose_best_move set_order b bot opponent_ids depth = Ok res ∧
    column res ∈ valid_columns b ∧
    find_drop_row b (column res) = Some (row res) ∧
    depth_of res = depth ∧
    (∃ s, child_value set_order b bot opponent_ids depth (column res) = Some s ∧
          score_eq (score_of res) s) ∧
    (∀ c, c ∈ valid_columns b →
       ∃ s, child_value set_order b bot opponent_ids depth c = Some s ∧
            score_le s (score_of res) ∧
            (c < column res → score_lt s (score_of res))).
Proof.
  intros Hwf Hne _.
  destruct (choose_best_move_first_max set_order b bot opponent_ids depth Hwf Hne)
    as (res & Hres & Hdepth & Hrow & Hbest & before & after & Hcols & Hbefore & Hafter).
  exists res. split; [done|].
  assert (column res ∈ valid_columns b) as Hin.
  { rewrite Hcols. apply elem_of_app. right. left. }
  split; [done|]. split; [done|]. split; [done|]. split.
  - destruct (child_value_Some set_order b bot opponent_ids depth (column res) Hwf Hin)
      as [s Hs].
    exists s. split; [done|]. by rewrite Hs in Hbest.
  - intros c Hc.
    destruct (child_value_Some set_order b bot opponent_ids depth c Hwf Hc) as [s Hs].
    exists s. split; [done|].
    rewrite Forall_forall in Hbefore. rewrite Forall_forall in Hafter.
    split.
    + pose proof Hc as Hc'. rewrite Hcols in Hc'.
      apply elem_of_app in Hc' as [Hc'|Hc'].
      * specialize (Hbefore c Hc'). cbn [from_option id] in Hbefore. rewrite Hs in Hbefore.
        cbn [from_option id] in Hbefore. order.
      * apply elem_of_cons in Hc' as [->|Hc'].
        -- rewrite Hs in Hbest. cbn [from_option id] in Hbest. order.
        -- specialize (Hafter c Hc'). cbn [from_option id] in Hafter. rewrite Hs in Hafter. done.
    + intros Hlt.
      pose proof (sorted_before _ _ _ _ _ (valid_columns_sorted b) Hcols Hc Hlt) as Hc'.
      specialize (Hbefore c Hc'). cbn [from_option id] in Hbefore. rewrite Hs in Hbefore. done.
Qed.

Section root_total.
Context (child : board → Z * Z → nat → result (score * nat)).
Context (b : board) (bot : player).

Hypothesis child_ok : ∀ col row n,
  col ∈ valid_columns b → find_drop_row b col = Some row →
  ∃ s m, child (place_disc b row col bot) (row, col) n = Ok (s, m).

Lemma root_loop_total cols : ∀ best mv n,
  Forall (λ c, c ∈ valid_columns b) cols →
  ∃ B mvB m, root_loop child b bot cols best mv n = Ok (B, mvB, m).
Proof using child_ok.
  induction cols as [|col rest IH]; intros best mv n Hcols; simpl; [eauto|].
  apply Forall_cons in Hcols as [Hcol Hrest].
  pose proof Hcol as [_ [row Hrow]]%elem_of_valid_columns.
  rewrite Hrow. cbn. destruct (child_ok col row n Hcol Hrow) as (s & m & ->).
  cbn. destruct (score_ltb best s); by apply IH.
Qed.
End root_total.

(** C1. For every board and every depth, [choose_best_move] with its
    alpha-beta pruning and the unpruned full search of the same tree both
    return, with equal scores (and the same column and row), or both
    raise the same error, which they do exactly when no column is
    playable; the node counts are left open. *)
Theorem alpha_beta_equivalence set_order b bot opponent_ids depth :
  wf_board b →
  match choose_best_move set_order b bot opponent_ids depth,
        full_search set_order b bot opponent_ids depth with
  | Ok res, Ok full =>
      score_eq (score_of res) (score_of full) ∧
      column res = column full ∧ row res = row full ∧
      depth_of res = depth_of full
  | Raise e, Raise e' => e = e' ∧ valid_columns b = []
  | _, _ => False
  end.
Proof.
  intros Hwf. destruct (decide (valid_columns b = [])) as [Hnil|Hne].
  { unfold choose_best_move, choose_best_move_fuel, full_search, full_search_fuel.
    rewrite Hnil. done. }
  destruct (choose_best_move_first_max set_order b bot opponent_ids depth Hwf Hne)
    as (res & Hres & _). rewrite Hres.
  unfold choose_best_move, choose_best_move_fuel in Hres.
  unfold full_search, full_search_fuel.
  set (opponents := resolve_opponents set_order b bot opponent_ids) in *.
  destruct (root_loop_total
              (λ b' move nodes, full_minimax search_fuel b' (depth - 1) false bot
                                             opponents (Some move) nodes)
              b bot) with (cols := valid_columns b) (best := NegInf)
                          (mv := @None (Z * Z)) (n := O)
    as (Bf & mvf & m' & Hfull).
  { intros col row n Hcol Hrow.
    destruct (full_minimax_total search_fuel (place_disc b row col bot) (depth - 1)
                false bot opponents (Some (row, col)) n) as (v & m & Hv & _).
    - by apply wf_place_disc.
    - by apply wf_free_cells, wf_place_disc.
    - eauto. }
  { apply valid_columns_Forall. }
  destruct (root_loop_agree
              (λ b' move nodes, minimax search_fuel b' (depth - 1) false bot
                                        opponents NegInf PosInf (Some move) nodes)
              (λ b' move nodes, full_minimax search_fuel b' (depth - 1) false bot
                                             opponents (Some move) nodes)
              b bot) with (cols := valid_columns b) (best := NegInf) (bestf := NegInf)
                          (mv := @None (Z * Z)) (n := O) (n' := O)
                          (Bf := Bf) (mvf := mvf) (m' := m')
    as (B & m & Hloop & HB).
  { intros b' move n n' v j Hv. by eapply minimax_exact. }
  { reflexivity. }
  { exact Hfull. }
  destruct (valid_columns b) as [|c0 cols] eqn:Hcols; [done|].
  rewrite Hloop in Hres. rewrite Hfull. cbn in Hres |- *.
  destruct mvf as [[r c]|]; [|done]. injection Hres as <-. cbn. done.
Qed.

Lemma alpha_beta_equivalence_witness :
  match choose_best_move id sample_board "BOT" None 3,
        full_search id sample_board "BOT" None 3 with
  | Ok res, Ok full =>
      score_eq (score_of res) (score_of full) ∧
      column res = column full ∧ row res = row full ∧
      depth_of res = depth_of full
  | Raise e, Raise e' => e = e' ∧ valid_columns sample_board = []
  | _, _ => False
  end.
Proof.
  apply (alpha_beta_equivalence id sample_board "BOT" None 3). wf_board_compute.
Defined.

Lemma choose_best_move_spec_witness :
  ∃ res,
    choose_best_move id sample_board "BOT" None 2 = Ok res ∧
    column res ∈ valid_columns sample_board ∧
    find_drop_row sample_board (column res) = Some (row res) ∧
    depth_of res = 2 ∧
    (∃ s, child_value id sample_board "BOT" None 2 (column res) = Some s ∧
          score_eq (score_of res) s) ∧
    (∀ c, c ∈ valid_columns sample_board →
       ∃ s, child_value id sample_board "BOT" None 2 c = Some s ∧
            score_le s (score_of res) ∧
            (c < column res → score_lt s (score_of res))).
Proof.
  apply (choose_best_move_spec id sample_board "BOT" None 2).
  - wf_board_compute.
  - vm_compute. discriminate.
  - lia.
Defined.

(** ** The program on sample positions *)

(** At depth 3 on [sample_board] the search with pruning and the search
    without choose column 5 with the score 46.5; the first visits 964
    nodes, the second 2210. *)
Example pruning_visits_fewer_nodes :
  summary (choose_best_move id sample_board "BOT" None 3) = Some (5, 9, 93 # 2, 964%nat) ∧
  summary (full_search id sample_board "BOT" None 3) = Some (5, 9, 93 # 2, 2210%nat).
Proof. split; vm_compute; reflexivity. Qed.

(** On the empty board at depth 2 the bot opens in a centre column. *)
Example opening_move :
  summary (choose_best_move id empty_board "BOT" (Some ["P1"; "P2"]%string) 2)
  = Some (5, 9, 21 # 2, 210%nat).
Proof. vm_compute. reflexivity. Qed.

(** With three bot discs in column 3 the bot completes the line. *)
Example winning_move :
  summary (choose_best_move id win_board "BOT" None 1) = Some (3, 6, 10000%Q, 10%nat) ∧
  summary (choose_best_move id win_board "BOT" None 2) = Some (3, 6, 10001%Q, 190%nat).
Proof. split; vm_compute; reflexivity. Qed.

Example check_win_column :
  check_win (place_disc win_board 6 3 "BOT") 6 3 CONNECT_N = true ∧
  check_win win_board 7 3 CONNECT_N = false ∧
  check_win win_board 0 0 CONNECT_N = false.
Proof. vm_compute. done. Qed.

Example score_window_samples :
  score_window [Some "BOT"; Some "BOT"; Some "BOT"; None]%string "BOT" ["P1"; "P2"] = 50%Q ∧
  score_window [Some "P1"; Some "P1"; None; Some "P2"]%string "BOT" ["P1"; "P2"] = (- 60)%Q ∧
  score_window [Some "BOT"; Some "P1"; None; None]%string "BOT" ["P1"; "P2"] = 0%Q ∧
  score_window [Some "P1"; None; None; None]%string "BOT" ["P1"; "P2"] = 0%Q.
Proof. vm_compute. done. Qed.

(** The full board has no move. *)
Example no_columns_on_full_board :
  let full := replicate 10 (replicate 10 (Some "P1"%string)) in
  choose_best_move id full "BOT" None 4 = Raise (ValueError no_moves_msg).
Proof. vm_compute. reflexivity. Qed.

(** * More of the code *)

(** ** Drops, one after the other *)

Lemma find_drop_row_from_ext b b' c c' rows :
  (∀ r, r ∈ rows → get b r c = get b' r c') →
  find_drop_row_from b c rows = find_drop_row_from b' c' rows.
Proof.
  induction rows as [|r rows IH]; intros Hext; [done|]. simpl.
  rewrite <- (Hext r) by left. destruct (is_none (get b r c)); [done|].
  apply IH. intros r' Hr'. apply Hext. by right.
Qed.

Lemma elem_of_py_range_down r : r ∈ py_range_down (ROWS - 1) ↔ 0 ≤ r < ROWS.
Proof.
  unfold py_range_down. rewrite elem_of_reverse, elem_of_py_range. lia.
Qed.

(** [find_drop_row] reads the cells of its column only. *)
Lemma find_drop_row_ext b b' c c' :
  (∀ r, 0 ≤ r < ROWS → get b r c = get b' r c') →
  find_drop_row b c = find_drop_row b' c'.
Proof.
  intros Hext. apply find_drop_row_from_ext.
  intros r Hr%elem_of_py_range_down. by apply Hext.
Qed.

(** Under gravity the cells above an empty cell are empty. *)
Lemma gravity_above_empty b r c :
  gravity b → 0 ≤ c < COLS → 0 ≤ r < ROWS → get b r c = None →
  ∀ r', 0 ≤ r' ≤ r → get b r' c = None.
Proof.
  intros Hg Hc Hr Hget r' Hr'.
  destruct (get b r' c) as [p|] eqn:Hp; [|done]. exfalso.
  assert (∀ k, 0 ≤ k → r' + k ≤ r → get b (r' + k) c ≠ None) as Hall.
  { intros k Hk. pattern k. apply natlike_ind; [| |done].
    - intros _. replace (r' + 0) with r' by lia. by rewrite Hp.
    - intros x Hx IH Hle. replace (r' + Z.succ x) with (r' + x + 1) by lia.
      apply Hg; [lia..|]. apply IH. lia. }
  apply (Hall (r - r')); [lia|lia|]. replace (r' + (r - r')) with r by lia. done.
Qed.

(** X1. After a disc is dropped into a column (on a board that keeps
    gravity), the next drop into that column lands one row higher, or the
    column is full when the disc went to row 0; the drop row of every
    other column is unchanged. *)
Theorem find_drop_row_after_drop b row col p :
  wf_board b → gravity b → 0 ≤ col < COLS → find_drop_row b col = Some row →
  find_drop_row (place_disc b row col p) col
    = (if row =? 0 then None else Some (row - 1)) ∧
  (∀ c, 0 ≤ c < COLS → c ≠ col →
        find_drop_row (place_disc b row col p) c = find_drop_row b c).
Proof.
  intros Hwf Hg Hcol Hdrop.
  pose proof Hdrop as (Hrow & Hget & Habove)%find_drop_row_Some.
  split.
  - destruct (Z.eqb_spec row 0) as [->|Hne].
    + apply find_drop_row_None. intros r Hr.
      destruct (decide (r = 0)) as [->|Hr0].
      * rewrite get_place_disc_eq; [done|done|reflexivity || (apply in_bounds_true; lia)].
      * rewrite get_place_disc_ne by (lia || congruence). apply Habove. lia.
    + apply find_drop_row_Some. split; [lia|]. split.
      * rewrite get_place_disc_ne by (lia || (intros [=]; lia)).
        apply (gravity_above_empty b row col Hg Hcol Hrow Hget). lia.
      * intros r' Hr'. destruct (decide (r' = row)) as [->|Hr'ne].
        -- rewrite get_place_disc_eq; [done|done|apply in_bounds_true; lia].
        -- rewrite get_place_disc_ne by (lia || congruence). apply Habove. lia.
  - intros c Hc Hne. apply find_drop_row_ext. intros r Hr.
    apply get_place_disc_ne; lia || congruence.
Qed.

Lemma find_drop_row_after_drop_witness :
  find_drop_row (place_disc sample_board 4 3 "P2") 3
    = (if 4 =? 0 then None else Some (4 - 1)) ∧
  (∀ c, 0 ≤ c < COLS → c ≠ 3 →
        find_drop_row (place_disc sample_board 4 3 "P2") c = find_drop_row sample_board c).
Proof.
  apply (find_drop_row_after_drop sample_board 4 3 "P2"%string).
  - wf_board_compute.
  - apply gravity_check_sound. vm_compute. reflexivity.
  - unfold COLS. lia.
  - vm_compute. reflexivity.
Defined.

(** ** [board_is_full] *)

Lemma board_is_full_true b :
  board_is_full b = true ↔ ∀ c, 0 ≤ c < COLS → get b 0 c ≠ None.
Proof.
  unfold board_is_full. rewrite forallb_forall. split.
  - intros H c Hc. apply is_none_false, negb_true_iff, H.
    apply list_elem_of_In, elem_of_py_range. done.
  - intros H c Hc%list_elem_of_In%elem_of_py_range.
    apply negb_true_iff, is_none_false, H. done.
Qed.

Lemma valid_columns_nil b :
  valid_columns b = [] ↔ ∀ c, 0 ≤ c < COLS → find_drop_row b c = None.
Proof.
  split.
  - intros Hnil c Hc. destruct (find_drop_row b c) as [r|] eqn:Hr; [|done].
    exfalso. assert (c ∈ valid_columns b) as Hin.
    { apply elem_of_valid_columns. eauto. }
    rewrite Hnil in Hin. by apply elem_of_nil in Hin.
  - intros Hall. destruct (valid_columns b) as [|c cols] eqn:Hcols; [done|].
    exfalso. assert (c ∈ valid_columns b) as Hin by (rewrite Hcols; left).
    apply elem_of_valid_columns in Hin as [Hc [r Hr]]. rewrite Hall in Hr; done.
Qed.

(** X2. A board without a playable column is full for [board_is_full];
    on a board that keeps gravity the two tests agree: [board_is_full],
    which looks at the top row only, holds exactly when no column is
    playable. *)
Theorem board_is_full_no_columns b :
  wf_board b →
  (valid_columns b = [] → board_is_full b = true) ∧
  (gravity b → board_is_full b = true → valid_columns b = []).
Proof.
  intros _. split.
  - intros Hnil. apply board_is_full_true. intros c Hc.
    rewrite valid_columns_nil in Hnil. specialize (Hnil c Hc).
    rewrite find_drop_row_None in Hnil. apply Hnil. unfold ROWS. lia.
  - intros Hg Hfull. apply valid_columns_nil. intros c Hc.
    apply find_drop_row_None. apply gravity_column_full; [done..|].
    rewrite board_is_full_true in Hfull. by apply Hfull.
Qed.

Lemma board_is_full_no_columns_witness :
  board_is_full full_board = true ∧ valid_columns full_board = [].
Proof.
  split.
  - apply (board_is_full_no_columns full_board); [wf_board_compute|].
    vm_compute. reflexivity.
  - apply (board_is_full_no_columns full_board); [wf_board_compute| |].
    + apply gravity_check_sound. vm_compute. reflexivity.
    + vm_compute. reflexivity.
Defined.

(** ** [infer_opponents] *)

Lemma elem_of_seen_ids b bot p :
  p ∈ seen_ids b bot ↔ p ≠ bot ∧ Some p ∈ concat b.
Proof.
  unfold seen_ids. rewrite elem_of_remove_dups, list_elem_of_omap. split.
  - intros (c & Hc & Hp). destruct c as [q|]; [|done]. cbn in Hp.
    case_bool_decide; [done|]. injection Hp as ->. done.
  - intros [Hne Hin]. exists (Some p). split; [done|]. cbn.
    by rewrite bool_decide_eq_false_2.
Qed.

(** X3. When the board holds a disc of another player than the bot,
    [infer_opponents] returns, each once, the identifiers on the board
    other than the bot's (in the order of Python's set, a permutation);
    when it holds none, it returns P1 and P2, whoever the bot is. *)
Theorem infer_opponents_spec set_order b bot :
  (∀ l, set_order l ≡ₚ l) →
  ((∀ p, Some p ∈ concat b → p = bot) →
   infer_opponents set_order b bot = ["P1"; "P2"]%string) ∧
  ((∃ p, Some p ∈ concat b ∧ p ≠ bot) →
   NoDup (infer_opponents set_order b bot) ∧
   ∀ p, p ∈ infer_opponents set_order b bot ↔ p ≠ bot ∧ Some p ∈ concat b).
Proof.
  intros Hperm. unfold infer_opponents. split.
  - intros Hall. destruct (seen_ids b bot) as [|q l] eqn:Hseen; [done|].
    exfalso. assert (q ∈ seen_ids b bot) as Hq by (rewrite Hseen; left).
    apply elem_of_seen_ids in Hq as [Hne Hin]. by apply Hne, Hall.
  - intros (q & Hq & Hne).
    assert (q ∈ seen_ids b bot) as Hin by (by apply elem_of_seen_ids).
    destruct (seen_ids b bot) as [|q0 l] eqn:Hseen; [by apply elem_of_nil in Hin|].
    rewrite <- Hseen. split.
    + rewrite Hperm. apply NoDup_remove_dups.
    + intros p. rewrite Hperm. apply elem_of_seen_ids.
Qed.

Lemma infer_opponents_spec_witness :
  NoDup (infer_opponents id sample_board "BOT") ∧
  ∀ p, p ∈ infer_opponents id sample_board "BOT" ↔
       p ≠ "BOT"%string ∧ Some p ∈ concat sample_board.
Proof.
  apply (infer_opponents_spec id sample_board "BOT"%string).
  - intros l. reflexivity.
  - exists "P1"%string. split; [|discriminate].
    apply list_elem_of_In. vm_compute. tauto.
Defined.

(** ** [check_win] on the cells of a line *)

Lemma run_through_shift b p row col dr dc lo hi k :
  run_through b p row col dr dc lo hi → lo ≤ k ≤ hi →
  run_through b p (row + k * dr) (col + k * dc) dr dc (lo - k) (hi - k).
Proof.
  intros [Hlohi Hall] Hk. split; [lia|]. intros j Hj.
  replace (row + k * dr + j * dr) with (row + (k + j) * dr) by lia.
  replace (col + k * dc + j * dc) with (col + (k + j) * dc) by lia.
  apply Hall. lia.
Qed.

(** X4. [check_win] does not depend on which disc of a line is asked
    about: when a run of at least [connect_n] discs of a player lies along
    one of the four directions, [check_win] is true at every cell of the
    run. *)
Theorem check_win_on_every_cell b p row col dr dc lo hi connect_n :
  wf_board b → (dr, dc) ∈ directions →
  run_through b p row col dr dc lo hi → connect_n ≤ hi - lo + 1 →
  ∀ k, lo ≤ k ≤ hi → check_win b (row + k * dr) (col + k * dc) connect_n = true.
Proof.
  intros _ Hd Hrun Hn k Hk.
  pose proof (run_through_shift _ _ _ _ _ _ _ _ k Hrun Hk) as Hrun'.
  destruct Hrun as [_ Hall]. destruct (Hall k Hk) as [Hin Hget].
  unfold check_win. rewrite Hget. apply existsb_exists.
  exists (dr, dc). split; [by apply list_elem_of_In|].
  apply Z.leb_le. apply line_count_ge; [by apply directions_unit_step|done|].
  exists (lo - k), (hi - k). split; [done|]. lia.
Qed.

(** X5. [check_win] with a smaller [connect_n] holds wherever it holds
    with a larger one, and with [connect_n] at most 1 it holds at every
    disc. *)
Theorem check_win_connect_n b row col n n' :
  (n' ≤ n → check_win b row col n = true → check_win b row col n' = true) ∧
  (n ≤ 1 → get b row col ≠ None → check_win b row col n = true).
Proof.
  unfold check_win. split.
  - intros Hle. destruct (get b row col) as [p|]; [|done].
    rewrite !existsb_exists. intros ([dr dc] & Hd & Hn%Z.leb_le).
    exists (dr, dc). split; [done|]. apply Z.leb_le. lia.
  - intros Hn Hget. destruct (get b row col) as [p|]; [|done].
    apply existsb_exists. exists (0, 1). split; [left; done|].
    apply Z.leb_le. unfold line_count.
    destruct (extend_run_spec b p 0 1 run_fuel 1 (row + 0) (col + 1))
      as (nf & Hnf & -> & _).
    destruct (extend_run_spec b p (- 0) (- (1)) run_fuel (1 + nf) (row - 0) (col - 1))
      as (nb & Hnb & -> & _).
    lia.
Qed.

Lemma check_win_on_every_cell_witness :
  run_through won_board "BOT" 6 3 1 0 0 3 ∧
  ∀ k, 0 ≤ k ≤ 3 → check_win won_board (6 + k * 1) (3 + k * 0) CONNECT_N = true.
Proof.
  assert (run_through won_board "BOT" 6 3 1 0 0 3) as Hrun.
  { split; [lia|]. intros k Hk.
    assert (k = 0 ∨ k = 1 ∨ k = 2 ∨ k = 3) as [-> | [-> | [-> | ->]]] by lia;
      vm_compute; done. }
  split; [exact Hrun|].
  apply (check_win_on_every_cell won_board "BOT"%string 6 3 1 0 0 3 CONNECT_N).
  - wf_board_compute.
  - right. left.
  - exact Hrun.
  - unfold CONNECT_N. lia.
Defined.

Lemma check_win_connect_n_witness :
  check_win won_board 6 3 3 = true ∧ check_win sample_board 9 4 1 = true.
Proof.
  split.
  - apply (proj1 (check_win_connect_n won_board 6 3 4 3)); [lia|].
    vm_compute. reflexivity.
  - apply (proj2 (check_win_connect_n sample_board 9 4 1 0)); [lia|].
    vm_compute. discriminate.
Defined.

(** ** The sign of the evaluation *)

Lemma Qsum_nonneg l : Forall (λ q, (0 <= q)%Q) l → (0 <= Qsum l)%Q.
Proof.
  induction 1 as [|q l Hq _ IH]; [cbn; lra|]. rewrite Qsum_cons. lra.
Qed.

Lemma Qsum_nonpos l : Forall (λ q, (q <= 0)%Q) l → (Qsum l <= 0)%Q.
Proof.
  induction 1 as [|q l Hq _ IH]; [cbn; lra|]. rewrite Qsum_cons. lra.
Qed.

Lemma spec_window_score_sign nb no ne :
  (no = 0 → (0 <= spec_window_score nb no ne)%Q) ∧
  (nb = 0 → (spec_window_score nb no ne <= 0)%Q).
Proof.
  unfold spec_window_score. split; intros ->; case_tests;
    first [lra | exfalso; lia].
Qed.

Lemma elem_of_grid_windows w :
  w ∈ grid_windows →
  ∀ k, 0 ≤ k < CONNECT_N → in_bounds (w.1.1 + k * w.2.1) (w.1.2 + k * w.2.2) = true.
Proof.
  unfold grid_windows. intros [_ Hon]%list_elem_of_In%filter_In k Hk.
  unfold on_grid in Hon. rewrite forallb_forall in Hon. apply Hon.
  apply list_elem_of_In, elem_of_py_range. done.
Qed.

(** A test that fails on every cell of the grid fails on every cell of a
    window on the grid. *)
Lemma window_cells_none (f : option string → bool) b w :
  (∀ r c, in_bounds r c = true → f (get b r c) = false) →
  w ∈ grid_windows → count_if f (window_cells b w) = 0.
Proof.
  intros Hf Hw. apply count_if_zero. unfold window_cells, window_at.
  apply forallb_forall. intros x Hx%list_elem_of_In%list_elem_of_fmap.
  destruct Hx as (k & -> & Hk%elem_of_py_range).
  apply negb_true_iff, Hf. by apply elem_of_grid_windows.
Qed.

(** X6. On a board without a disc of the opponents the evaluation is not
    negative, and on a board without a disc of the bot it is not
    positive. *)
Theorem evaluate_board_sign b bot opps :
  wf_board b →
  ((∀ r c, in_bounds r c = true → cell_in opps (get b r c) = false) →
   (0 <= evaluate_board b bot opps)%Q) ∧
  ((∀ r c, in_bounds r c = true → cell_is (get b r c) bot = false) →
   (evaluate_board b bot opps <= 0)%Q).
Proof.
  intros _. split; intros Hfree; rewrite evaluate_board_sum.
  - assert (0 <= Qsum ((λ w, score_window (window_cells b w) bot opps) <$> grid_windows))%Q.
    { apply Qsum_nonneg, Forall_fmap, Forall_forall. intros w Hw. cbn.
      rewrite score_window_table. apply spec_window_score_sign.
      unfold count_opp. by apply window_cells_none. }
    assert (0 <= inject_Z (center_discs b bot))%Q.
    { change 0%Q with (inject_Z 0). rewrite <- Zle_Qle. apply count_if_nonneg. }
    nra.
  - assert (Qsum ((λ w, score_window (window_cells b w) bot opps) <$> grid_windows) <= 0)%Q.
    { apply Qsum_nonpos, Forall_fmap, Forall_forall. intros w Hw. cbn.
      rewrite score_window_table. apply spec_window_score_sign.
      unfold count_bot. by apply (window_cells_none (λ c, cell_is c bot)). }
    assert (center_discs b bot = 0) as ->.
    { unfold center_discs. apply count_if_zero. apply forallb_forall.
      intros r Hr%list_elem_of_In%elem_of_py_range. apply negb_true_iff, Hfree.
      apply in_bounds_true. split; [done|].
      change (COLS `div` 2) with 5. unfold COLS. lia. }
    change (inject_Z 0) with 0%Q. lra.
Qed.

(** A test checked on the hundred cells holds on every cell of the grid. *)
Lemma all_cells_check (f : option string → bool) b :
  forallb (λ r, forallb (λ c, f (get b r c)) (py_range COLS)) (py_range ROWS) = true →
  ∀ r c, in_bounds r c = true → f (get b r c) = true.
Proof.
  intros Hall r c [Hr Hc]%in_bounds_true.
  rewrite forallb_forall in Hall.
  specialize (Hall r ltac:(by apply list_elem_of_In, elem_of_py_range)).
  rewrite forallb_forall in Hall.
  apply Hall. by apply list_elem_of_In, elem_of_py_range.
Qed.

Lemma evaluate_board_sign_witness :
  (0 <= evaluate_board bot_only_board "BOT" ["P1"; "P2"])%Q ∧
  (evaluate_board opponents_only_board "BOT" ["P1"; "P2"] <= 0)%Q.
Proof.
  split.
  - apply (evaluate_board_sign bot_only_board "BOT" ["P1"; "P2"]%string);
      [wf_board_compute|].
    intros r c Hin. apply negb_true_iff.
    apply (all_cells_check (λ x, negb (cell_in ["P1"; "P2"]%string x))); [|done].
    vm_compute. reflexivity.
  - apply (evaluate_board_sign opponents_only_board "BOT" ["P1"; "P2"]%string);
      [wf_board_compute|].
    intros r c Hin. apply negb_true_iff.
    apply (all_cells_check (λ x, negb (cell_is x "BOT"))); [|done].
    vm_compute. reflexivity.
Defined.

(** ** The result of [minimax] and its window *)

(** X7. On every board, for every depth and every window
    [alpha < beta], [minimax] returns and its result bounds the value [v]
    of the unpruned search from the side it fails on: a result of at most
    [alpha] means [v] is at most [alpha], a result of at least [beta]
    means [v] is at least [beta], and a result strictly inside the window
    is [v]. *)
Theorem minimax_window b depth maximizing bot opps alpha beta last n :
  wf_board b → score_lt alpha beta →
  ∃ r m v m',
    minimax search_fuel b depth maximizing bot opps alpha beta last n = Ok (r, m) ∧
    full_minimax search_fuel b depth maximizing bot opps last n = Ok (v, m') ∧
    (score_le r alpha → score_le v alpha) ∧
    (score_le beta r → score_le beta v) ∧
    (score_lt alpha r → score_lt r beta → score_eq r v).
Proof.
  intros Hwf Hlt.
  destruct (full_minimax_total search_fuel b depth maximizing bot opps last n Hwf
              (wf_free_cells b Hwf)) as (v & m' & Hfull & _).
  destruct (minimax_agree _ _ _ _ _ _ alpha beta _ n _ _ _ Hlt Hfull)
    as (r & m & Hr & Hagree).
  exists r, m, v, m'. split; [done|]. split; [done|].
  destruct Hagree as [[? ?]|[[? ?]|?]]; repeat split; intros; order.
Qed.

Lemma minimax_window_witness :
  ∃ r m v m',
    minimax search_fuel sample_board 2 true "BOT" ["P1"; "P2"]
            (Fin 0) (Fin 10) None 0 = Ok (r, m) ∧
    full_minimax search_fuel sample_board 2 true "BOT" ["P1"; "P2"] None 0
      = Ok (v, m') ∧
    (score_le r (Fin 0) → score_le v (Fin 0)) ∧
    (score_le (Fin 10) r → score_le (Fin 10) v) ∧
    (score_lt (Fin 0) r → score_lt r (Fin 10) → score_eq r v).
Proof.
  apply (minimax_window sample_board 2 true "BOT"%string ["P1"; "P2"]%string
           (Fin 0) (Fin 10) None 0%nat).
  - wf_board_compute.
  - reflexivity.
Defined.

(** ** Node counts *)

Section layers_count.
Context (child : board → score → score → Z * Z → nat → result (score * nat)).
Context (child_full : board → Z * Z → nat → result (score * nat)).

(** Every recursive call counts at least itself, and a call with a
    window counts no more nodes than the call without. *)
Hypothesis child_grows : ∀ b alpha beta move n r m,
  child b alpha beta move n = Ok (r, m) → (n < m)%nat.
Hypothesis child_full_grows : ∀ b move n v m,
  child_full b move n = Ok (v, m) → (n < m)%nat.
Hypothesis child_le : ∀ b alpha beta move n n' r m v m',
  child b alpha beta move n = Ok (r, m) →
  child_full b move n' = Ok (v, m') → (m + n' ≤ m' + n)%nat.

Context (b : board) (bot : player) (opponents : list player).

Lemma max_layer_grows beta cols : ∀ val a n R m,
  max_layer child b bot beta cols val a n = Ok (R, m) → (n ≤ m)%nat.
Proof using child_grows.
  induction cols as [|col rest IH]; intros val a n R m; simpl.
  - intros [= <- <-]. lia.
  - intros (row & _ & ([r m1] & Hchild%child_grows & Hrest)%bind_Ok)%bind_Ok.
    destruct (score_leb _ _).
    + injection Hrest as <- <-. lia.
    + apply IH in Hrest. lia.
Qed.

Lemma min_opponents_grows alpha row col opps : ∀ val bc n R bc' m,
  min_opponents child b alpha row col opps val bc n = Ok (R, bc', m) → (n ≤ m)%nat.
Proof using child_grows.
  induction opps as [|opp rest IH]; intros val bc n R bc' m; simpl.
  - intros [= <- <- <-]. lia.
  - intros ([r m1] & Hchild%child_grows & Hrest)%bind_Ok.
    destruct (score_leb _ _).
    + injection Hrest as <- <- <-. lia.
    + apply IH in Hrest. lia.
Qed.

Lemma min_layer_grows alpha cols : ∀ val bc n R m,
  min_layer child b opponents alpha cols val bc n = Ok (R, m) → (n ≤ m)%nat.
Proof using child_grows.
  induction cols as [|col rest IH]; intros val bc n R m; simpl.
  - intros [= <- <-]. lia.
  - intros (row & _ & ([[v bc'] m1] & Hin%min_opponents_grows & Hrest)%bind_Ok)%bind_Ok.
    destruct (score_leb _ _).
    + injection Hrest as <- <-. lia.
    + apply IH in Hrest. lia.
Qed.

Lemma full_max_layer_grows cols : ∀ val n V m,
  full_max_layer child_full b bot cols val n = Ok (V, m) → (n ≤ m)%nat.
Proof using child_full_grows.
  induction cols as [|col rest IH]; intros val n V m; simpl.
  - intros [= <- <-]. lia.
  - intros (row & _ & ([v m1] & Hchild%child_full_grows & Hrest%IH)%bind_Ok)%bind_Ok.
    lia.
Qed.

Lemma full_min_opponents_grows row col opps : ∀ val n V m,
  full_min_opponents child_full b row col opps val n = Ok (V, m) → (n ≤ m)%nat.
Proof using child_full_grows.
  induction opps as [|opp rest IH]; intros val n V m; simpl.
  - intros [= <- <-]. lia.
  - intros ([v m1] & Hchild%child_full_grows & Hrest%IH)%bind_Ok. lia.
Qed.

Lemma full_min_layer_grows cols : ∀ val n V m,
  full_min_layer child_full b opponents cols val n = Ok (V, m) → (n ≤ m)%nat.
Proof using child_full_grows.
  induction cols as [|col rest IH]; intros val n V m; simpl.
  - intros [= <- <-]. lia.
  - intros (row & _ & ([v m1] & Hin%full_min_opponents_grows & Hrest%IH)%bind_Ok)%bind_Ok.
    lia.
Qed.

Lemma max_layer_count beta cols : ∀ val a valf n n' R m V m',
  max_layer child b bot beta cols val a n = Ok (R, m) →
  full_max_layer child_full b bot cols valf n' = Ok (V, m') →
  (m + n' ≤ m' + n)%nat.
Proof using child_le child_full_grows.
  induction cols as [|col rest IH]; intros val a valf n n' R m V m'; simpl.
  - intros [= <- <-] [= <- <-]. lia.
  - intros (row & Hrow & ([r m1] & Hchild & Hrest)%bind_Ok)%bind_Ok.
    intros (row' & Hrow' & ([v m1'] & Hchild' & Hrest')%bind_Ok)%bind_Ok.
    assert (row' = row) as -> by (destruct (find_drop_row b col); cbn in *; congruence).
    pose proof (child_le _ _ _ _ _ _ _ _ _ _ Hchild Hchild') as Hle.
    destruct (score_leb _ _).
    + injection Hrest as <- <-. apply full_max_layer_grows in Hrest'. lia.
    + pose proof (IH _ _ _ _ _ _ _ _ _ Hrest Hrest'). lia.
Qed.

Lemma min_opponents_count alpha row col opps : ∀ val bc valf n n' R bc' m V m',
  min_opponents child b alpha row col opps val bc n = Ok (R, bc', m) →
  full_min_opponents child_full b row col opps valf n' = Ok (V, m') →
  (m + n' ≤ m' + n)%nat.
Proof using child_le child_full_grows.
  induction opps as [|opp rest IH]; intros val bc valf n n' R bc' m V m'; simpl.
  - intros [= <- <- <-] [= <- <-]. lia.
  - intros ([r m1] & Hchild & Hrest)%bind_Ok.
    intros ([v m1'] & Hchild' & Hrest')%bind_Ok.
    pose proof (child_le _ _ _ _ _ _ _ _ _ _ Hchild Hchild') as Hle.
    destruct (score_leb _ _).
    + injection Hrest as <- <- <-. apply full_min_opponents_grows in Hrest'. lia.
    + pose proof (IH _ _ _ _ _ _ _ _ _ _ Hrest Hrest'). lia.
Qed.

Lemma min_layer_count alpha cols : ∀ val bc valf n n' R m V m',
  min_layer child b opponents alpha cols val bc n = Ok (R, m) →
  full_min_layer child_full b opponents cols valf n' = Ok (V, m') →
  (m + n' ≤ m' + n)%nat.
Proof using child_le child_full_grows.
  induction cols as [|col rest IH]; intros val bc valf n n' R m V m'; simpl.
  - intros [= <- <-] [= <- <-]. lia.
  - intros (row & Hrow & ([[v bc'] m1] & Hin & Hrest)%bind_Ok)%bind_Ok.
    intros (row' & Hrow' & ([vf m1'] & Hin' & Hrest')%bind_Ok)%bind_Ok.
    assert (row' = row) as -> by (destruct (find_drop_row b col); cbn in *; congruence).
    pose proof (min_opponents_count _ _ _ _ _ _ _ _ _ _ _ _ _ _ Hin Hin') as Hle.
    destruct (score_leb _ _).
    + injection Hrest as <- <-. apply full_min_layer_grows in Hrest'. lia.
    + pose proof (IH _ _ _ _ _ _ _ _ _ Hrest Hrest'). lia.
Qed.
End layers_count.

Lemma minimax_grows fuel : ∀ b depth maximizing bot opps alpha beta last n r m,
  minimax fuel b depth maximizing bot opps alpha beta last n = Ok (r, m) →
  (n < m)%nat.
Proof.
  induction fuel as [|fuel IH]; intros b depth maximizing bot opps alpha beta last n r m;
    [done|].
  cbn [minimax].
  destruct (terminal_score b bot depth last); [intros [= <- <-]; lia|].
  destruct ((depth =? 0) || board_is_full b); [intros [= <- <-]; lia|].
  destruct (valid_columns b) as [|c cols]; [intros [= <- <-]; lia|].
  destruct maximizing.
  - intros H%max_layer_grows; [lia|]. intros ? ? ? ? ? ? ?. apply IH.
  - intros H%min_layer_grows; [lia|]. intros ? ? ? ? ? ? ?. apply IH.
Qed.

Lemma full_minimax_grows fuel : ∀ b depth maximizing bot opps last n v m,
  full_minimax fuel b depth maximizing bot opps last n = Ok (v, m) → (n < m)%nat.
Proof.
  induction fuel as [|fuel IH]; intros b depth maximizing bot opps last n v m; [done|].
  cbn [full_minimax].
  destruct (terminal_score b bot depth last); [intros [= <- <-]; lia|].
  destruct ((depth =? 0) || board_is_full b); [intros [= <- <-]; lia|].
  destruct (valid_columns b) as [|c cols]; [intros [= <- <-]; lia|].
  destruct maximizing.
  - intros H%full_max_layer_grows; [lia|]. intros ? ? ? ? ?. apply IH.
  - intros H%full_min_layer_grows; [lia|]. intros ? ? ? ? ?. apply IH.
Qed.

(** A call of [minimax] counts no more nodes than the unpruned search
    of the same position. *)
Lemma minimax_count fuel : ∀ b depth maximizing bot opps alpha beta last n n' r m v m',
  minimax fuel b depth maximizing bot opps alpha beta last n = Ok (r, m) →
  full_minimax fuel b depth maximizing bot opps last n' = Ok (v, m') →
  (m + n' ≤ m' + n)%nat.
Proof.
  induction fuel as [|fuel IH];
    intros b depth maximizing bot opps alpha beta last n n' r m v m'; [done|].
  cbn [minimax full_minimax].
  destruct (terminal_score b bot depth last); [intros [= <- <-] [= <- <-]; lia|].
  destruct ((depth =? 0) || board_is_full b); [intros [= <- <-] [= <- <-]; lia|].
  destruct (valid_columns b) as [|c cols]; [intros [= <- <-] [= <- <-]; lia|].
  destruct maximizing.
  - intros H H'. assert (m + S n' ≤ m' + S n)%nat; [|lia].
    eapply max_layer_count; [| |exact H|exact H'].
    + intros ? ? ? ? ?. apply full_minimax_grows.
    + intros ? ? ? ? ? ? ? ? ? ?. apply IH.
  - intros H H'. assert (m + S n' ≤ m' + S n)%nat; [|lia].
    eapply min_layer_count; [| |exact H|exact H'].
    + intros ? ? ? ? ?. apply full_minimax_grows.
    + intros ? ? ? ? ? ? ? ? ? ?. apply IH.
Qed.

Section root_count.
Context (child child_full : board → Z * Z → nat → result (score * nat)).
Context (b : board) (bot : player).

Hypothesis child_grows : ∀ b' move n r m,
  child b' move n = Ok (r, m) → (n < m)%nat.
Hypothesis child_le : ∀ b' move n n' r m v m',
  child b' move n = Ok (r, m) → child_full b' move n' = Ok (v, m') →
  (m + n' ≤ m' + n)%nat.

(** The loop of [choose_best_move] counts at least one node for each
    column. *)
Lemma root_loop_visits cols : ∀ best mv n B mvB m,
  root_loop child b bot cols best mv n = Ok (B, mvB, m) →
  (n + length cols ≤ m)%nat.
Proof using child_grows.
  induction cols as [|col rest IH]; intros best mv n B mvB m; simpl.
  - intros [= <- <- <-]. lia.
  - intros (row & _ & ([r m1] & Hchild%child_grows & Hrest)%bind_Ok)%bind_Ok.
    destruct (score_ltb best r); apply IH in Hrest; lia.
Qed.

Lemma root_loop_count cols : ∀ best mv bestf mvf n n' B mvB m Bf mvBf m',
  root_loop child b bot cols best mv n = Ok (B, mvB, m) →
  root_loop child_full b bot cols bestf mvf n' = Ok (Bf, mvBf, m') →
  (m + n' ≤ m' + n)%nat.
Proof using child_le.
  induction cols as [|col rest IH];
    intros best mv bestf mvf n n' B mvB m Bf mvBf m'; simpl.
  - intros [= <- <- <-] [= <- <- <-]. lia.
  - intros (row & Hrow & ([r m1] & Hchild & Hrest)%bind_Ok)%bind_Ok.
    intros (row' & Hrow' & ([v m1'] & Hchild' & Hrest')%bind_Ok)%bind_Ok.
    assert (row' = row) as -> by (destruct (find_drop_row b col); cbn in *; congruence).
    pose proof (child_le _ _ _ _ _ _ _ _ Hchild Hchild') as Hle.
    assert (m + m1' ≤ m' + m1)%nat; [|lia].
    destruct (score_ltb best r), (score_ltb bestf v); eapply IH; eauto.
Qed.
End root_count.

(** Both searches return on a board with a playable column. *)
Lemma searches_return set_order b bot opponent_ids depth :
  wf_board b → valid_columns b ≠ [] →
  ∃ res full,
    choose_best_move set_order b bot opponent_ids depth = Ok res ∧
    full_search set_order b bot opponent_ids depth = Ok full.
Proof.
  intros Hwf Hne.
  destruct (choose_best_move_first_max set_order b bot opponent_ids depth Hwf Hne)
    as (res & Hres & _).
  exists res. pose proof Hres as Hres'.
  unfold choose_best_move, choose_best_move_fuel in Hres.
  unfold full_search, full_search_fuel.
  set (opponents := resolve_opponents set_order b bot opponent_ids) in *.
  destruct (root_loop_total
              (λ b' move nodes, full_minimax search_fuel b' (depth - 1) false bot
                                             opponents (Some move) nodes)
              b bot) with (cols := valid_columns b) (best := NegInf)
                          (mv := @None (Z * Z)) (n := O)
    as (Bf & mvf & m' & Hfull).
  { intros col row n Hcol Hrow.
    destruct (full_minimax_total search_fuel (place_disc b row col bot) (depth - 1)
                false bot opponents (Some (row, col)) n) as (v & m & Hv & _).
    - by apply wf_place_disc.
    - by apply wf_free_cells, wf_place_disc.
    - eauto. }
  { apply valid_columns_Forall. }
  destruct (root_loop_agree
              (λ b' move nodes, minimax search_fuel b' (depth - 1) false bot
                                        opponents NegInf PosInf (Some move) nodes)
              (λ b' move nodes, full_minimax search_fuel b' (depth - 1) false bot
                                             opponents (Some move) nodes)
              b bot) with (cols := valid_columns b) (best := NegInf) (bestf := NegInf)
                          (mv := @None (Z * Z)) (n := O) (n' := O)
                          (Bf := Bf) (mvf := mvf) (m' := m')
    as (B & m & Hloop & HB).
  { intros b' move n n' v j Hv. by eapply minimax_exact. }
  { reflexivity. }
  { exact Hfull. }
  destruct (valid_columns b) as [|c0 cols] eqn:Hcols; [done|].
  rewrite Hloop in Hres. rewrite Hfull. cbn in Hres |- *.
  destruct mvf as [[r c]|]; [|done]. eauto.
Qed.

(** X8. On a board with a playable column both searches return, and
    [choose_best_move] counts at least one node for each playable column
    and never more nodes than the unpruned search. *)
Theorem pruning_node_counts set_order b bot opponent_ids depth :
  wf_board b → valid_columns b ≠ [] →
  ∃ res full,
    choose_best_move set_order b bot opponent_ids depth = Ok res ∧
    full_search set_order b bot opponent_ids depth = Ok full ∧
    (length (valid_columns b) ≤ nodes_of res)%nat ∧
    (nodes_of res ≤ nodes_of full)%nat.
Proof.
  intros Hwf Hne.
  destruct (searches_return set_order b bot opponent_ids depth Hwf Hne)
    as (res & full & Hres & Hfull).
  exists res, full. split; [done|]. split; [done|].
  unfold choose_best_move, choose_best_move_fuel in Hres.
  unfold full_search, full_search_fuel in Hfull.
  set (opponents := resolve_opponents set_order b bot opponent_ids) in *.
  destruct (valid_columns b) as [|c0 cols] eqn:Hcols; [done|]. rewrite <- Hcols in *.
  apply bind_Ok in Hres as ([[B mv] m] & Hloop & Hres).
  apply bind_Ok in Hfull as ([[Bf mvf] m'] & Hloopf & Hfull).
  destruct mv as [[r c]|]; [|done]. injection Hres as <-.
  destruct mvf as [[rf cf]|]; [|done]. injection Hfull as <-. cbn.
  split.
  - apply root_loop_visits in Hloop; [lia|].
    intros ? ? ? ? ?. apply minimax_grows.
  - eapply root_loop_count in Hloopf; [|clear; intros b' move n n' r' j v j'; apply minimax_count|exact Hloop].
    lia.
Qed.

Lemma pruning_node_counts_witness :
  ∃ res full,
    choose_best_move id sample_board "BOT" None 3 = Ok res ∧
    full_search id sample_board "BOT" None 3 = Ok full ∧
    (length (valid_columns sample_board) ≤ nodes_of res)%nat ∧
    (nodes_of res ≤ nodes_of full)%nat.
Proof.
  apply (pruning_node_counts id sample_board "BOT"%string None 3).
  - wf_board_compute.
  - vm_compute. discriminate.
Defined.

(** ** Finite scores *)

Lemma py_max_finite a b :
  a = NegInf ∨ is_finite a → is_finite b → is_finite (py_max a b).
Proof.
  unfold py_max. destruct a, b; cbn; intros [?|?] ?; try done;
    destruct (negb _); done.
Qed.

Lemma py_min_finite a b :
  a = PosInf ∨ is_finite a → is_finite b → is_finite (py_min a b).
Proof.
  unfold py_min. destruct a, b; cbn; intros [?|?] ?; try done;
    destruct (negb _); done.
Qed.

Lemma score_eq_finite a b : score_eq a b → is_finite b → is_finite a.
Proof. by destruct a, b. Qed.

Section full_layers_finite.
Context (child : board → Z * Z → nat → result (score * nat)).
Context (b : board).

Hypothesis child_finite : ∀ b' move n v m,
  child b' move n = Ok (v, m) → is_finite v.

Lemma full_max_layer_finite bot cols : ∀ valf n V m,
  valf = NegInf ∨ is_finite valf →
  full_max_layer child b bot cols valf n = Ok (V, m) →
  cols ≠ [] ∨ is_finite valf → is_finite V.
Proof using child_finite.
  induction cols as [|col rest IH]; intros valf n V m Hvalf; simpl.
  - intros [= <- <-] [?|?]; done.
  - intros (row & _ & ([v m1] & Hchild%child_finite & Hrest)%bind_Ok)%bind_Ok _.
    pose proof (py_max_finite valf v Hvalf Hchild).
    eapply IH; [|exact Hrest|]; by right.
Qed.

Lemma full_min_opponents_finite row col opps : ∀ valf n V m,
  valf = PosInf ∨ is_finite valf →
  full_min_opponents child b row col opps valf n = Ok (V, m) →
  (V = PosInf ∨ is_finite V) ∧ (opps ≠ [] ∨ is_finite valf → is_finite V).
Proof using child_finite.
  induction opps as [|opp rest IH]; intros valf n V m Hvalf; simpl.
  - intros [= <- <-]. split; [done|]. intros [?|?]; done.
  - intros ([v m1] & Hchild%child_finite & Hrest)%bind_Ok.
    pose proof (py_min_finite valf v Hvalf Hchild) as Hfin.
    destruct (IH _ _ _ _ (or_intror Hfin) Hrest) as [_ HV].
    split; [right|intros _]; apply HV; by right.
Qed.

Lemma full_min_layer_finite opps cols : ∀ valf n V m,
  opps ≠ [] → valf = PosInf ∨ is_finite valf →
  full_min_layer child b opps cols valf n = Ok (V, m) →
  cols ≠ [] ∨ is_finite valf → is_finite V.
Proof using child_finite.
  induction cols as [|col rest IH]; intros valf n V m Hopps Hvalf; simpl.
  - intros [= <- <-] [?|?]; done.
  - intros (row & _ & ([v m1] & Hin & Hrest)%bind_Ok)%bind_Ok _.
    destruct (full_min_opponents_finite _ _ _ _ _ _ _ Hvalf Hin) as [_ Hv].
    specialize (Hv (or_introl Hopps)).
    eapply IH; [done| |exact Hrest|]; by right.
Qed.
End full_layers_finite.

Lemma terminal_score_is_finite b bot depth last s :
  terminal_score b bot depth last = Some s → is_finite s.
Proof.
  unfold terminal_score. destruct last as [[r c]|]; [|done].
  destruct (check_win b r c CONNECT_N); [|done].
  destruct (cell_is (get b r c) bot); by intros [= <-].
Qed.

(** With at least one opponent every value of the unpruned search is a
    finite number. *)
Lemma full_minimax_finite fuel : ∀ b depth maximizing bot opps last n v m,
  opps ≠ [] →
  full_minimax fuel b depth maximizing bot opps last n = Ok (v, m) → is_finite v.
Proof.
  induction fuel as [|fuel IH]; intros b depth maximizing bot opps last n v m Hopps;
    [done|].
  cbn [full_minimax].
  destruct (terminal_score b bot depth last) as [s|] eqn:Hterm.
  { intros [= <- <-]. by eapply terminal_score_is_finite. }
  destruct ((depth =? 0) || board_is_full b); [by intros [= <- <-]|].
  destruct (valid_columns b) as [|c cols]; [by intros [= <- <-]|].
  destruct maximizing.
  - intros H. eapply full_max_layer_finite in H; [done| |by left|by left].
    intros ? ? ? ? ?. by apply IH.
  - intros H. eapply full_min_layer_finite in H; [done| |done|by left|by left].
    intros ? ? ? ? ?. by apply IH.
Qed.

Lemma resolve_opponents_nonempty set_order b bot opponent_ids :
  (∀ l, l ≠ [] → set_order l ≠ []) →
  resolve_opponents set_order b bot opponent_ids ≠ [].
Proof.
  intros Hset. unfold resolve_opponents, infer_opponents.
  destruct opponent_ids as [[|p l]|]; try done;
    (destruct (seen_ids b bot) as [|q ids] eqn:Hids; [done|by apply Hset]).
Qed.

(** The value of a column, from the two searches. *)
Lemma child_value_full set_order b bot opponent_ids depth col row s :
  wf_board b → find_drop_row b col = Some row →
  child_value set_order b bot opponent_ids depth col = Some s →
  ∃ v m, full_minimax search_fuel (place_disc b row col bot) (depth - 1) false bot
                      (resolve_opponents set_order b bot opponent_ids)
                      (Some (row, col)) O = Ok (v, m) ∧
         score_eq s v.
Proof.
  intros Hwf Hrow. unfold child_value. rewrite Hrow.
  destruct (full_minimax_total search_fuel (place_disc b row col bot) (depth - 1)
              false bot (resolve_opponents set_order b bot opponent_ids)
              (Some (row, col)) O) as (v & m' & Hfull & _).
  { by apply wf_place_disc. }
  { by apply wf_free_cells, wf_place_disc. }
  destruct (minimax_exact _ _ _ _ _ _ _ O _ _ _ Hfull) as (s0 & m0 & Hs0 & Hsv0).
  rewrite Hs0. intros [= <-]. eauto.
Qed.

(** X9. The score [choose_best_move] returns is a finite number, never
    [inf] or [-inf] (Python's [list] of a non-empty set is not empty). *)
Theorem choose_best_move_finite set_order b bot opponent_ids depth :
  wf_board b → (∀ l, l ≠ [] → set_order l ≠ []) → valid_columns b ≠ [] →
  ∃ res q, choose_best_move set_order b bot opponent_ids depth = Ok res ∧
           score_of res = Fin q.
Proof.
  intros Hwf Hset Hne.
  destruct (choose_best_move_first_max set_order b bot opponent_ids depth Hwf Hne)
    as (res & Hres & _ & Hrow & Hbest & before & after & Hcols & _).
  assert (column res ∈ valid_columns b) as Hin.
  { rewrite Hcols. apply elem_of_app. right. left. }
  destruct (child_value_Some set_order b bot opponent_ids depth (column res) Hwf Hin)
    as [s Hs].
  rewrite Hs in Hbest. cbn [from_option id] in Hbest.
  destruct (child_value_full _ _ _ _ _ _ _ _ Hwf Hrow Hs) as (v & m & Hfull & Hsv).
  apply full_minimax_finite in Hfull; [|by apply resolve_opponents_nonempty].
  assert (is_finite (score_of res)) as Hfin.
  { eapply score_eq_finite; [exact Hbest|]. by eapply score_eq_finite. }
  destruct (score_of res) as [|q|] eqn:Hq; [done| |done]. eauto.
Qed.

Lemma choose_best_move_finite_witness :
  ∃ res q, choose_best_move id sample_board "BOT" None 2 = Ok res ∧
           score_of res = Fin q.
Proof.
  apply (choose_best_move_finite id sample_board "BOT"%string None 2).
  - wf_board_compute.
  - intros l Hl. exact Hl.
  - vm_compute. discriminate.
Defined.

(** ** A winning move at hand *)

Lemma minimax_terminal fuel b depth maximizing bot opps alpha beta r c n :
  check_win b r c CONNECT_N = true →
  minimax (S fuel) b depth maximizing bot opps alpha beta (Some (r, c)) n
  = Ok (Fin (inject_Z (if cell_is (get b r c) bot
                       then WIN_SCORE + depth else - WIN_SCORE - depth)),
        S n).
Proof.
  intros Hwin. cbn [minimax terminal_score]. rewrite Hwin.
  by destruct (cell_is (get b r c) bot).
Qed.

(** X10. When the disc of the last move completes a line, [minimax]
    returns at once, whatever the window and the layer, counting one
    node: [WIN_SCORE + depth] for a line of the bot, which grows with the
    depth left (faster wins score higher), and [-WIN_SCORE - depth]
    otherwise, which falls with it (slower losses score higher). *)
Theorem minimax_win_depth b d1 d2 maximizing bot opps alpha beta r c n :
  check_win b r c CONNECT_N = true → d1 < d2 →
  ∃ s1 s2,
    minimax search_fuel b d1 maximizing bot opps alpha beta (Some (r, c)) n
      = Ok (s1, S n) ∧
    minimax search_fuel b d2 maximizing bot opps alpha beta (Some (r, c)) n
      = Ok (s2, S n) ∧
    (get b r c = Some bot →
     s1 = Fin (inject_Z (WIN_SCORE + d1)) ∧ score_lt s1 s2) ∧
    (get b r c ≠ Some bot →
     s1 = Fin (inject_Z (- WIN_SCORE - d1)) ∧ score_lt s2 s1).
Proof.
  intros Hwin Hd. change search_fuel with (S (Z.to_nat (ROWS * COLS))).
  rewrite !minimax_terminal by done. eexists _, _.
  split; [done|]. split; [done|]. split.
  - intros Hbot%cell_is_true. rewrite Hbot. split; [done|]. cbn.
    rewrite <- Zlt_Qlt. lia.
  - intros Hnot. destruct (cell_is (get b r c) bot) eqn:Hc.
    { by apply cell_is_true in Hc. }
    split; [done|]. cbn. rewrite <- Zlt_Qlt. lia.
Qed.

Lemma minimax_win_depth_witness :
  ∃ s1 s2,
    minimax search_fuel won_board 1 false "BOT" ["P1"; "P2"] NegInf PosInf (Some (6, 3)) 0
      = Ok (s1, 1%nat) ∧
    minimax search_fuel won_board 3 false "BOT" ["P1"; "P2"] NegInf PosInf (Some (6, 3)) 0
      = Ok (s2, 1%nat) ∧
    (get won_board 6 3 = Some "BOT"%string →
     s1 = Fin (inject_Z (WIN_SCORE + 1)) ∧ score_lt s1 s2) ∧
    (get won_board 6 3 ≠ Some "BOT"%string →
     s1 = Fin (inject_Z (- WIN_SCORE - 1)) ∧ score_lt s2 s1).
Proof.
  apply (minimax_win_depth won_board 1 3 false "BOT"%string ["P1"; "P2"]%string
           NegInf PosInf 6 3 0%nat).
  - vm_compute. reflexivity.
  - lia.
Defined.

(** X11. When the bot can complete a line with its next disc,
    [choose_best_move] returns a score of at least
    [WIN_SCORE + depth - 1], the value of that move. *)
Theorem choose_best_move_takes_win set_order b bot opponent_ids depth col row :
  wf_board b → 0 ≤ col < COLS → find_drop_row b col = Some row →
  check_win (place_disc b row col bot) row col CONNECT_N = true →
  ∃ res, choose_best_move set_order b bot opponent_ids depth = Ok res ∧
         score_le (Fin (inject_Z (WIN_SCORE + depth - 1))) (score_of res).
Proof.
  intros Hwf Hcol Hrow Hwin.
  assert (col ∈ valid_columns b) as Hin by (apply elem_of_valid_columns; eauto).
  assert (valid_columns b ≠ []) as Hne.
  { intros Hnil. rewrite Hnil in Hin. by apply elem_of_nil in Hin. }
  destruct (choose_best_move_first_max set_order b bot opponent_ids depth Hwf Hne)
    as (res & Hres & _ & _ & Hbest & before & after & Hcols & Hbefore & Hafter).
  exists res. split; [done|].
  assert (child_value set_order b bot opponent_ids depth col
          = Some (Fin (inject_Z (WIN_SCORE + (depth - 1))))) as Hval.
  { unfold child_value. rewrite Hrow.
    change search_fuel with (S (Z.to_nat (ROWS * COLS))).
    rewrite minimax_terminal by done.
    rewrite get_place_disc_eq; [|done|].
    - cbn. by rewrite bool_decide_eq_true_2.
    - apply find_drop_row_Some in Hrow. apply in_bounds_true. lia. }
  replace (WIN_SCORE + depth - 1) with (WIN_SCORE + (depth - 1)) by lia.
  rewrite Forall_forall in Hbefore. rewrite Forall_forall in Hafter.
  rewrite Hcols in Hin. apply elem_of_app in Hin as [Hin|Hin].
  - specialize (Hbefore col Hin). cbn [from_option id] in Hbefore.
    rewrite Hval in Hbefore. cbn [from_option id] in Hbefore. order.
  - apply elem_of_cons in Hin as [->|Hin].
    + rewrite Hval in Hbest. cbn [from_option id] in Hbest. order.
    + specialize (Hafter col Hin). cbn [from_option id] in Hafter.
      rewrite Hval in Hafter. cbn [from_option id] in Hafter. done.
Qed.

Lemma choose_best_move_takes_win_witness :
  ∃ res, choose_best_move id win_board "BOT" None 2 = Ok res ∧
         score_le (Fin (inject_Z (WIN_SCORE + 2 - 1))) (score_of res).
Proof.
  apply (choose_best_move_takes_win id win_board "BOT"%string None 2 3 6).
  - wf_board_compute.
  - unfold COLS. lia.
  - vm_compute. reflexivity.
  - vm_compute. reflexivity.
Defined.

(** X12. [choose_best_move] raises only when no column is playable, and
    then the [ValueError] of the full board: the [RuntimeError] after
    the loop and the assertions on the drop rows are never raised, and
    the recursion ends. *)
Theorem choose_best_move_errors set_order b bot opponent_ids depth :
  wf_board b →
  (choose_best_move set_order b bot opponent_ids depth
     = Raise (ValueError no_moves_msg) ↔ valid_columns b = []) ∧
  (∀ e, choose_best_move set_order b bot opponent_ids depth = Raise e →
        e = ValueError no_moves_msg) ∧
  choose_best_move set_order b bot opponent_ids depth ≠ OutOfFuel.
Proof.
  intros Hwf. destruct (decide (valid_columns b = [])) as [Hnil|Hne].
  - unfold choose_best_move, choose_best_move_fuel. rewrite Hnil.
    split; [done|]. split; [|done]. by intros e [= <-].
  - destruct (choose_best_move_first_max set_order b bot opponent_ids depth Hwf Hne)
      as (res & -> & _).
    split; [|done]. split; done.
Qed.

Lemma choose_best_move_errors_witness :
  (choose_best_move id full_board "BOT" None 4
     = Raise (ValueError no_moves_msg) ↔ valid_columns full_board = []) ∧
  (∀ e, choose_best_move id full_board "BOT" None 4 = Raise e →
        e = ValueError no_moves_msg) ∧
  choose_best_move id full_board "BOT" None 4 ≠ OutOfFuel.
Proof.
  apply (choose_best_move_errors id full_board "BOT"%string None 4).
  wf_board_compute.
Defined.


(** ** More on [roll_next_turn] *)

Section dice_more.
Import Dice.

(** X13. Every turn state a session reaches is the initial state, or
    holds the last player with either a count of 1 and no skip, or a
    count of 0 and that player as the one to skip: the count never
    reaches 2 and only the last player is ever skipped. *)
Theorem turn_state_shape state : reachable state → turn_shape state.
Proof.
  induction 1 as [|players state draw r state' Hreach IH Hroll]; [by left|].
  right. pose proof (reachable_count _ Hreach) as Hcount.
  apply roll_next_turn_Ok in Hroll as (_ & Hlast & Hskip & Hnone).
  exists (chosen_player r). split; [done|].
  destruct (Z.le_gt_cases 2 (if bool_decide (Some (chosen_player r) = last_player state)
                             then consecutive_count state + 1 else 1)) as [Hc|Hc].
  - left. destruct (Hskip Hc) as (? & ? & _). done.
  - right. destruct (Hnone Hc) as (? & -> & _). split; [done|].
    case_bool_decide; lia.
Qed.

Lemma turn_state_shape_witness :
  let s1 := {| last_player := Some "P1"%string; consecutive_count := 1;
               skip_next := None |} in
  let s2 := {| last_player := Some "P1"%string; consecutive_count := 0;
               skip_next := Some "P1"%string |} in
  let s3 := {| last_player := Some "P2"%string; consecutive_count := 1;
               skip_next := None |} in
  (∃ r1, roll_next_turn PLAYERS initial 0 = Ok (r1, s1)) ∧
  (∃ r2, roll_next_turn PLAYERS s1 3 = Ok (r2, s2)) ∧
  (∃ r3, roll_next_turn PLAYERS s2 0 = Ok (r3, s3)) ∧
  turn_shape s1 ∧ turn_shape s2 ∧ turn_shape s3.
Proof.
  intros s1 s2 s3.
  assert (∃ r1, roll_next_turn PLAYERS initial 0 = Ok (r1, s1)) as Hroll1
    by (eexists; vm_compute; reflexivity).
  assert (∃ r2, roll_next_turn PLAYERS s1 3 = Ok (r2, s2)) as Hroll2
    by (eexists; vm_compute; reflexivity).
  assert (∃ r3, roll_next_turn PLAYERS s2 0 = Ok (r3, s3)) as Hroll3
    by (eexists; vm_compute; reflexivity).
  assert (reachable s1) as Hs1.
  { destruct Hroll1 as [r1 Hr1]. exact (reach_roll _ _ _ _ _ reach_initial Hr1). }
  assert (reachable s2) as Hs2.
  { destruct Hroll2 as [r2 Hr2]. exact (reach_roll _ _ _ _ _ Hs1 Hr2). }
  assert (reachable s3) as Hs3.
  { destruct Hroll3 as [r3 Hr3]. exact (reach_roll _ _ _ _ _ Hs2 Hr3). }
  split; [exact Hroll1|]. split; [exact Hroll2|]. split; [exact Hroll3|].
  split; [exact (turn_state_shape s1 Hs1)|].
  split; [exact (turn_state_shape s2 Hs2)|exact (turn_state_shape s3 Hs3)].
Defined.

(** X14. The roll reports the state it leaves: the [skip_next] of the
    result is the [skip_next] of the new state, which is the chosen
    player when [forced_skip] is set and nothing otherwise; and
    [forced_skip] is set exactly when the chosen player was the last
    player with a count of at least 1. *)
Theorem roll_next_turn_report players state draw r state' :
  roll_next_turn players state draw = Ok (r, state') →
  roll_skip_next r = skip_next state' ∧
  skip_next state' = (if forced_skip r then Some (chosen_player r) else None) ∧
  (forced_skip r = true ↔
   last_player state = Some (chosen_player r) ∧ 1 ≤ consecutive_count state).
Proof.
  unfold roll_next_turn. destruct players as [|p0 players]; [done|].
  destruct (choice draw (pool (p0 :: players) state)) as [chosen| |]; cbn; [|done..].
  destruct (Z.leb_spec 2 (if bool_decide (Some chosen = last_player state)
                          then consecutive_count state + 1 else 1)) as [Hc|Hc];
    intros [= <- <-]; cbn; (split; [done|]); (split; [done|]).
  - split; [intros _|done]. case_bool_decide; [split; [done|lia]|lia].
  - split; [done|]. intros [Hlast Hcount].
    rewrite bool_decide_eq_true_2 in Hc by done. lia.
Qed.

Lemma roll_next_turn_report_witness :
  let state := {| last_player := Some "P1"%string; consecutive_count := 1;
                  skip_next := None |} in
  let state' := {| last_player := Some "P1"%string; consecutive_count := 0;
                   skip_next := Some "P1"%string |} in
  let r := {| chosen_player := "P1"; roll_skip_next := Some "P1"%string;
              forced_skip := true; next_roll_pool := ["P2"; "BOT"]%string |} in
  roll_skip_next r = skip_next state' ∧
  skip_next state' = (if forced_skip r then Some (chosen_player r) else None) ∧
  (forced_skip r = true ↔
   last_player state = Some (chosen_player r) ∧ 1 ≤ consecutive_count state).
Proof.
  apply (roll_next_turn_report PLAYERS
           {| last_player := Some "P1"%string; consecutive_count := 1;
              skip_next := None |} 0).
  reflexivity.
Defined.

(** X15. The [next_roll_pool] of the result is the pool the next roll
    draws from, when no skip was scheduled, or when the chosen player is
    not the empty string and the list names another player. *)
Theorem next_roll_pool_is_pool players state draw r state' :
  roll_next_turn players state draw = Ok (r, state') →
  forced_skip r = false ∨
  (chosen_player r ≠ ""%string ∧ ∃ q, q ∈ players ∧ q ≠ chosen_player r) →
  next_roll_pool r = pool players state'.
Proof.
  intros Hroll Hcond.
  pose proof (roll_next_turn_report _ _ _ _ _ Hroll) as (_ & Hskip & _).
  assert (next_roll_pool r =
          if truthy (skip_next state') then without (skip_next state') players
          else players) as ->.
  { revert Hroll. unfold roll_next_turn. destruct players as [|p0 players]; [done|].
    destruct (choice draw (pool (p0 :: players) state)) as [chosen| |]; cbn; [|done..].
    destruct (2 <=? _); by intros [= <- <-]. }
  destruct (forced_skip r) eqn:Hforced.
  - destruct Hcond as [?|(Hne & q & Hq & Hqne)]; [done|].
    rewrite (pool_skip players state' q); [|done|rewrite Hskip; congruence].
    rewrite Hskip. cbn. by rewrite bool_decide_eq_false_2.
  - rewrite (pool_no_skip players state' Hskip). by rewrite Hskip.
Qed.

Lemma next_roll_pool_is_pool_witness :
  next_roll_pool {| chosen_player := "P1"; roll_skip_next := Some "P1"%string;
                    forced_skip := true; next_roll_pool := ["P2"; "BOT"]%string |}
  = pool PLAYERS {| last_player := Some "P1"%string; consecutive_count := 0;
                    skip_next := Some "P1"%string |}.
Proof.
  apply (next_roll_pool_is_pool PLAYERS
           {| last_player := Some "P1"%string; consecutive_count := 1;
              skip_next := None |} 0).
  - reflexivity.
  - right. split; [discriminate|]. exists "P2"%string.
    split; [|discriminate]. apply list_elem_of_In. cbn. tauto.
Defined.

(** With the empty string as an identifier the report is wrong: the
    skipped player is in [next_roll_pool] and not in the pool. *)
Example next_roll_pool_empty_name :
  let players := [""; "P2"]%string in
  let state := {| last_player := Some ""%string; consecutive_count := 1;
                  skip_next := None |} in
  ∃ r state', roll_next_turn players state 0 = Ok (r, state') ∧
              next_roll_pool r = players ∧ pool players state' = ["P2"]%string.
Proof. eexists _, _. split; [reflexivity|]. done. Qed.

(** X16. No player sits out two rolls in a row: a player of the list who
    is not in the pool of a roll is in the pool of the next one. *)
Theorem skip_lasts_one_roll players state draw r state' x :
  roll_next_turn players state draw = Ok (r, state') →
  x ∈ players → x ∉ pool players state → x ∈ pool players state'.
Proof.
  intros Hroll Hx Hout.
  assert (skip_next state = Some x) as Hskip.
  { destruct (skip_next state) as [y|] eqn:Hs.
    - destruct (decide (y = x)) as [->|Hne]; [done|]. exfalso. apply Hout.
      rewrite (pool_skip players state x); [|done|rewrite Hs; congruence].
      apply elem_of_without. rewrite Hs. split; [done|congruence].
    - exfalso. apply Hout. by rewrite pool_no_skip. }
  assert (pool players state = without (Some x) players) as Hpool.
  { unfold pool in *. rewrite Hskip in *.
    destruct (without (Some x) players); [done|done]. }
  pose proof (roll_next_turn_report _ _ _ _ _ Hroll) as (_ & Hskip' & _).
  apply roll_next_turn_Ok in Hroll as (Hin & _).
  rewrite Hpool in Hin. apply elem_of_without in Hin as [_ Hne].
  rewrite (pool_skip players state' x); [|done|].
  - apply elem_of_without. split; [done|]. rewrite Hskip'.
    destruct (forced_skip r); congruence.
  - rewrite Hskip'. destruct (forced_skip r); congruence.
Qed.

Lemma skip_lasts_one_roll_witness :
  "P1"%string ∈ pool PLAYERS {| last_player := Some "P2"%string;
                                consecutive_count := 1; skip_next := None |}.
Proof.
  apply (skip_lasts_one_roll PLAYERS
           {| last_player := Some "P1"%string; consecutive_count := 0;
              skip_next := Some "P1"%string |} 0
           {| chosen_player := "P2"; roll_skip_next := None;
              forced_skip := false; next_roll_pool := PLAYERS |}).
  - reflexivity.
  - apply list_elem_of_In. cbn. tauto.
  - intros Hin%list_elem_of_In. vm_compute in Hin. intuition discriminate.
Defined.
End dice_more.



(** ** The session of the backend *)

Section backend.
Import Backend.

Lemma game_over_None w : game_over w = None ↔ w = None ∨ w = Some ""%string.
Proof.
  unfold game_over. destruct w as [s|]; cbn; [|tauto].
  case_bool_decide as Hs; cbn; split; try done.
  - intros _. right. by subst.
  - intros [?|[= ?]]; done.
Qed.

Lemma game_over_Some w s :
  s ≠ ""%string → w = Some s → game_over w = Some ("Game over. Winner: " +:+ s).
Proof.
  intros Hs ->. unfold game_over. cbn. by rewrite bool_decide_eq_false_2.
Qed.

(** What [_apply_move] has done when it returns. *)
Lemma apply_move_Success p c state r c' state' :
  _apply_move p c state = Success (r, c', state') →
  game_over (winner state) = None ∧ find_drop_row (state_board state) c = Some r ∧
  c' = c ∧
  state' = {| state_board := place_disc (state_board state) r c p;
              winner := if check_win (place_disc (state_board state) r c p) r c CONNECT_N
                        then Some p else winner state;
              last_move := Some {| move_player := p; move_row := r; move_col := c |};
              history := history state ++
                         [{| move_player := p; move_row := r; move_col := c |}];
              turn_state := turn_state state |}.
Proof.
  unfold _apply_move. destruct (game_over (winner state)); [done|].
  destruct (find_drop_row (state_board state) c) as [row|]; [|done].
  intros [= <- <- <-]. done.
Qed.

Lemma PLAYERS_nonempty_names w : w ∈ PLAYERS → w ≠ ""%string.
Proof.
  unfold PLAYERS. rewrite !elem_of_cons, elem_of_nil.
  intros [->|[->|[->|[]]]]; discriminate.
Qed.

Lemma winner_ok_no_game_over state :
  winner_ok state → game_over (winner state) = None → winner state = None.
Proof.
  unfold winner_ok. intros Hok [Hw|Hw]%game_over_None; [done|].
  rewrite Hw in Hok. destruct Hok as [Hin%PLAYERS_nonempty_names _]. done.
Qed.

Lemma apply_move_ok p c state r c' state' :
  session_ok state → p ∈ PLAYERS → 0 ≤ c < COLS →
  _apply_move p c state = Success (r, c', state') → session_ok state'.
Proof.
  intros (Hwf & Hg & Hmoves & Hfree & Hlast & Hwin) Hp Hc
         (Hover & Hdrop & -> & ->)%apply_move_Success.
  pose proof Hdrop as (Hr & Hget & _)%find_drop_row_Some.
  assert (in_bounds r c = true) as Hin by (apply in_bounds_true; lia).
  unfold session_ok. cbn [state_board history last_move winner turn_state].
  split; [by apply wf_place_disc|].
  split; [by apply gravity_place_disc|]. split; [|split; [|split]].
  - apply Forall_app. split.
    + eapply Forall_impl; [exact Hmoves|]. intros m [Hm Hcell]. cbn in *.
      split; [done|]. apply in_bounds_true in Hm.
      rewrite get_place_disc_ne; [done|lia..|].
      intros [= Hrow Hcol]. rewrite Hrow, Hcol, Hget in Hcell. done.
    + constructor; [|constructor]. cbn. split; [done|].
      by apply get_place_disc_eq.
  - pose proof (free_cells_place_disc (state_board state) r c p Hwf Hc Hdrop).
    rewrite length_app. cbn [length]. lia.
  - by rewrite last_snoc.
  - unfold winner_ok. cbn.
    destruct (check_win (place_disc (state_board state) r c p) r c CONNECT_N) eqn:Hcw.
    + split; [done|]. eexists. split; [done|]. done.
    + by rewrite (winner_ok_no_game_over state Hwin Hover).
Qed.

Lemma initial_ok : session_ok initial.
Proof.
  unfold session_ok, initial. cbn. split; [wf_board_compute|].
  split; [apply gravity_check_sound; vm_compute; reflexivity|].
  split; [constructor|]. split; [vm_compute; reflexivity|]. split; done.
Qed.

(** The column [choose_best_move] returns is a column of the grid with
    an empty cell, and the row is its drop row. *)
Lemma choose_best_move_Ok set_order b bot opponent_ids depth result :
  wf_board b →
  choose_best_move set_order b bot opponent_ids depth = Ok result →
  0 ≤ column result < COLS ∧ find_drop_row b (column result) = Some (row result).
Proof.
  intros Hwf Hres.
  destruct (decide (valid_columns b = [])) as [Hnil|Hne].
  { unfold choose_best_move, choose_best_move_fuel in Hres. by rewrite Hnil in Hres. }
  destruct (choose_best_move_first_max set_order b bot opponent_ids depth Hwf Hne)
    as (res & Hres' & _ & Hrow & _ & before & after & Hcols & _).
  assert (res = result) as -> by congruence. split; [|done].
  assert (column result ∈ valid_columns b) as Hin.
  { rewrite Hcols. apply elem_of_app. right. left. }
  apply elem_of_valid_columns in Hin. tauto.
Qed.

Lemma human_move_Success body state resp state' :
  human_move body state = Success (resp, state') →
  ∃ r, _apply_move (player_id body) (req_column body) state
       = Success (r, req_column body, state') ∧
       resp_row resp = r ∧ resp_column resp = req_column body ∧
       resp_board resp = state_board state' ∧ resp_winner resp = winner state'.
Proof.
  unfold human_move. destruct (_ || _); [done|].
  destruct (_apply_move (player_id body) (req_column body) state)
    as [[[r c] st]| | | |] eqn:Happly; cbn; [|done..].
  intros [= <- <-]. pose proof Happly as (_ & _ & -> & _)%apply_move_Success.
  exists r. done.
Qed.

Lemma bot_move_Success set_order depth state resp state' :
  bot_move set_order depth state = Success (resp, state') →
  ∃ result,
    choose_best_move set_order (state_board state) "BOT" None
                     (depth_or_default depth) = Ok result ∧
    _apply_move "BOT" (column result) state
      = Success (resp_row resp, column result, state') ∧
    resp_column resp = column result ∧
    bot_stats resp = Some {| stats_score := score_of result;
                             stats_depth := depth_of result;
                             stats_nodes := nodes_of result |}.
Proof.
  unfold bot_move. destruct (game_over (winner state)); [done|].
  destruct (choose_best_move _ _ _ _ _) as [result|[]|] eqn:Hres; try done.
  destruct (_apply_move "BOT" (column result) state)
    as [[[r c] st]| | | |] eqn:Happly; cbn; [|done..].
  intros [= <- <-]. pose proof Happly as (_ & _ & -> & _)%apply_move_Success.
  exists result. done.
Qed.

Lemma reachable_ok state : reachable state → session_ok state.
Proof.
  induction 1 as [|body state r state' _ IH [Hp Hc] Hmove
                  |set_order depth state r state' _ IH _ Hmove
                  |players state draw r state' _ IH Hroll
                  |state _ _].
  - apply initial_ok.
  - apply human_move_Success in Hmove as (row & Happly & _).
    eapply apply_move_ok; [exact IH| |exact Hc|exact Happly].
    unfold PLAYERS. revert Hp. rewrite !elem_of_cons. tauto.
  - apply bot_move_Success in Hmove as (result & Hres & Happly & _).
    destruct IH as (Hwf & IH').
    apply (choose_best_move_Ok _ _ _ _ _ _ Hwf) in Hres as [Hc _].
    eapply apply_move_ok; [exact (conj Hwf IH')| |exact Hc|exact Happly].
    unfold PLAYERS. rewrite !elem_of_cons. tauto.
  - unfold roll_dice in Hroll.
    destruct (ensure_non_empty players) as [v|[]|]; [|done..].
    destruct (Dice.roll_next_turn _ _ _) as [[res ts]| |]; [|done..].
    injection Hroll as <- <-. exact IH.
  - apply initial_ok.
Qed.

(** X17. The board of the session is always a 10x10 grid that keeps
    gravity: the routes only ever drop discs. *)
Theorem session_board_ok state :
  reachable state → wf_board (state_board state) ∧ gravity (state_board state).
Proof. intros (Hwf & Hg & _)%reachable_ok. done. Qed.

(** X18. The history is the record of the board: the cell of every move
    of the history holds the player of the move, the board has as many
    discs as the history has moves (so a game has at most 100 moves), and
    [last_move] is the last move of the history. *)
Theorem session_history_ok state :
  reachable state →
  moves_on_board (state_board state) (history state) ∧
  (free_cells (state_board state) + length (history state) = 100)%nat ∧
  last_move state = last (history state).
Proof. intros (_ & _ & Hm & Hf & Hl & _)%reachable_ok. done. Qed.

(** X19. A winner is one of the three players, made the last move, and
    the disc of that move completes a line. *)
Theorem session_winner_ok state w :
  reachable state → winner state = Some w →
  w ∈ PLAYERS ∧
  ∃ m, last_move state = Some m ∧ move_player m = w ∧
       check_win (state_board state) (move_row m) (move_col m) CONNECT_N = true.
Proof.
  intros (_ & _ & _ & _ & _ & Hwin)%reachable_ok Hw.
  unfold winner_ok in Hwin. by rewrite Hw in Hwin.
Qed.

(** X20. Once there is a winner every move is refused with status 400,
    the bot's with the name of the winner, until the session is
    reset. *)
Theorem game_over_refuses_moves state w :
  reachable state → winner state = Some w →
  (∀ body, ∃ detail, human_move body state = HTTPException 400 detail) ∧
  (∀ set_order depth,
     bot_move set_order depth state
     = HTTPException 400 ("Game over. Winner: " +:+ w)).
Proof.
  intros (_ & _ & _ & _ & _ & Hwin)%reachable_ok Hw.
  unfold winner_ok in Hwin. rewrite Hw in Hwin.
  destruct Hwin as [Hne%PLAYERS_nonempty_names _].
  pose proof (game_over_Some _ _ Hne Hw) as Hover. split.
  - intros body. unfold human_move. destruct (_ || _); [by eexists|].
    unfold _apply_move. rewrite Hover. cbn. by eexists.
  - intros set_order depth. unfold bot_move. by rewrite Hover.
Qed.

(** X21. While there is no winner, [bot_move] is refused only when no
    column is playable, with status 400 and the message of the full
    board; otherwise it returns, and the disc is on the row and column
    [choose_best_move] returned: the column is never full, no other
    exception leaves the route, and the search ends. *)
Theorem bot_move_outcome set_order depth state :
  reachable state → winner state = None →
  (valid_columns (state_board state) = [] →
   bot_move set_order depth state = HTTPException 400 no_moves_msg) ∧
  (valid_columns (state_board state) ≠ [] →
   ∃ result resp state',
     choose_best_move set_order (state_board state) "BOT" None
                      (depth_or_default depth) = Ok result ∧
     bot_move set_order depth state = Success (resp, state') ∧
     resp_row resp = row result ∧ resp_column resp = column result ∧
     state_board state'
       = place_disc (state_board state) (row result) (column result) "BOT" ∧
     history state'
       = history state ++ [{| move_player := "BOT"; move_row := row result;
                              move_col := column result |}]).
Proof.
  intros (Hwf & _)%reachable_ok Hw. unfold bot_move, game_over. rewrite Hw. cbn.
  split.
  - intros Hnil. unfold choose_best_move, choose_best_move_fuel. by rewrite Hnil.
  - intros Hne.
    destruct (choose_best_move_first_max set_order (state_board state) "BOT" None
                (depth_or_default depth) Hwf Hne) as (result & Hres & _).
    pose proof (choose_best_move_Ok _ _ _ _ _ _ Hwf Hres) as [_ Hrow].
    rewrite Hres. unfold _apply_move, game_over. rewrite Hw, Hrow. cbn.
    eexists _, _, _. split; [done|]. split; [done|]. done.
Qed.

(** X22. While there is no winner, a human move the request model
    accepts is refused exactly when the top cell of its column is
    occupied, with status 400 and "Column is full."; otherwise it returns
    the drop row and leaves the player's disc there. *)
Theorem human_move_outcome body state :
  reachable state → valid_human body → winner state = None →
  (get (state_board state) 0 (req_column body) ≠ None →
   human_move body state = HTTPException 400 column_full_msg) ∧
  (get (state_board state) 0 (req_column body) = None →
   ∃ r resp state',
     find_drop_row (state_board state) (req_column body) = Some r ∧
     human_move body state = Success (resp, state') ∧
     resp_row resp = r ∧ resp_column resp = req_column body ∧
     state_board state'
       = place_disc (state_board state) r (req_column body) (player_id body) ∧
     history state'
       = history state ++ [{| move_player := player_id body; move_row := r;
                              move_col := req_column body |}]).
Proof.
  intros (Hwf & Hg & _)%reachable_ok [Hp Hc] Hw.
  assert (negb (bool_decide (player_id body ∈ PLAYERS))
          || bool_decide (player_id body = "BOT"%string) = false) as Hid.
  { revert Hp. unfold PLAYERS. rewrite !elem_of_cons, elem_of_nil.
    intros [->|[->|[]]]; reflexivity. }
  unfold human_move, _apply_move, game_over. rewrite Hid, Hw. cbn. split.
  - intros Htop.
    assert (find_drop_row (state_board state) (req_column body) = None) as ->.
    { apply find_drop_row_None. by apply gravity_column_full. }
    done.
  - intros Htop.
    destruct (find_drop_row (state_board state) (req_column body)) as [r|] eqn:Hr.
    + cbn. eexists _, _, _. split; [done|]. split; [done|]. done.
    + exfalso. rewrite find_drop_row_None in Hr.
      apply (Hr 0); [unfold ROWS; lia|done].
Qed.

(** X23. An empty list of players is refused by the request model
    (the validation error of [ensure_non_empty], status 422) before the
    roll; on every other request [roll_dice] returns: it rolls among the
    players given, or among the three players when none are given, the
    player it returns is one of them, the turn state is the one the roll
    leaves, and the board, the winner and the history are left as they
    were. *)
Theorem roll_dice_returns players state draw :
  (players = Some [] →
   roll_dice players state draw = RequestValidationError players_empty_msg) ∧
  (players ≠ Some [] →
   ∃ r state',
     roll_dice players state draw = Success (r, state') ∧
     Dice.roll_next_turn (default PLAYERS players) (turn_state state) draw
       = Ok (r, turn_state state') ∧
     Dice.chosen_player r ∈ default PLAYERS players ∧
     state_board state' = state_board state ∧ winner state' = winner state ∧
     last_move state' = last_move state ∧ history state' = history state).
Proof.
  split; [by intros ->|]. intros Hne. unfold roll_dice.
  assert (ensure_non_empty players = Ok players) as ->.
  { by destruct players as [[|p l]|]. }
  assert (players_or_default players = default PLAYERS players) as ->.
  { by destruct players as [[|p l]|]. }
  destruct (roll_next_turn_returns (default PLAYERS players) (turn_state state) draw)
    as (r & ts & Hroll & Hin).
  { unfold PLAYERS. by destruct players as [[|p l]|]. }
  rewrite Hroll. eexists _, _. split; [done|]. done.
Qed.

Lemma roll_dice_returns_witness :
  roll_dice (Some []) sample_state 0
    = RequestValidationError players_empty_msg ∧
  ∃ r state',
    roll_dice (Some ["P1"; "P2"]%string) sample_state 1 = Success (r, state') ∧
    Dice.roll_next_turn (default PLAYERS (Some ["P1"; "P2"]%string))
                        (turn_state sample_state) 1
      = Ok (r, turn_state state') ∧
    Dice.chosen_player r ∈ default PLAYERS (Some ["P1"; "P2"]%string) ∧
    state_board state' = state_board sample_state ∧
    winner state' = winner sample_state ∧
    last_move state' = last_move sample_state ∧
    history state' = history sample_state.
Proof.
  split.
  - apply (proj1 (roll_dice_returns (Some []) sample_state 0)). reflexivity.
  - apply (proj2 (roll_dice_returns (Some ["P1"; "P2"]%string) sample_state 1)).
    discriminate.
Defined.

Lemma state_after_reachable body state :
  reachable state → valid_human body →
  reachable (state_after state (human_move body state)).
Proof.
  intros Hreach Hvalid.
  destruct (human_move body state) as [[resp st]| | | |] eqn:Hmove; cbn; [|done..].
  by eapply reach_human.
Qed.

Lemma play_humans_reachable moves :
  Forall (λ '(p, c), valid_human {| player_id := p; req_column := c |}) moves →
  reachable (play_humans moves).
Proof.
  unfold play_humans. generalize reach_initial. generalize initial.
  induction moves as [|[p c] moves IH]; intros state Hreach Hall; [done|].
  apply Forall_cons in Hall as [Hvalid Hall]. cbn [foldl].
  apply IH; [|done]. by apply state_after_reachable.
Qed.

Ltac humans_valid :=
  repeat (apply Forall_cons; split;
          [split; [apply list_elem_of_In; cbn; tauto|unfold COLS; cbn; lia]|]);
  apply Forall_nil_2.

Lemma sample_state_reachable : reachable sample_state.
Proof. apply play_humans_reachable. humans_valid. Qed.

Lemma won_state_reachable : reachable won_state.
Proof. apply play_humans_reachable. humans_valid. Qed.

Lemma session_board_ok_witness :
  wf_board (state_board won_state) ∧ gravity (state_board won_state).
Proof. apply (session_board_ok won_state). exact won_state_reachable. Defined.

Lemma session_history_ok_witness :
  moves_on_board (state_board won_state) (history won_state) ∧
  (free_cells (state_board won_state) + length (history won_state) = 100)%nat ∧
  last_move won_state = last (history won_state).
Proof. apply (session_history_ok won_state). exact won_state_reachable. Defined.

Lemma session_winner_ok_witness :
  "P1"%string ∈ PLAYERS ∧
  ∃ m, last_move won_state = Some m ∧ move_player m = "P1"%string ∧
       check_win (state_board won_state) (move_row m) (move_col m) CONNECT_N = true.
Proof.
  apply (session_winner_ok won_state "P1"%string).
  - exact won_state_reachable.
  - vm_compute. reflexivity.
Defined.

Lemma game_over_refuses_moves_witness :
  (∀ body, ∃ detail, human_move body won_state = HTTPException 400 detail) ∧
  (∀ set_order depth,
     bot_move set_order depth won_state
     = HTTPException 400 ("Game over. Winner: " +:+ "P1")).
Proof.
  apply (game_over_refuses_moves won_state "P1"%string).
  - exact won_state_reachable.
  - vm_compute. reflexivity.
Defined.

Lemma bot_move_outcome_witness :
  ∃ result resp state',
    choose_best_move id (state_board sample_state) "BOT" None
                     (depth_or_default (Some 2)) = Ok result ∧
    bot_move id (Some 2) sample_state = Success (resp, state') ∧
    resp_row resp = row result ∧ resp_column resp = column result ∧
    state_board state'
      = place_disc (state_board sample_state) (row result) (column result) "BOT" ∧
    history state'
      = history sample_state ++ [{| move_player := "BOT"; move_row := row result;
                                    move_col := column result |}].
Proof.
  apply (bot_move_outcome id (Some 2) sample_state).
  - exact sample_state_reachable.
  - vm_compute. reflexivity.
  - vm_compute. discriminate.
Defined.

Lemma human_move_outcome_witness :
  ∃ r resp state',
    find_drop_row (state_board sample_state) 3 = Some r ∧
    human_move {| player_id := "P2"; req_column := 3 |} sample_state
      = Success (resp, state') ∧
    resp_row resp = r ∧ resp_column resp = 3 ∧
    state_board state' = place_disc (state_board sample_state) r 3 "P2" ∧
    history state'
      = history sample_state ++ [{| move_player := "P2"; move_row := r;
                                    move_col := 3 |}].
Proof.
  apply (human_move_outcome {| player_id := "P2"; req_column := 3 |} sample_state).
  - exact sample_state_reachable.
  - split; [apply list_elem_of_In; cbn; tauto|unfold COLS; cbn; lia].
  - vm_compute. reflexivity.
  - vm_compute. reflexivity.
Defined.
End backend.

(** ** The order of the opponents *)

Lemma count_if_ext {A} (f g : A → bool) l :
  (∀ x, f x = g x) → count_if f l = count_if g l.
Proof.
  intros Hfg. unfold count_if. do 2 f_equal.
  induction l as [|x l IH]; [done|]. cbn. by rewrite Hfg, IH.
Qed.

Lemma cell_in_perm opps opps' c : opps ≡ₚ opps' → cell_in opps c = cell_in opps' c.
Proof.
  intros Hperm. destruct c as [q|]; [|done]. cbn.
  apply bool_decide_ext. by rewrite Hperm.
Qed.

Lemma score_window_perm w bot opps opps' :
  opps ≡ₚ opps' → score_window w bot opps = score_window w bot opps'.
Proof.
  intros Hperm. unfold score_window, count_opp.
  by rewrite (count_if_ext (cell_in opps) (cell_in opps') w (λ c, cell_in_perm _ _ c Hperm)).
Qed.

(** The evaluation reads the opponents as a set. *)
Lemma evaluate_board_perm b bot opps opps' :
  opps ≡ₚ opps' → evaluate_board b bot opps = evaluate_board b bot opps'.
Proof.
  intros Hperm. rewrite !evaluate_board_loop. apply foldl_ext_in.
  intros s w. unfold add_window. by rewrite (score_window_perm _ _ _ _ Hperm).
Qed.

Lemma py_max_proper a a' b b' :
  score_eq a a' → score_eq b b' → score_eq (py_max a b) (py_max a' b').
Proof. intros ? ?. max_min_cases; order. Qed.

Lemma py_min_proper a a' b b' :
  score_eq a a' → score_eq b b' → score_eq (py_min a b) (py_min a' b').
Proof. intros ? ?. max_min_cases; order. Qed.

Lemma py_min_swap a a' x x' y y' :
  score_eq a a' → score_eq x x' → score_eq y y' →
  score_eq (py_min (py_min a y) x) (py_min (py_min a' x') y').
Proof. intros ? ? ?. max_min_cases; order. Qed.

Section full_layers_related.
Context (child child' : board → Z * Z → nat → result (score * nat)).
Context (b : board).

(** The recursive calls of two runs return equal values, each whatever
    its node counter. *)
Hypothesis child_related : ∀ b' move n n' v m,
  child b' move n = Ok (v, m) →
  ∃ v' m', child' b' move n' = Ok (v', m') ∧ score_eq v v'.
Hypothesis child_counter : ∀ b' move n n' v m,
  child' b' move n = Ok (v, m) →
  ∃ v' m', child' b' move n' = Ok (v', m') ∧ score_eq v v'.

Lemma full_max_layer_related bot cols : ∀ valf valf' n n' V m,
  score_eq valf valf' →
  full_max_layer child b bot cols valf n = Ok (V, m) →
  ∃ V' m', full_max_layer child' b bot cols valf' n' = Ok (V', m') ∧ score_eq V V'.
Proof using child_related.
  induction cols as [|col rest IH]; intros valf valf' n n' V m Hval; simpl.
  - intros [= <- <-]. eauto.
  - intros (row & Hrow & ([v n1] & Hchild & Hrest)%bind_Ok)%bind_Ok.
    rewrite Hrow. cbn.
    destruct (child_related _ _ _ n' _ _ Hchild) as (v' & n1' & -> & Hv). cbn.
    eapply IH; [|exact Hrest]. by apply py_max_proper.
Qed.

Lemma full_min_opponents_related row col opps : ∀ valf valf' n n' V m,
  score_eq valf valf' →
  full_min_opponents child b row col opps valf n = Ok (V, m) →
  ∃ V' m', full_min_opponents child' b row col opps valf' n' = Ok (V', m') ∧
           score_eq V V'.
Proof using child_related.
  induction opps as [|opp rest IH]; intros valf valf' n n' V m Hval; simpl.
  - intros [= <- <-]. eauto.
  - intros ([v n1] & Hchild & Hrest)%bind_Ok.
    destruct (child_related _ _ _ n' _ _ Hchild) as (v' & n1' & -> & Hv). cbn.
    eapply IH; [|exact Hrest]. by apply py_min_proper.
Qed.

(** The loop over the opponents, in another order. *)
Lemma full_min_opponents_perm row col opps opps' :
  opps ≡ₚ opps' → ∀ valf valf' n n' V m,
  score_eq valf valf' →
  full_min_opponents child' b row col opps valf n = Ok (V, m) →
  ∃ V' m', full_min_opponents child' b row col opps' valf' n' = Ok (V', m') ∧
           score_eq V V'.
Proof using child_counter.
  induction 1 as [|x l l' Hperm IH|x y l|l l' l'' _ IH1 _ IH2];
    intros valf valf' n n' V m Hval; simpl.
  - intros [= <- <-]. eauto.
  - intros ([v n1] & Hchild & Hrest)%bind_Ok.
    destruct (child_counter _ _ _ n' _ _ Hchild) as (v' & n1' & -> & Hv). cbn.
    eapply IH; [|exact Hrest]. by apply py_min_proper.
  - intros ([vy n1] & Hy & ([vx n2] & Hx & Hrest)%bind_Ok)%bind_Ok.
    destruct (child_counter _ _ _ n' _ _ Hx) as (vx' & n1' & -> & Hvx). cbn.
    destruct (child_counter _ _ _ n1' _ _ Hy) as (vy' & n2' & -> & Hvy). cbn.
    revert Hrest. clear -child_counter Hval Hvx Hvy.
    pose proof (py_min_swap _ _ _ _ _ _ Hval Hvx Hvy) as Hstart.
    revert Hstart.
    generalize (py_min (py_min valf vy) vx) (py_min (py_min valf' vx') vy').
    intros s s'. revert s s' n2 n2'.
    induction l as [|opp rest IHl]; intros s s' k k' Hs; simpl.
    + intros [= <- <-]. eauto.
    + intros ([v j] & Hchild & Hrest)%bind_Ok.
      destruct (child_counter _ _ _ k' _ _ Hchild) as (v' & j' & -> & Hv). cbn.
      eapply IHl; [|exact Hrest]. by apply py_min_proper.
  - intros Hrun.
    destruct (IH1 _ _ _ n _ _ (reflexivity valf) Hrun) as (V1 & m1 & Hrun1 & HV1).
    destruct (IH2 _ _ _ n' _ _ Hval Hrun1) as (V2 & m2 & Hrun2 & HV2).
    eexists _, _. split; [exact Hrun2|]. order.
Qed.

Lemma full_min_layer_related opps opps' cols :
  opps ≡ₚ opps' → ∀ valf valf' n n' V m,
  score_eq valf valf' →
  full_min_layer child b opps cols valf n = Ok (V, m) →
  ∃ V' m', full_min_layer child' b opps' cols valf' n' = Ok (V', m') ∧
           score_eq V V'.
Proof using child_related child_counter.
  intros Hperm. induction cols as [|col rest IH]; intros valf valf' n n' V m Hval; simpl.
  - intros [= <- <-]. eauto.
  - intros (row & Hrow & ([Vin n1] & Hin & Hrest)%bind_Ok)%bind_Ok.
    rewrite Hrow. cbn.
    destruct (full_min_opponents_related _ _ _ _ _ _ n _ _ (reflexivity valf) Hin)
      as (V1 & m1 & Hin1 & HV1).
    destruct (full_min_opponents_perm _ _ _ _ Hperm _ _ _ n' _ _ Hval Hin1)
      as (V2 & m2 & -> & HV2).
    cbn. eapply IH; [|exact Hrest]. order.
Qed.
End full_layers_related.

(** The value of the unpruned search does not depend on the order of
    the opponents, nor on the node counter. *)
Lemma full_minimax_perm fuel : ∀ opps opps' b depth maximizing bot last n n' v m,
  opps ≡ₚ opps' →
  full_minimax fuel b depth maximizing bot opps last n = Ok (v, m) →
  ∃ v' m', full_minimax fuel b depth maximizing bot opps' last n' = Ok (v', m') ∧
           score_eq v v'.
Proof.
  induction fuel as [|fuel IH];
    intros opps opps' b depth maximizing bot last n n' v m Hperm; [done|].
  cbn [full_minimax]. rewrite (evaluate_board_perm b bot opps opps' Hperm).
  destruct (terminal_score b bot depth last).
  { intros [= <- <-]. eexists _, _. split; [done|]. reflexivity. }
  destruct ((depth =? 0) || board_is_full b).
  { intros [= <- <-]. eexists _, _. split; [done|]. reflexivity. }
  destruct (valid_columns b) as [|c cols].
  { intros [= <- <-]. eexists _, _. split; [done|]. reflexivity. }
  destruct maximizing.
  - apply full_max_layer_related; [|reflexivity].
    intros b' move k k' v' j. by apply IH.
  - apply full_min_layer_related; [| |done|reflexivity].
    + intros b' move k k' v' j. by apply IH.
    + intros b' move k k' v' j. by apply IH.
Qed.

Lemma minimax_perm opps opps' b depth maximizing bot last n n' v m' :
  wf_board b → opps ≡ₚ opps' →
  minimax search_fuel b depth maximizing bot opps' NegInf PosInf last n' = Ok (v, m') →
  ∃ r m, minimax search_fuel b depth maximizing bot opps NegInf PosInf last n = Ok (r, m) ∧
         score_eq r v.
Proof.
  intros Hwf Hperm Hrun.
  destruct (full_minimax_total search_fuel b depth maximizing bot opps last O Hwf
              (wf_free_cells b Hwf)) as (vf & mf & Hfull & _).
  destruct (minimax_exact _ _ _ _ _ _ _ n _ _ _ Hfull) as (r & m & Hr & Hrv).
  destruct (full_minimax_perm _ _ _ _ _ _ _ _ _ O _ _ Hperm Hfull)
    as (vf' & mf' & Hfull' & Hvf).
  destruct (minimax_exact _ _ _ _ _ _ _ n' _ _ _ Hfull') as (r' & k & Hr' & Hrv').
  assert (r' = v) as -> by congruence.
  exists r, m. split; [done|]. order.
Qed.

Section root_agree_placed.
Context (child child' : board → Z * Z → nat → result (score * nat)).
Context (b : board) (bot : player).

Hypothesis child_exact : ∀ row col n n' v m',
  find_drop_row b col = Some row →
  child' (place_disc b row col bot) (row, col) n' = Ok (v, m') →
  ∃ r m, child (place_disc b row col bot) (row, col) n = Ok (r, m) ∧ score_eq r v.

Lemma root_loop_agree_placed cols : ∀ best best' mv n n' B' mv' m',
  score_eq best best' →
  root_loop child' b bot cols best' mv n' = Ok (B', mv', m') →
  ∃ B m, root_loop child b bot cols best mv n = Ok (B, mv', m) ∧ score_eq B B'.
Proof using child_exact.
  induction cols as [|col rest IH]; intros best best' mv n n' B' mv' m' Hbest; simpl.
  - intros [= <- <- <-]. eauto.
  - intros (row & Hrow & ([v n1] & Hchild & Hrest)%bind_Ok)%bind_Ok.
    rewrite Hrow. cbn. destruct (find_drop_row b col) as [row0|] eqn:Hdrop; [|done].
    injection Hrow as <-.
    destruct (child_exact _ _ n _ _ _ Hdrop Hchild) as (r & m1 & -> & Hr).
    cbn. rewrite (score_ltb_proper best best' r v Hbest Hr).
    destruct (score_ltb best' v); eapply IH; eauto.
Qed.
End root_agree_placed.

Lemma resolve_opponents_perm set_order set_order' b bot ids ids' :
  (∀ l, set_order l ≡ₚ l) → (∀ l, set_order' l ≡ₚ l) →
  match ids, ids' with
  | Some l, Some l' => l ≡ₚ l'
  | None, None => True
  | _, _ => False
  end →
  resolve_opponents set_order b bot ids ≡ₚ resolve_opponents set_order' b bot ids'.
Proof.
  intros Hso Hso' Hids.
  assert (infer_opponents set_order b bot ≡ₚ infer_opponents set_order' b bot) as Hinfer.
  { unfold infer_opponents. destruct (seen_ids b bot) as [|q l]; [done|].
    by rewrite Hso, Hso'. }
  unfold resolve_opponents.
  destruct ids as [[|p l]|], ids' as [[|p' l']|]; try done.
  - by apply Permutation_nil_cons in Hids.
  - symmetry in Hids. by apply Permutation_nil_cons in Hids.
Qed.

(** X24. The column, the row and the score [choose_best_move] returns do
    not depend on the order in which Python lists the set of inferred
    opponents, nor on the order of the opponents the caller names. *)
Theorem choose_best_move_opponent_order set_order set_order' b bot ids ids' depth :
  wf_board b →
  (∀ l, set_order l ≡ₚ l) → (∀ l, set_order' l ≡ₚ l) →
  match ids, ids' with
  | Some l, Some l' => l ≡ₚ l'
  | None, None => True
  | _, _ => False
  end →
  match choose_best_move set_order b bot ids depth,
        choose_best_move set_order' b bot ids' depth with
  | Ok res, Ok res' =>
      column res = column res' ∧ row res = row res' ∧
      score_eq (score_of res) (score_of res')
  | Raise e, Raise e' => e = e'
  | _, _ => False
  end.
Proof.
  intros Hwf Hso Hso' Hids.
  pose proof (resolve_opponents_perm _ _ b bot _ _ Hso Hso' Hids) as Hperm.
  destruct (decide (valid_columns b = [])) as [Hnil|Hne].
  { unfold choose_best_move, choose_best_move_fuel. rewrite Hnil. done. }
  destruct (choose_best_move_first_max set_order' b bot ids' depth Hwf Hne)
    as (res' & Hres' & _). rewrite Hres'.
  destruct (choose_best_move_first_max set_order b bot ids depth Hwf Hne)
    as (res & Hres & _). rewrite Hres.
  unfold choose_best_move, choose_best_move_fuel in Hres, Hres'.
  destruct (valid_columns b) as [|c0 cols] eqn:Hcols; [done|]. rewrite <- Hcols in *.
  apply bind_Ok in Hres as ([[B mv] m] & Hloop & Hres).
  apply bind_Ok in Hres' as ([[B' mv'] m'] & Hloop' & Hres').
  destruct (root_loop_agree_placed
              (λ b' move nodes,
                 minimax search_fuel b' (depth - 1) false bot
                         (resolve_opponents set_order b bot ids)
                         NegInf PosInf (Some move) nodes)
              (λ b' move nodes,
                 minimax search_fuel b' (depth - 1) false bot
                         (resolve_opponents set_order' b bot ids')
                         NegInf PosInf (Some move) nodes)
              b bot) with (cols := valid_columns b) (best := NegInf) (best' := NegInf)
                          (mv := @None (Z * Z)) (n := O) (n' := O)
                          (B' := B') (mv' := mv') (m' := m')
    as (B2 & m2 & Hloop2 & HB).
  { intros row col n n' v j Hrow Hv.
    eapply minimax_perm; [by apply wf_place_disc|exact Hperm|exact Hv]. }
  { reflexivity. }
  { exact Hloop'. }
  assert (B2 = B ∧ mv' = mv) as [-> ->] by (split; congruence).
  destruct mv as [[r c]|]; [|done].
  injection Hres as <-. injection Hres' as <-. cbn. done.
Qed.

Lemma choose_best_move_opponent_order_witness :
  match choose_best_move id sample_board "BOT" (Some ["P1"; "P2"]%string) 2,
        choose_best_move reverse sample_board "BOT" (Some ["P2"; "P1"]%string) 2 with
  | Ok res, Ok res' =>
      column res = column res' ∧ row res = row res' ∧
      score_eq (score_of res) (score_of res')
  | Raise e, Raise e' => e = e'
  | _, _ => False
  end.
Proof.
  apply (choose_best_move_opponent_order id reverse sample_board "BOT"%string
           (Some ["P1"; "P2"]%string) (Some ["P2"; "P1"]%string) 2).
  - wf_board_compute.
  - intros l. reflexivity.
  - intros l. apply reverse_Permutation.
  - apply perm_swap.
Defined.

(** ** Every player of the pool can be rolled *)

Section dice_pool.
Import Dice.

(** X25. Every player in the pool of a roll is returned by the roll for
    some draw of the generator. *)
Theorem roll_reaches_pool players state x :
  players ≠ [] → x ∈ pool players state →
  ∃ draw r state', roll_next_turn players state draw = Ok (r, state') ∧
                   chosen_player r = x.
Proof.
  intros Hne Hx. apply list_elem_of_lookup in Hx as [i Hi].
  pose proof (lookup_lt_Some _ _ _ Hi) as Hlt.
  assert (choice i (pool players state) = Ok x) as Hchoice.
  { unfold choice. rewrite Nat.mod_small by done. by rewrite Hi. }
  exists i. unfold roll_next_turn. destruct players as [|p0 players]; [done|].
  rewrite Hchoice. cbn. destruct (2 <=? _); eexists _, _; done.
Qed.

Lemma roll_reaches_pool_witness :
  ∃ draw r state', roll_next_turn PLAYERS initial draw = Ok (r, state') ∧
                   chosen_player r = "BOT"%string.
Proof.
  apply (roll_reaches_pool PLAYERS initial "BOT"%string).
  - discriminate.
  - apply list_elem_of_In. vm_compute. tauto.
Defined.
End dice_pool.
